(** * xtuml.model: the in-memory instance store of pyxtuml

    A shallow embedding of [src/xtuml/model.py] and the properties of its
    ordered set, instance objects, metamodel registry and navigation chain.

    Conventions of the embedding.
    - Python objects that are mutated in place and shared (the cells of the
      ordered set's linked list, instances, class objects) live in explicit
      heaps; an address is an index into the heap.
    - A call returns the new state and an [outcome]: a value or the raised
      exception.  State changes made before a [raise] are kept, as in Python.
    - Dictionaries whose iteration order the code depends on ([__dict__],
      [kwargs]) are insertion-ordered association lists. *)

From Stdlib Require Import ZArith String Ascii List Bool Lia.
From stdpp Require Import base option list strings gmap pretty.

Open Scope string_scope.
Open Scope list_scope.

(** ** Outcomes *)

(** The exception classes the module raises itself or lets through.
    [OutsideModel] is not a Python exception: it marks a call whose answer
    depends on objects the embedding does not represent. *)
Inductive exn : Type :=
| KeyError (msg : string)
| TypeError
| AttributeError
| ValueError
| OverflowError
| ModelException (msg : string)
| OutsideModel.

Inductive outcome (A : Type) : Type :=
| Ok (a : A)
| Raise (e : exn).

Arguments Ok {A} a.
Arguments Raise {A} e.

Definition obind {A B : Type} (o : outcome A) (k : A -> outcome B) : outcome B :=
  match o with
  | Ok a => k a
  | Raise e => Raise e
  end.

(** ** OrderedSet

    [class OrderedSet]: a dict [map] from key to list cell and a circular
    doubly linked list of cells [[key, prev, next]] around the sentinel
    [end]. *)

Module OrderedSet.

Section WithKey.

Context {K : Type} `{Countable K}.

(** One list cell [[key, prev, next]]; the sentinel's key is Python's
    [None]. *)
Record node : Type := Node { key : option K; prev : nat; next_ : nat }.

Record t : Type := Make {
  nodes : list node;     (* the heap of list cells *)
  end_ : nat;            (* self.end *)
  map : gmap K nat       (* self.map : key --> cell *)
}.

(** [curr[1] = v] and [curr[2] = v]. *)
Definition set_prev (a v : nat) (h : list node) : list node :=
  alter (fun c => Node (key c) v (next_ c)) a h.

Definition set_next (a v : nat) (h : list node) : list node :=
  alter (fun c => Node (key c) (prev c) v) a h.

Definition prev_of (h : list node) (a : nat) : nat :=
  from_option prev a (h !! a).

Definition next_of (h : list node) (a : nat) : nat :=
  from_option next_ a (h !! a).

Definition h_key (h : list node) (a : nat) : option K :=
  h !! a ≫= key.

(** [__init__] without an iterable: the sentinel points to itself. *)
Definition empty : t :=
  {| nodes := [Node None 0 0]; end_ := 0; map := ∅ |}.

(** [__len__] and [__contains__]. *)
Definition len (s : t) : nat := size (map s).

Definition contains (k : K) (s : t) : bool :=
  bool_decide (is_Some (map s !! k)).

(** [add]: [curr[2] = end[1] = self.map[key] = [key, curr, end]], the
    targets assigned from left to right. *)
Definition add (k : K) (s : t) : t :=
  match map s !! k with
  | Some _ => s
  | None =>
      let e := end_ s in
      let curr := prev_of (nodes s) e in
      let n := length (nodes s) in
      let h1 := nodes s ++ [Node (Some k) curr e] in
      let h2 := set_next curr n h1 in
      let h3 := set_prev e n h2 in
      {| nodes := h3; end_ := e; map := <[k := n]> (map s) |}
  end.

(** [MutableSet.__ior__]: [for value in it: self.add(value)]. *)
Definition ior (s : t) (it : list K) : t :=
  fold_left (fun acc k => add k acc) it s.

(** [OrderedSet(iterable)]. *)
Definition of_list (it : list K) : t := ior empty it.

(** [discard].  The cell is taken out of [map] and its predecessor is
    relinked; the next statement, [next[1] = prev], subscripts the builtin
    function [next] (the local is called [next_]) and raises [TypeError]. *)
Definition discard (k : K) (s : t) : t * outcome unit :=
  match map s !! k with
  | None => (s, Ok tt)
  | Some a =>
      let p := prev_of (nodes s) a in
      let n := next_of (nodes s) a in
      let m' := delete k (map s) in
      let h' := set_next p n (nodes s) in
      ({| nodes := h'; end_ := end_ s; map := m' |}, Raise TypeError)
  end.

(** The loops of [__iter__] and [__reversed__]:
    [while curr is not end: yield curr[0]; curr = curr[step]].
    [None] when the loop has not reached [end] within [fuel] cells. *)
Fixpoint walk (step : node -> nat) (h : list node) (e : nat)
  (fuel : nat) (curr : nat) : option (list K) :=
  if Nat.eqb curr e then Some []
  else
    match fuel with
    | O => None
    | S fuel' =>
        match h !! curr with
        | Some (Node (Some k) p n) =>
            option_map (cons k) (walk step h e fuel' (step (Node (Some k) p n)))
        | _ => None
        end
    end.

(** A walk that visits more cells than the heap holds has entered a cycle
    that does not contain [end], so the heap size is enough fuel. *)
Definition iter (s : t) : option (list K) :=
  walk next_ (nodes s) (end_ s) (length (nodes s)) (next_of (nodes s) (end_ s)).

Definition reversed (s : t) : option (list K) :=
  walk prev (nodes s) (end_ s) (length (nodes s)) (prev_of (nodes s) (end_ s)).

(** [pop(last)].  [self.end[1][0]] is the key stored in the last cell; when
    the list is empty that cell is the sentinel and the key read is [None],
    which [discard] does not find. *)
Definition pop (last : bool) (s : t) : t * outcome (option K) :=
  if Nat.eqb (len s) 0 then (s, Raise (KeyError "set is empty"))
  else
    let c := if last then prev_of (nodes s) (end_ s)
             else next_of (nodes s) (end_ s) in
    match h_key (nodes s) c with
    | Some k =>
        match discard k s with
        | (s', Ok _) => (s', Ok (Some k))
        | (s', Raise e) => (s', Raise e)
        end
    | None => (s, Ok None)
    end.

(** *** The abstraction: an ordered set stands for a duplicate-free list

    [repr s l]: the cells [cells] hold the keys [l] in order; each cell's
    [prev] is its left neighbour in [end :: cells] and its [next] the right
    neighbour in [cells ++ [end]]; [map] sends each key to its cell. *)
Definition repr (s : t) (l : list K) : Prop :=
  exists cells : list nat,
    length cells = length l /\ NoDup l /\ NoDup (end_ s :: cells) /\
    (exists pe ne, nodes s !! end_ s = Some (Node None pe ne)
       /\ (end_ s :: cells) !! length cells = Some pe
       /\ (cells ++ [end_ s]) !! 0%nat = Some ne) /\
    (forall j a, cells !! j = Some a ->
       exists k p n, l !! j = Some k
         /\ (end_ s :: cells) !! j = Some p
         /\ (cells ++ [end_ s]) !! S j = Some n
         /\ nodes s !! a = Some (Node (Some k) p n)) /\
    (forall k a, map s !! k = Some a <->
       exists j, l !! j = Some k /\ cells !! j = Some a).

Lemma repr_empty : repr empty [].
Proof.
  exists []. simpl. split; [done|]. split; [constructor|].
  split; [apply NoDup_singleton|].
  split; [exists 0%nat, 0%nat; done|].
  split; [intros j a Hj; done|].
  intros k a. rewrite lookup_empty. split; [done|].
  intros [j [Hj _]]. done.
Qed.

Lemma repr_map_None s l k : repr s l -> (map s !! k = None <-> k ∉ l).
Proof.
  intros (cells & Hlen & _ & _ & _ & _ & Hmap). split.
  - intros Hn Hin. apply list_elem_of_lookup in Hin as [j Hj].
    destruct (lookup_lt_is_Some_2 cells j) as [a Ha].
    { rewrite Hlen. eapply lookup_lt_Some; eauto. }
    assert (map s !! k = Some a) as Hs by (apply Hmap; eauto).
    congruence.
  - intros Hnin. destruct (map s !! k) as [a|] eqn:E; [|done].
    apply Hmap in E as (j & Hj & _). exfalso. apply Hnin.
    apply list_elem_of_lookup. eauto.
Qed.

Lemma lookup_set_prev a v h b :
  set_prev a v h !! b =
  if decide (a = b) then (fun c => Node (key c) v (next_ c)) <$> h !! b
  else h !! b.
Proof.
  unfold set_prev. rewrite list_lookup_alter.
  repeat case_decide; by subst.
Qed.

Lemma lookup_set_next a v h b :
  set_next a v h !! b =
  if decide (a = b) then (fun c => Node (key c) (prev c) v) <$> h !! b
  else h !! b.
Proof.
  unfold set_next. rewrite list_lookup_alter.
  repeat case_decide; by subst.
Qed.

Lemma repr_add_new s l k : repr s l -> k ∉ l -> repr (add k s) (l ++ [k]).
Proof.
  intros Hr Hk. pose proof (proj2 (repr_map_None s l k Hr) Hk) as Hnone.
  destruct Hr as (cells & Hlen & Hndl & Hndc & (pe & ne & Hend & Hpe & Hne) & Hcells & Hmap).
  unfold add. rewrite Hnone. 
  set (e := end_ s) in *. set (h := nodes s) in *. set (n := length h).
  assert (Hprev : prev_of h e = pe) by (unfold prev_of; rewrite Hend; done).
  rewrite Hprev.
  assert (He : (e < n)%nat) by (eapply lookup_lt_Some; eauto).
  assert (Hlt : forall a, a ∈ cells -> (a < n)%nat).
  { intros a Ha. apply list_elem_of_lookup in Ha as [j Hj].
    destruct (Hcells j a Hj) as (k' & p & nx & _ & _ & _ & Hn).
    eapply lookup_lt_Some; eauto. }
  assert (Hpein : pe ∈ e :: cells) by (eapply list_elem_of_lookup_2; eauto).
  assert (Hpelt : (pe < n)%nat).
  { apply elem_of_cons in Hpein as [->|?]; auto. }
  apply NoDup_cons in Hndc as [Henc Hndc].
  set (h3 := set_prev e n (set_next pe n (h ++ [Node (Some k) pe e]))).
  assert (Hnew : h3 !! n = Some (Node (Some k) pe e)).
  { unfold h3. rewrite lookup_set_prev, lookup_set_next.
    repeat case_decide; try lia. apply list_lookup_middle. done. }
  assert (Hold : forall b, b <> e -> b <> pe -> (b < n)%nat -> h3 !! b = h !! b).
  { intros b ? ? ?. unfold h3. rewrite lookup_set_prev, lookup_set_next.
    repeat case_decide; try congruence. apply lookup_app_l. done. }
  exists (cells ++ [n]). simpl.
  split; [rewrite !length_app; simpl; lia|].
  split.
  { apply NoDup_app. split; [done|]. split; [|apply NoDup_singleton].
    intros x Hx Hx'. apply list_elem_of_singleton in Hx'. by subst. }
  split.
  { apply NoDup_cons. split.
    - rewrite elem_of_app, list_elem_of_singleton. intros [?|?]; [done|lia].
    - apply NoDup_app. split; [done|]. split; [|apply NoDup_singleton].
      intros x Hx Hx'. apply list_elem_of_singleton in Hx'. subst.
      apply Hlt in Hx. lia. }
  split.
  { destruct cells as [|c0 cells'] eqn:Ecells.
    - simpl in *. exists n, n. inversion Hpe; subst pe.
      split; [|done]. unfold h3. rewrite lookup_set_prev, lookup_set_next.
      repeat case_decide; try congruence.
      rewrite lookup_app_l by done. rewrite Hend. done.
    - exists n, ne. split; [|split].
      + assert (pe <> e).
        { intros ->. apply Henc. apply list_elem_of_lookup.
          exists (length cells'). simpl in Hpe. done. }
        unfold h3. rewrite lookup_set_prev, lookup_set_next.
        repeat case_decide; try congruence.
        rewrite lookup_app_l by done. rewrite Hend. done.
      + rewrite length_app. simpl.
        replace (length cells' + 1)%nat with (S (length cells')) by lia.
        simpl. apply list_lookup_middle. done.
      + simpl in *. done. }
  split.
  { intros j a Hj.
    destruct (decide (j < length cells)%nat) as [Hjlt|Hjge].
    - rewrite lookup_app_l in Hj by done.
      destruct (Hcells j a Hj) as (k' & p & nx & Hlk & Hp & Hnx & Hn).
      assert (a <> e) by (intros ->; apply Henc; eapply list_elem_of_lookup_2; eauto).
      assert (a < n)%nat by (apply Hlt; eapply list_elem_of_lookup_2; eauto).
      destruct (decide (S j = length cells)) as [Hlast|Hnl].
      + (* the old last cell: its next becomes the new cell *)
        assert (a = pe).
        { rewrite <- Hlast in Hpe. simpl in Hpe. congruence. }
        subst a. exists k', p, n. split; [by apply lookup_app_l_Some|].
        split; [rewrite app_comm_cons; by apply lookup_app_l_Some|].
        split.
        { rewrite <- app_assoc. rewrite Hlast. by apply list_lookup_middle. }
        unfold h3. rewrite lookup_set_prev, lookup_set_next.
        repeat case_decide; try congruence.
        rewrite lookup_app_l by done. rewrite Hn. done.
      + assert (a <> pe).
        { intros ->. 
          assert (Hpe' : cells !! (length cells - 1)%nat = Some pe).
          { destruct (length cells) eqn:El; [lia|]. simpl in Hpe.
            replace (S n0 - 1)%nat with n0 by lia. done. }
          pose proof (NoDup_lookup _ _ _ _ Hndc Hj Hpe'). lia. }
        exists k', p, nx. split; [by apply lookup_app_l_Some|].
        split; [rewrite app_comm_cons; by apply lookup_app_l_Some|].
        split.
        { rewrite <- app_assoc. rewrite lookup_app_l by lia.
          rewrite lookup_app_l in Hnx by lia. done. }
        rewrite Hold by done. done.
    - assert (j = length cells).
      { apply lookup_lt_Some in Hj. rewrite length_app in Hj. simpl in Hj. lia. }
      subst j. rewrite list_lookup_middle in Hj by done. inversion Hj; subst a.
      exists k, pe, e. split; [apply list_lookup_middle; lia|].
      split; [rewrite app_comm_cons; by apply lookup_app_l_Some|].
      split; [|done].
      replace (S (length cells)) with (length (cells ++ [n])) by (rewrite length_app; simpl; lia).
      by apply list_lookup_middle. }
  intros k0 a. rewrite lookup_insert. case_decide as Ek.
  - subst k0. split.
    + intros [= <-]. exists (length cells). split.
      * apply list_lookup_middle. lia.
      * by apply list_lookup_middle.
    + intros (j & Hj1 & Hj2).
      destruct (decide (j < length l)%nat).
      * rewrite lookup_app_l in Hj1 by done. exfalso. apply Hk.
        eapply list_elem_of_lookup_2; eauto.
      * apply lookup_lt_Some in Hj1 as Hj1'. rewrite length_app in Hj1'. simpl in Hj1'.
        assert (j = length cells) by lia. subst j.
        rewrite list_lookup_middle in Hj2 by done. done.
  - rewrite Hmap. split.
    + intros (j & Hj1 & Hj2). exists j. split; by apply lookup_app_l_Some.
    + intros (j & Hj1 & Hj2). exists j.
      destruct (decide (j < length l)%nat).
      * rewrite lookup_app_l in Hj1 by done.
        rewrite lookup_app_l in Hj2 by lia. done.
      * apply lookup_lt_Some in Hj1 as Hj1'. rewrite length_app in Hj1'. simpl in Hj1'.
        assert (j = length l) by lia. subst j.
        rewrite list_lookup_middle in Hj1 by done. congruence.
Qed.

Lemma repr_add_old s l k : repr s l -> k ∈ l -> add k s = s.
Proof.
  intros Hr Hk. unfold add.
  destruct (map s !! k) eqn:E; [done|].
  apply (repr_map_None s l k Hr) in E. done.
Qed.

(** Adding to an ordered set appends the key unless it is already there. *)
Lemma repr_add s l k :
  repr s l -> repr (add k s) (if decide (k ∈ l) then l else l ++ [k]).
Proof.
  intros Hr. case_decide.
  - by erewrite repr_add_old.
  - by apply repr_add_new.
Qed.

Lemma walk_next_cells (h : list node) (e : nat) (cells : list nat) (l : list K) :
  e ∉ cells ->
  (forall j a, cells !! j = Some a ->
     exists k p n, l !! j = Some k /\ (e :: cells) !! j = Some p
       /\ (cells ++ [e]) !! S j = Some n
       /\ h !! a = Some (Node (Some k) p n)) ->
  length cells = length l ->
  forall fuel j a, (length cells - j <= fuel)%nat ->
    (cells ++ [e]) !! j = Some a ->
    walk next_ h e fuel a = Some (drop j l).
Proof.
  intros Hne Hcells Hlen. induction fuel as [|fuel IH]; intros j a Hf Hj.
  - assert (j = length cells).
    { apply lookup_lt_Some in Hj. rewrite length_app in Hj. simpl in Hj. lia. }
    subst j. rewrite list_lookup_middle in Hj by done. inversion Hj; subst a.
    simpl. rewrite Nat.eqb_refl. rewrite Hlen, drop_all. done.
  - destruct (decide (j < length cells)%nat) as [Hlt|Hge].
    + rewrite lookup_app_l in Hj by done.
      destruct (Hcells j a Hj) as (k & p & n & Hk & _ & Hn & Ha).
      assert (a <> e) by (intros ->; apply Hne; eapply list_elem_of_lookup_2; eauto).
      simpl. destruct (Nat.eqb_spec a e) as [|_]; [done|].
      rewrite Ha. simpl. rewrite (IH (S j) n) by (done || lia).
      simpl. by rewrite (drop_S _ _ _ Hk).
    + assert (j = length cells).
      { apply lookup_lt_Some in Hj. rewrite length_app in Hj. simpl in Hj. lia. }
      subst j. rewrite list_lookup_middle in Hj by done. inversion Hj; subst a.
      simpl. rewrite Nat.eqb_refl. rewrite Hlen, drop_all. done.
Qed.

Lemma walk_prev_cells (h : list node) (e : nat) (cells : list nat) (l : list K) :
  e ∉ cells ->
  (forall j a, cells !! j = Some a ->
     exists k p n, l !! j = Some k /\ (e :: cells) !! j = Some p
       /\ (cells ++ [e]) !! S j = Some n
       /\ h !! a = Some (Node (Some k) p n)) ->
  forall fuel j a, (j <= fuel)%nat ->
    (e :: cells) !! j = Some a ->
    walk prev h e fuel a = Some (rev (take j l)).
Proof.
  intros Hne Hcells. induction fuel as [|fuel IH]; intros j a Hf Hj.
  - assert (j = 0%nat) by lia. subst j. simpl in Hj. inversion Hj; subst a.
    simpl. rewrite Nat.eqb_refl. done.
  - destruct j as [|j].
    + simpl in Hj. inversion Hj; subst a. simpl. rewrite Nat.eqb_refl. done.
    + simpl in Hj.
      destruct (Hcells j a Hj) as (k & p & n & Hk & Hp & _ & Ha).
      assert (a <> e) by (intros ->; apply Hne; eapply list_elem_of_lookup_2; eauto).
      simpl walk. destruct (Nat.eqb_spec a e) as [|_]; [done|].
      rewrite Ha. simpl. rewrite (IH j p) by (done || lia).
      simpl. rewrite (take_S_r _ _ _ Hk), rev_unit. done.
Qed.

Lemma NoDup_bounded_length (xs : list nat) (n : nat) :
  NoDup xs -> (forall x, x ∈ xs -> (x < n)%nat) -> (length xs <= n)%nat.
Proof.
  intros Hnd Hlt.
  assert (Hsub : xs ⊆+ seq 0 n).
  { apply NoDup_submseteq; [done|].
    intros x Hx. apply elem_of_seq. specialize (Hlt x Hx). lia. }
  apply submseteq_length in Hsub. by rewrite length_seq in Hsub.
Qed.

Lemma repr_cells_bound (s : t) (l : list K) (cells : list nat) :
  NoDup (end_ s :: cells) ->
  is_Some (nodes s !! end_ s) ->
  (forall j a, cells !! j = Some a ->
     exists k p n, l !! j = Some k /\ (end_ s :: cells) !! j = Some p
       /\ (cells ++ [end_ s]) !! S j = Some n
       /\ nodes s !! a = Some (Node (Some k) p n)) ->
  (S (length cells) <= length (nodes s))%nat.
Proof.
  intros Hnd He Hcells.
  apply (NoDup_bounded_length (end_ s :: cells)); [done|].
  intros x Hx. apply elem_of_cons in Hx as [->|Hx].
  - by apply lookup_lt_is_Some.
  - apply list_elem_of_lookup in Hx as [j Hj].
    destruct (Hcells j x Hj) as (? & ? & ? & _ & _ & _ & Hn).
    eapply lookup_lt_Some; eauto.
Qed.

(** Forward iteration of a well-formed set terminates and yields its keys in
    insertion order. *)
Lemma repr_iter s l : repr s l -> iter s = Some l.
Proof.
  intros (cells & Hlen & Hndl & Hndc & (pe & ne & Hend & Hpe & Hne) & Hcells & Hmap).
  pose proof (repr_cells_bound s l cells Hndc (mk_is_Some _ _ Hend) Hcells) as Hb.
  apply NoDup_cons in Hndc as [Henc Hndc].
  unfold iter, next_of. rewrite Hend. simpl.
  rewrite (walk_next_cells (nodes s) (end_ s) cells l Henc Hcells Hlen _ 0%nat ne);
    [done|lia|done].
Qed.

(** Reverse iteration yields them in the opposite order. *)
Lemma repr_reversed s l : repr s l -> reversed s = Some (rev l).
Proof.
  intros (cells & Hlen & Hndl & Hndc & (pe & ne & Hend & Hpe & Hne) & Hcells & Hmap).
  pose proof (repr_cells_bound s l cells Hndc (mk_is_Some _ _ Hend) Hcells) as Hb.
  apply NoDup_cons in Hndc as [Henc Hndc].
  unfold reversed, prev_of. rewrite Hend. simpl.
  rewrite (walk_prev_cells (nodes s) (end_ s) cells l Henc Hcells _ (length cells) pe);
    [|lia|done].
  rewrite Hlen, firstn_all. done.
Qed.

(** The list an ordered set stands for after [add] and after [|=]. *)
Definition add_list (l : list K) (k : K) : list K :=
  if decide (k ∈ l) then l else l ++ [k].

Definition ior_list (l : list K) (it : list K) : list K :=
  fold_left add_list it l.

Lemma repr_ior s l it : repr s l -> repr (ior s it) (ior_list l it).
Proof.
  revert s l. induction it as [|k it IH]; intros s l Hr; simpl; [done|].
  apply IH. unfold add_list. by apply repr_add.
Qed.

Lemma repr_of_list it : repr (of_list it) (ior_list [] it).
Proof. apply repr_ior, repr_empty. Qed.

Lemma add_list_NoDup l k : NoDup l -> NoDup (add_list l k).
Proof.
  intros Hnd. unfold add_list. case_decide; [done|].
  apply NoDup_app. split; [done|]. split; [|apply NoDup_singleton].
  intros x Hx Hx'. apply list_elem_of_singleton in Hx'. by subst.
Qed.

Lemma ior_list_NoDup l it : NoDup l -> NoDup (ior_list l it).
Proof.
  revert l. induction it as [|k it IH]; intros l Hnd; simpl; [done|].
  apply IH. by apply add_list_NoDup.
Qed.

(** Adding the keys of a duplicate-free list to the empty set keeps them
    all, in order. *)
Lemma ior_list_app_NoDup l it :
  NoDup (l ++ it) -> ior_list l it = l ++ it.
Proof.
  revert l. induction it as [|k it IH]; intros l Hnd.
  - simpl. by rewrite app_nil_r.
  - change (ior_list l (k :: it)) with (ior_list (add_list l k) it).
    assert (add_list l k = l ++ [k]) as ->.
    { unfold add_list. case_decide as Hin; [|done].
      apply NoDup_app in Hnd as (_ & Hdis & _). exfalso.
      apply (Hdis k Hin). by left. }
    rewrite IH; rewrite <- app_assoc; done.
Qed.

Lemma ior_list_nil_NoDup it : NoDup it -> ior_list [] it = it.
Proof. intros Hnd. by rewrite ior_list_app_NoDup. Qed.

Lemma repr_map_eq (s : t) (l : list K) (cells : list nat) :
  length cells = length l -> NoDup l ->
  (forall k a, map s !! k = Some a <->
     exists j, l !! j = Some k /\ cells !! j = Some a) ->
  map s = list_to_map (zip l cells).
Proof.
  intros Hlen Hnd Hmap. apply map_eq. intros k. apply option_eq. intros a.
  rewrite Hmap. rewrite <- elem_of_list_to_map.
  - rewrite list_elem_of_lookup. split.
    + intros (j & Hj1 & Hj2). exists j. rewrite lookup_zip_with.
      rewrite Hj1. simpl. rewrite Hj2. done.
    + intros (j & Hj). exists j. rewrite lookup_zip_with in Hj.
      destruct (l !! j) eqn:E1; simpl in Hj; [|done].
      destruct (cells !! j) eqn:E2; simpl in Hj; [|done].
      by inversion Hj; subst.
  - rewrite fst_zip by lia. done.
Qed.

(** [len] counts the keys. *)
Lemma repr_len s l : repr s l -> len s = length l.
Proof.
  intros (cells & Hlen & Hndl & _ & _ & _ & Hmap).
  unfold len. rewrite (repr_map_eq s l cells Hlen Hndl Hmap).
  rewrite map_size_list_to_map.
  - rewrite length_zip_with. lia.
  - rewrite fst_zip by lia. done.
Qed.

Lemma discard_absent s k :
  map s !! k = None -> discard k s = (s, Ok tt).
Proof. intros E. unfold discard. by rewrite E. Qed.

(** Whenever the key is in [map], [discard] ends in the [TypeError]. *)
Lemma discard_present s k :
  is_Some (map s !! k) -> snd (discard k s) = Raise TypeError.
Proof. intros [a E]. unfold discard. by rewrite E. Qed.

Lemma repr_last_key s l k l' b :
  repr s l -> l = (if b : bool then l' ++ [k] else k :: l') ->
  h_key (nodes s)
    (if b then prev_of (nodes s) (end_ s) else next_of (nodes s) (end_ s))
  = Some k.
Proof.
  intros (cells & Hlen & Hndl & Hndc & (pe & ne & Hend & Hpe & Hne) & Hcells & Hmap) ->.
  unfold prev_of, next_of, h_key. rewrite Hend. simpl.
  destruct b.
  - rewrite length_app in Hlen. simpl in Hlen.
    destruct (length cells) as [|m] eqn:Em; [lia|]. simpl in Hpe.
    destruct (Hcells m pe Hpe) as (k' & p & n & Hk & _ & _ & Hn).
    rewrite Hn. simpl.
    rewrite list_lookup_middle in Hk by lia. done.
  - destruct cells as [|c cells]; [done|]. simpl in Hne. inversion Hne; subst ne.
    destruct (Hcells 0%nat c eq_refl) as (k' & p & n & Hk & _ & _ & Hn).
    rewrite Hn. simpl. simpl in Hk. done.
Qed.

(** On every non-empty well-formed set [pop] ends in the [TypeError] of
    [discard], whichever end is asked for. *)
Lemma pop_nonempty s l b :
  repr s l -> l <> [] -> snd (pop b s) = Raise TypeError.
Proof.
  intros Hr Hne. unfold pop. rewrite (repr_len s l Hr).
  destruct (Nat.eqb_spec (length l) 0) as [E|_].
  { destruct l; [done|simpl in E; lia]. }
  assert (exists k l', l = if b then l' ++ [k] else k :: l') as (k & l' & El).
  { destruct b.
    - destruct l as [|k0 l0] using rev_ind; [done|eauto].
    - destruct l as [|k l']; [done|eauto]. }
  rewrite (repr_last_key s l k l' b Hr El).
  assert (is_Some (map s !! k)) as [a Ha].
  { destruct (map s !! k) eqn:E; [eauto|].
    apply (repr_map_None s l k Hr) in E. exfalso. apply E. subst l.
    destruct b; [apply elem_of_app; right|]; by left. }
  unfold discard. rewrite Ha. done.
Qed.

(** On the empty set it is the [KeyError]. *)
Lemma pop_empty s b :
  len s = 0%nat -> pop b s = (s, Raise (KeyError "set is empty")).
Proof. intros E. unfold pop. by rewrite E. Qed.

End WithKey.

End OrderedSet.

(** ** Values

    The Python values an attribute can hold in this embedding: [None],
    booleans, integers, finite floats (a dyadic rational [m * 2^e], which
    is what a finite binary64 is), strings, [uuid.UUID]s (by their integer)
    and references to instances (by address). *)

Inductive value : Type :=
| VNone
| VBool (b : bool)
| VInt (z : Z)
| VReal (m e : Z)
| VStr (s : string)
| VUuid (u : Z)
| VInst (i : nat).

(** Python's [==] on these values.  [bool], [int] and [float] compare by
    their numeric value ([True == 1 == 1.0]); instances have no [__eq__]
    and compare by identity. *)
Definition dyadic_eqb (m1 e1 m2 e2 : Z) : bool :=
  let e := Z.min e1 e2 in
  Z.eqb (m1 * 2 ^ (e1 - e)) (m2 * 2 ^ (e2 - e)).

Definition numeric (v : value) : option (Z * Z) :=
  match v with
  | VBool b => Some (if b then 1%Z else 0%Z, 0%Z)
  | VInt z => Some (z, 0%Z)
  | VReal m e => Some (m, e)
  | _ => None
  end.

Definition py_eq (a b : value) : bool :=
  match numeric a, numeric b with
  | Some (m1, e1), Some (m2, e2) => dyadic_eqb m1 e1 m2 e2
  | None, None =>
      match a, b with
      | VNone, VNone => true
      | VStr s, VStr t => String.eqb s t
      | VUuid u, VUuid w => Z.eqb u w
      | VInst i, VInst j => Nat.eqb i j
      | _, _ => false
      end
  | _, _ => false
  end.

(** [str.lower] is Python's own function: it follows the Unicode case
    tables, which are no part of this module.  [lower] stands for that
    function, whatever it is; [__getattr__] and [__setattr__] compare names
    by it, and every general result below holds for any function from
    strings to strings in its place. *)
Class StrLower : Type := lower : string -> string.

(** On a string of ASCII characters [str.lower] turns [A]..[Z] into
    [a]..[z] and leaves every other character.  The closed examples, all
    of whose names are ASCII, are evaluated with this function for
    [lower]; it is not meant for other strings. *)
Definition ascii_lower_char (c : ascii) : ascii :=
  let n := nat_of_ascii c in
  if Nat.leb 65 n && Nat.leb n 90 then ascii_of_nat (n + 32) else c.

Fixpoint ascii_lower_string (s : string) : string :=
  match s with
  | EmptyString => EmptyString
  | String c s' => String (ascii_lower_char c) (ascii_lower_string s')
  end.

Definition ascii_lower : StrLower := ascii_lower_string.

(** [str.upper], which the module applies to cardinalities only, to ask
    whether the result is [M] or [MC] or holds a [C]: the letters [a]..[z]
    become [A]..[Z], and no character outside ASCII has an upper-case form
    with an [M] or a [C] in it. *)
Definition upper_ascii (c : ascii) : ascii :=
  let n := nat_of_ascii c in
  if Nat.leb 97 n && Nat.leb n 122 then ascii_of_nat (n - 32) else c.

Fixpoint upper (s : string) : string :=
  match s with
  | EmptyString => EmptyString
  | String c s' => String (upper_ascii c) (upper s')
  end.

(** ['C' in s]. *)
Fixpoint contains_char (c : ascii) (s : string) : bool :=
  match s with
  | EmptyString => false
  | String d s' => Ascii.eqb c d || contains_char c s'
  end.

Fixpoint ends_with_uu (s : string) : bool :=
  match s with
  | EmptyString => false
  | String "_" (String "_" EmptyString) => true
  | String _ s' => ends_with_uu s'
  end.

(** Names of the form [__x__].  Python resolves such a name on the type
    before it looks at the instance; the type of an instance holds no
    other names. *)
Definition is_dunder (s : string) : bool :=
  String.prefix "__" s && ends_with_uu s.

(** ** Python dicts whose order matters *)

Definition pydict : Type := list (string * value).

Fixpoint dict_get (d : pydict) (k : string) : option value :=
  match d with
  | [] => None
  | (k', v) :: d' => if String.eqb k' k then Some v else dict_get d' k
  end.

(** [d[k] = v]: an existing key keeps its place, a new key goes last. *)
Fixpoint dict_set (d : pydict) (k : string) (v : value) : pydict :=
  match d with
  | [] => [(k, v)]
  | (k', v') :: d' =>
      if String.eqb k' k then (k', v) :: d' else (k', v') :: dict_set d' k v
  end.

(** [d.update(other)] and [dict(pairs)]. *)
Definition dict_update (d : pydict) (other : list (string * value)) : pydict :=
  fold_left (fun acc kv => dict_set acc (fst kv) (snd kv)) other d.

Definition dict_of (pairs : list (string * value)) : pydict :=
  dict_update [] pairs.

Definition dict_keys (d : pydict) : list string := List.map fst d.

Definition dict_values (d : pydict) : list value := List.map snd d.

(** ** QuerySet

    A [QuerySet] is an [OrderedSet] of instances that is only ever added
    to; by [OrderedSet.repr_ior] it stands for the duplicate-free list of
    its elements, which is what the registry and the navigation chain are
    told about. *)

Definition QuerySet : Type := list nat.

Definition QuerySet_of (it : list nat) : QuerySet :=
  OrderedSet.ior_list [] it.

(** [a |= b]. *)
Definition QuerySet_ior (a : QuerySet) (b : list nat) : QuerySet :=
  OrderedSet.ior_list a b.

(** ** AssociationLink *)

Module AssociationLink.

Record t : Type := Make {
  kind : string;
  cardinality : string;
  ids : list string;
  phrase : string
}.

Definition is_many (l : t) : bool :=
  let c := upper (cardinality l) in
  String.eqb c "M" || String.eqb c "MC".

Definition is_conditional (l : t) : bool :=
  contains_char "C" (upper (cardinality l)).

End AssociationLink.

Definition SingleAssociationLink (kind : string) (conditional : bool)
  (ids : list string) (phrase : string) : AssociationLink.t :=
  AssociationLink.Make kind (if conditional then "1C" else "1") ids phrase.

Definition ManyAssociationLink (kind : string) (conditional : bool)
  (ids : list string) (phrase : string) : AssociationLink.t :=
  AssociationLink.Make kind (if conditional then "MC" else "M") ids phrase.

(** ** Instances and class objects *)

(** An instance of a class made by [define_class]: its class object and
    its [__dict__]. *)
Record Instance : Type := MkInstance {
  cls : nat;
  dict_ : pydict
}.

(** A join key, [frozenset(kwargs.items())].  Two keys are equal as
    frozensets when they have the same size and every pair of one is in the
    other. *)
Definition joinkey : Type := list (string * value).

Definition pair_in (kv : string * value) (k : joinkey) : bool :=
  existsb (fun kv' => String.eqb (fst kv) (fst kv') && py_eq (snd kv) (snd kv')) k.

Definition joinkey_eqb (k1 k2 : joinkey) : bool :=
  Nat.eqb (length k1) (length k2) && forallb (fun kv => pair_in kv k2) k1.

(** The class-level dict [__c__]: join key --> cached [QuerySet]. *)
Definition cache : Type := list (joinkey * QuerySet).

Fixpoint cache_get (c : cache) (k : joinkey) : option QuerySet :=
  match c with
  | [] => None
  | (k', r) :: c' => if joinkey_eqb k' k then Some r else cache_get c' k
  end.

(** The class object: [__q__], indexed by peer class, relationship id and
    phrase and holding the two links a query function was closed over, and
    [__c__]. *)
Record Class : Type := MkClass {
  __q__ : gmap string (gmap string (gmap string (AssociationLink.t * AssociationLink.t)));
  __c__ : cache
}.

(** ** IdGenerator

    [readfunc] is a stateful producer; [readfunc n] is what its [n]-th call
    returns. *)
Module IdGenerator.

Record t : Type := Make {
  readfunc : nat -> value;
  calls : nat;
  _current : value
}.

Definition init (readfunc : nat -> value) : t :=
  {| readfunc := readfunc; calls := 1; _current := readfunc 0%nat |}.

Definition peek (g : t) : value := _current g.

Definition next (g : t) : t * value :=
  ({| readfunc := readfunc g; calls := S (calls g);
      _current := readfunc g (calls g) |},
   _current g).

End IdGenerator.

(** ** Python types, as far as [isinstance] needs them *)

Inductive pytype : Type :=
| TNoneType | TBool | TInt | TFloat | TStr | TUuid
| TBaseObject | TQuerySet
| TCls (c : nat).          (* a class made by [define_class] *)

Definition pytype_eqb (a b : pytype) : bool :=
  match a, b with
  | TNoneType, TNoneType | TBool, TBool | TInt, TInt | TFloat, TFloat
  | TStr, TStr | TUuid, TUuid | TBaseObject, TBaseObject
  | TQuerySet, TQuerySet => true
  | TCls c1, TCls c2 => Nat.eqb c1 c2
  | _, _ => false
  end.

(** [bool] is a subclass of [int]; every defined class is a subclass of
    [BaseObject]. *)
Definition issubclass (a b : pytype) : bool :=
  pytype_eqb a b ||
  match a, b with
  | TBool, TInt => true
  | TCls _, TBaseObject => true
  | _, _ => false
  end.

Definition type_of (objs : list Instance) (v : value) : pytype :=
  match v with
  | VNone => TNoneType
  | VBool _ => TBool
  | VInt _ => TInt
  | VReal _ _ => TFloat
  | VStr _ => TStr
  | VUuid _ => TUuid
  | VInst i => from_option (fun o => TCls (cls o)) TBaseObject (objs !! i)
  end.

Definition isinstance (objs : list Instance) (v : value) (T : pytype) : bool :=
  issubclass (type_of objs v) T.

(** ** MetaModel: the registry state *)

Record MetaModel : Type := MkMetaModel {
  classes : gmap string nat;             (* kind --> class object *)
  class_heap : list Class;               (* the class objects *)
  instances : gmap string (list nat);    (* kind --> instances, in creation order *)
  objs : list Instance;                  (* the instance objects *)
  param_names : gmap string (list string);
  param_types : gmap string (list string);
  id_generator : IdGenerator.t;
  ignore_undefined_classes : bool
}.

Definition with_class_heap (mm : MetaModel) (h : list Class) : MetaModel :=
  MkMetaModel (classes mm) h (instances mm) (objs mm) (param_names mm)
    (param_types mm) (id_generator mm) (ignore_undefined_classes mm).

Definition with_objs (mm : MetaModel) (o : list Instance) : MetaModel :=
  MkMetaModel (classes mm) (class_heap mm) (instances mm) o (param_names mm)
    (param_types mm) (id_generator mm) (ignore_undefined_classes mm).

Definition with_instances (mm : MetaModel) (t : gmap string (list nat)) : MetaModel :=
  MkMetaModel (classes mm) (class_heap mm) t (objs mm) (param_names mm)
    (param_types mm) (id_generator mm) (ignore_undefined_classes mm).

Definition with_id_generator (mm : MetaModel) (g : IdGenerator.t) : MetaModel :=
  MkMetaModel (classes mm) (class_heap mm) (instances mm) (objs mm)
    (param_names mm) (param_types mm) g (ignore_undefined_classes mm).

(** [MetaModel(id_generator)]. *)
Definition MetaModel_init (g : IdGenerator.t) : MetaModel :=
  MkMetaModel ∅ [] ∅ [] ∅ ∅ g false.

(** The cache of a class object, and of the class a name is bound to. *)
Definition cache_of (mm : MetaModel) (cid : nat) : cache :=
  from_option __c__ [] (class_heap mm !! cid).

Definition cache_of_kind (mm : MetaModel) (kind : string) : cache :=
  from_option (cache_of mm) [] (classes mm !! kind).

(** ** BaseObject *)

Module BaseObject.

Section WithLower.

Context {str_lower : StrLower}.

(** [__getattr__], called when the ordinary lookup has failed: the first
    key of [__dict__] that equals [name] up to case; the final
    [object.__getattribute__(self, name)] fails once more. *)
Definition __getattr__ (d : pydict) (name : string) : outcome value :=
  match find (fun kv => String.eqb (lower (fst kv)) (lower name)) d with
  | Some (_, v) => Ok v
  | None => Raise AttributeError
  end.

(** [getattr(inst, name)] for a name that is not of the form [__x__]:
    the type has no such name, so the exact key of [__dict__] is tried and
    then [__getattr__].  Reads of [__x__] names are answered from the type
    with objects that are not attribute values; they are left out
    ([OutsideModel]). *)
Definition getattr_dict (d : pydict) (name : string) : outcome value :=
  if is_dunder name then Raise OutsideModel
  else
    match dict_get d name with
    | Some v => Ok v
    | None => __getattr__ d name
    end.

Definition getattr (objs : list Instance) (i : nat) (name : string) : outcome value :=
  match objs !! i with
  | Some o => getattr_dict (dict_ o) name
  | None => Raise OutsideModel
  end.

(** [cache.clear()] on the class object [cid]. *)
Definition clear_cache (mm : MetaModel) (cid : nat) : MetaModel :=
  with_class_heap mm (alter (fun k => MkClass (__q__ k) []) cid (class_heap mm)).

(** [self.__c__.clear()].  [__c__] is a plain class attribute, so a key
    ["__c__"] in the instance's own [__dict__] hides it; none of the values
    of the embedding has a callable [clear]. *)
Definition self_c_clear (mm : MetaModel) (i : nat) : MetaModel * outcome unit :=
  match objs mm !! i with
  | None => (mm, Raise OutsideModel)
  | Some o =>
      match dict_get (dict_ o) "__c__" with
      | None => (clear_cache mm (cls o), Ok tt)
      | Some (VInst j) =>
          (mm, match getattr (objs mm) j "clear" with
               | Ok _ => Raise TypeError
               | Raise e => Raise e
               end)
      | Some _ => (mm, Raise AttributeError)
      end
  end.

(** [Cls()]: a new instance with an empty [__dict__]; [__init__] clears the
    class cache. *)
Definition __init__ (mm : MetaModel) (cid : nat) : MetaModel * nat :=
  let i := length (objs mm) in
  let mm1 := with_objs mm (objs mm ++ [MkInstance cid []]) in
  (clear_cache mm1 cid, i).

(** The first key of [__dict__] whose lower-cased form is [lname]. *)
Definition find_key (lname : string) (d : pydict) : option string :=
  fst <$> find (fun kv => String.eqb (lower (fst kv)) lname) d.

(** [__setattr__]. *)
Definition __setattr__ (mm : MetaModel) (i : nat) (name : string) (v : value)
  : MetaModel * outcome unit :=
  match objs mm !! i with
  | None => (mm, Raise OutsideModel)
  | Some o =>
      match find_key (lower name) (dict_ o) with
      | Some attr =>
          let o' := MkInstance (cls o) (dict_set (dict_ o) attr v) in
          self_c_clear (with_objs mm (<[i := o']> (objs mm))) i
      | None => (mm, Ok tt)
      end
  end.

End WithLower.

End BaseObject.

(** ** MetaModel: the operations *)

Section Registry.

(** [construct T v] is what the call [T(v)] of a builtin constructor
    ([bool], [int], [float], [str], [uuid.UUID], ...) returns or raises on
    the value [v]; it is Python's, not this module's, and every result
    below holds for whatever it answers. *)
Variable construct : pytype -> value -> outcome value.

Context {str_lower : StrLower}.

(** [define_class]: a fresh class object with empty [__q__] and [__c__]
    is bound to [kind]; an earlier binding of the name is overwritten. *)
Definition define_class (mm : MetaModel) (kind : string)
  (attributes : list (string * string)) : MetaModel * nat :=
  let cid := length (class_heap mm) in
  (MkMetaModel (<[kind := cid]> (classes mm))
     (class_heap mm ++ [MkClass ∅ []])
     (instances mm) (objs mm)
     (<[kind := List.map fst attributes]> (param_names mm))
     (<[kind := List.map snd attributes]> (param_types mm))
     (id_generator mm) (ignore_undefined_classes mm),
   cid).

(** [default_value]. *)
Definition default_value (g : IdGenerator.t) (ty_name : string)
  : IdGenerator.t * outcome value :=
  if String.eqb ty_name "boolean" then (g, Ok (VBool false))
  else if String.eqb ty_name "integer" then (g, Ok (VInt 0))
  else if String.eqb ty_name "integer" then (g, Ok (VInt 0))
  else if String.eqb ty_name "real" then (g, Ok (VReal 0 0))
  else if String.eqb ty_name "string" then (g, Ok (VStr ""))
  else if String.eqb ty_name "unique_id" then
    let (g', v) := IdGenerator.next g in (g', Ok v)
  else (g, Raise (ModelException ("Unknown type named '" +:+ ty_name +:+ "'"))).

(** [named_type]: the lookup table. *)
Definition named_type (mm : MetaModel) (name : string) : outcome pytype :=
  if String.eqb name "boolean" then Ok TBool
  else if String.eqb name "integer" then Ok TInt
  else if String.eqb name "real" then Ok TFloat
  else if String.eqb name "string" then Ok TStr
  else if String.eqb name "inst_ref" then Ok TBaseObject
  else if String.eqb name "inst_ref_set" then Ok TQuerySet
  else if String.eqb name "unique_id" then
    Ok (type_of (objs mm) (IdGenerator.peek (id_generator mm)))
  else Raise (ModelException ("Unknown type named '" +:+ name +:+ "'")).

(** [inst.__dict__[key] = v]. *)
Definition set_slot (mm : MetaModel) (i : nat) (key : string) (v : value)
  : MetaModel :=
  with_objs mm
    (alter (fun o => MkInstance (cls o) (dict_set (dict_ o) key v)) i (objs mm)).

(** The first loop of [new]: every parameter gets its default. *)
Fixpoint set_defaults (mm : MetaModel) (i : nat) (attrs : list (string * string))
  : MetaModel * outcome unit :=
  match attrs with
  | [] => (mm, Ok tt)
  | (key, ty) :: rest =>
      match default_value (id_generator mm) ty with
      | (g, Ok v) => set_defaults (set_slot (with_id_generator mm g) i key v) i rest
      | (g, Raise e) => (with_id_generator mm g, Raise e)
      end
  end.

(** One round of the second loop:
    [Type = self.named_type(ty)] and, unless [isinstance(value, Type)],
    [value = Type(value)]. *)
Definition coerce (mm : MetaModel) (ty : string) (v : value) : outcome value :=
  match named_type mm ty with
  | Raise e => Raise e
  | Ok T => if isinstance (objs mm) v T then Ok v else construct T v
  end.

(** The second loop, over [zip(names, types, args)]. *)
Fixpoint set_positional (mm : MetaModel) (i : nat)
  (attrs : list (string * string)) (args : list value)
  : MetaModel * outcome unit :=
  match attrs, args with
  | (name, ty) :: attrs', v :: args' =>
      match coerce mm ty v with
      | Raise e => (mm, Raise e)
      | Ok v' => set_positional (set_slot mm i name v') i attrs' args'
      end
  | _, _ => (mm, Ok tt)
  end.

(** [inst.__dict__.update(kwargs)]. *)
Definition update_slots (mm : MetaModel) (i : nat) (kwargs : pydict) : MetaModel :=
  with_objs mm
    (alter (fun o => MkInstance (cls o) (dict_update (dict_ o) kwargs)) i (objs mm)).

(** A keyword argument named like a positional parameter of the callee
    makes the call itself fail. *)
Definition clashes (params : list string) (kwargs : pydict) : bool :=
  existsb (fun k => existsb (String.eqb k) params) (dict_keys kwargs).

(** [new(kind, *args, **kwargs)]; the result is the new instance, or
    [None] for an unknown class that is ignored. *)
Definition new (mm : MetaModel) (kind : string) (args : list value)
  (kwargs : pydict) : MetaModel * outcome (option nat) :=
  if clashes ["self"; "kind"] kwargs then (mm, Raise TypeError)
  else
    match classes mm !! kind with
    | None =>
        if ignore_undefined_classes mm then (mm, Ok None)
        else (mm, Raise (ModelException ("Unknown class " +:+ kind)))
    | Some cid =>
        let (mm1, i) := BaseObject.__init__ mm cid in
        match param_names mm1 !! kind, param_types mm1 !! kind with
        | Some names, Some types =>
            match set_defaults mm1 i (zip names types) with
            | (mm2, Raise e) => (mm2, Raise e)
            | (mm2, Ok _) =>
                match set_positional mm2 i (zip names types) args with
                | (mm3, Raise e) => (mm3, Raise e)
                | (mm3, Ok _) =>
                    let mm4 := update_slots mm3 i kwargs in
                    let old := default [] (instances mm4 !! kind) in
                    (with_instances mm4 (<[kind := old ++ [i]]> (instances mm4)),
                     Ok (Some i))
                end
            end
        | _, _ => (mm1, Raise (KeyError kind))
        end
    end.

(** The inner loop of [_query]: does the instance match every pair? *)
Fixpoint matches (objs : list Instance) (i : nat) (kwargs : pydict)
  : outcome bool :=
  match kwargs with
  | [] => Ok true
  | (name, v) :: rest =>
      match BaseObject.getattr objs i name with
      | Raise e => Raise e
      | Ok x => if py_eq x v then matches objs i rest else Ok false
      end
  end.

(** The outer loop of [_query], run to exhaustion as [QuerySet(...)] does:
    the instances it yields, in table order, or the exception that ends
    the scan. *)
Fixpoint scan (objs : list Instance) (many : bool) (kwargs : pydict)
  (table : list nat) : outcome (list nat) :=
  match table with
  | [] => Ok []
  | i :: rest =>
      match matches objs i kwargs with
      | Raise e => Raise e
      | Ok true =>
          if many then
            match scan objs many kwargs rest with
            | Ok l => Ok (i :: l)
            | Raise e => Raise e
            end
          else Ok [i]
      | Ok false => scan objs many kwargs rest
      end
  end.

Definition _query (mm : MetaModel) (kind : string) (many : bool)
  (kwargs : pydict) : outcome (list nat) :=
  if clashes ["self"; "kind"; "many"] kwargs then Raise TypeError
  else
    match instances mm !! kind with
    | None => Raise (KeyError kind)
    | Some table => scan (objs mm) many kwargs table
    end.

(** [[getattr(inst, name) for name in names]]. *)
Fixpoint getattrs (objs : list Instance) (i : nat) (names : list string)
  : outcome (list value) :=
  match names with
  | [] => Ok []
  | name :: rest =>
      match BaseObject.getattr objs i name with
      | Raise e => Raise e
      | Ok v =>
          match getattrs objs i rest with
          | Raise e => Raise e
          | Ok vs => Ok (v :: vs)
          end
      end
  end.

(** The join key [_select_endpoint] builds. *)
Definition join_kwargs (target : AssociationLink.t) (vals : list value)
  (kwargs : pydict) : pydict :=
  dict_of (zip (AssociationLink.ids target ++ dict_keys kwargs)
               (vals ++ dict_values kwargs)).

(** [cache[cache_key] = r] for a key that is not in the cache. *)
Definition cache_store (mm : MetaModel) (cid : nat) (k : joinkey) (r : QuerySet)
  : MetaModel :=
  with_class_heap mm
    (alter (fun K => MkClass (__q__ K) (__c__ K ++ [(k, r)])) cid (class_heap mm)).

(** [_select_endpoint]. *)
Definition _select_endpoint (mm : MetaModel) (inst : nat)
  (source target : AssociationLink.t) (kwargs : pydict)
  : MetaModel * outcome QuerySet :=
  let tkind := AssociationLink.kind target in
  match instances mm !! tkind with
  | None => (mm, Ok (QuerySet_of []))
  | Some _ =>
      match getattrs (objs mm) inst (AssociationLink.ids source) with
      | Raise e => (mm, Raise e)
      | Ok vals =>
          let kw := join_kwargs target vals kwargs in
          match classes mm !! tkind with
          | None => (mm, Raise (KeyError tkind))
          | Some cid =>
              match cache_get (cache_of mm cid) kw with
              | Some r => (mm, Ok r)
              | None =>
                  match _query mm tkind (AssociationLink.is_many target) kw with
                  | Raise e => (mm, Raise e)
                  | Ok l =>
                      let r := QuerySet_of l in
                      (cache_store mm cid kw r, Ok r)
                  end
              end
          end
      end
  end.

(** [Cls.__q__[kind][rel_id][phrase] = ...], the inner dicts made on
    demand. *)
Definition q_set (mm : MetaModel) (cid : nat) (kind rel_id phrase : string)
  (links : AssociationLink.t * AssociationLink.t) : MetaModel :=
  with_class_heap mm
    (alter (fun K =>
       let by_rel := default ∅ (__q__ K !! kind) in
       let by_phrase := default ∅ (by_rel !! rel_id) in
       MkClass (<[kind := <[rel_id := <[phrase := links]> by_phrase]> by_rel]> (__q__ K))
               (__c__ K))
     cid (class_heap mm)).

(** [define_association]; [define_relation] is the same call. *)
Definition define_association (mm : MetaModel) (rel_id : string)
  (source target : AssociationLink.t) : MetaModel * outcome unit :=
  match classes mm !! AssociationLink.kind source with
  | None => (mm, Raise (KeyError (AssociationLink.kind source)))
  | Some Source =>
      match classes mm !! AssociationLink.kind target with
      | None => (mm, Raise (KeyError (AssociationLink.kind target)))
      | Some Target =>
          let mm1 := q_set mm Source (AssociationLink.kind target) rel_id
                       (AssociationLink.phrase target) (source, target) in
          let mm2 := q_set mm1 Target (AssociationLink.kind source) rel_id
                       (AssociationLink.phrase source) (target, source) in
          (mm2, Ok tt)
      end
  end.

Definition define_relation := define_association.

End Registry.

(** ** NavChain *)

Module NavChain.

Section Chain.

Context {str_lower : StrLower}.

Record t : Type := Make {
  handle : QuerySet;
  is_many : bool;
  _kind : option string
}.

(** What a chain can be started from; [HOther ty] is any other object,
    [ty] the text of its type. *)
Inductive start : Type :=
| HNone
| HInst (i : nat)
| HSet (qs : QuerySet)
| HOther (ty : string).

(** [NavChain(handle, is_many)]. *)
Definition init (h : start) (is_many : bool) : outcome t :=
  match h with
  | HNone => Ok (Make (QuerySet_of []) is_many None)
  | HInst i => Ok (Make (QuerySet_of [i]) is_many None)
  | HSet qs => Ok (Make qs is_many None)
  | HOther ty =>
      Raise (ModelException ("Unable to navigate instances of '" +:+ ty +:+ "'"))
  end.

(** A relationship id is given as an integer or as a string. *)
Definition relid_str (relid : Z + string) : string :=
  match relid with
  | inl n => "R" +:+ pretty n
  | inr s => s
  end.

(** [child.__q__[kind][relid][phrase]]: the two links of the query
    function found there.  A key ["__q__"] in the child's own [__dict__]
    hides the class attribute, and no value of the embedding can be
    subscripted with a class name. *)
Definition lookup_q (mm : MetaModel) (child : nat) (kind : option string)
  (relid phrase : string) : outcome (AssociationLink.t * AssociationLink.t) :=
  match objs mm !! child with
  | None => Raise OutsideModel
  | Some o =>
      match dict_get (dict_ o) "__q__" with
      | Some _ => Raise TypeError
      | None =>
          match class_heap mm !! cls o with
          | None => Raise OutsideModel
          | Some K =>
              match kind with
              | None => Raise (KeyError "None")
              | Some kd =>
                  match __q__ K !! kd with
                  | None => Raise (KeyError kd)
                  | Some by_rel =>
                      match by_rel !! relid with
                      | None => Raise (KeyError relid)
                      | Some by_phrase =>
                          match by_phrase !! phrase with
                          | None => Raise (KeyError phrase)
                          | Some links => Ok links
                          end
                      end
                  end
              end
          end
      end
  end.

(** The loop of [nav]: [result |= child.__q__[kind][relid][phrase](child)]
    for every child of the handle. *)
Fixpoint nav_loop (mm : MetaModel) (kind : option string) (relid phrase : string)
  (children : list nat) (result : QuerySet) : MetaModel * outcome QuerySet :=
  match children with
  | [] => (mm, Ok result)
  | child :: rest =>
      match lookup_q mm child kind relid phrase with
      | Raise e => (mm, Raise e)
      | Ok (source, target) =>
          match _select_endpoint mm child source target [] with
          | (mm', Raise e) => (mm', Raise e)
          | (mm', Ok r) =>
              nav_loop mm' kind relid phrase rest (QuerySet_ior result r)
          end
      end
  end.

(** [nav(kind, relid, phrase)]. *)
Definition nav (mm : MetaModel) (nc : t) (kind : option string)
  (relid : Z + string) (phrase : string) : MetaModel * outcome t :=
  match nav_loop mm kind (relid_str relid) phrase (handle nc) (QuerySet_of []) with
  | (mm', Raise e) => (mm', Raise e)
  | (mm', Ok result) => (mm', Ok (Make result (is_many nc) (_kind nc)))
  end.

(** [chain.Name]: [__getattr__] records the class name. *)
Definition __getattr__ (nc : t) (name : string) : t :=
  Make (handle nc) (is_many nc) (Some name).

(** [chain[relid]] and [chain[relid, phrase]]. *)
Definition __getitem__ (mm : MetaModel) (nc : t) (relid : Z + string)
  (phrase : option string) : MetaModel * outcome t :=
  nav mm nc (_kind nc) relid (default "" phrase).

(** What a chain evaluates to: an instance or [None], or a [QuerySet]. *)
Inductive result : Type :=
| One (o : option nat)
| Many (qs : QuerySet).

(** [filter(where_clause, handle)]; without a clause [filter] keeps the
    true elements, and every instance is true. *)
Definition filtered (where_clause : option (nat -> bool)) (h : QuerySet)
  : list nat :=
  match where_clause with
  | None => h
  | Some f => List.filter f h
  end.

(** [chain(where_clause)]. *)
Definition __call__ (nc : t) (where_clause : option (nat -> bool)) : result :=
  let s := filtered where_clause (handle nc) in
  if is_many nc then Many (QuerySet_of s) else One (head s).

End Chain.

End NavChain.

Definition navigate_any (inst : NavChain.start) : outcome NavChain.t :=
  NavChain.init inst false.

Definition navigate_one (inst : NavChain.start) : outcome NavChain.t :=
  navigate_any inst.

Definition navigate_many (inst : NavChain.start) : outcome NavChain.t :=
  NavChain.init inst true.

(** ** Concrete registries used in the closed examples *)

(** A stand-in for Python's constructors in closed examples: [bool(v)] on
    every value, [int(v)] and [str(v)] where the answer needs no parsing or
    float formatting; the other calls are not modelled. *)
Definition construct_simple (T : pytype) (v : value) : outcome value :=
  match T, v with
  | TBool, VNone => Ok (VBool false)
  | TBool, VBool b => Ok (VBool b)
  | TBool, VInt z => Ok (VBool (negb (Z.eqb z 0)))
  | TBool, VReal m _ => Ok (VBool (negb (Z.eqb m 0)))
  | TBool, VStr s => Ok (VBool (negb (String.eqb s "")))
  | TBool, VUuid _ => Ok (VBool true)
  | TBool, VInst _ => Ok (VBool true)
  | TInt, VBool b => Ok (VInt (if b then 1 else 0))
  | TInt, VInt z => Ok (VInt z)
  | TInt, VReal m e =>
      Ok (VInt (if Z.leb 0 e then m * 2 ^ e else Z.quot m (2 ^ (- e))))
  | TInt, VUuid u => Ok (VInt u)
  | TInt, VNone => Raise TypeError
  | TInt, VInst _ => Raise TypeError
  | TStr, VStr s => Ok (VStr s)
  | TStr, VNone => Ok (VStr "None")
  | TStr, VBool b => Ok (VStr (if b then "True" else "False"))
  | TStr, VInt z => Ok (VStr (pretty z))
  | _, _ => Raise OutsideModel
  end.

(** An identity source that counts. *)
Definition counting_ids : IdGenerator.t :=
  IdGenerator.init (fun n => VUuid (Z.of_nat n)).

Definition mm_empty : MetaModel := MetaModel_init counting_ids.

(** [define_class("Person", [("name","string"),("age","integer")])]. *)
Definition mm_person : MetaModel :=
  fst (define_class mm_empty "Person" [("name", "string"); ("age", "integer")]).

(** * Properties *)

(** ** The ordered set *)

(** C3.  [pop] on an empty set raises the [KeyError].  On the two-element
    set [OrderedSet([1, 2])], [pop(last=True)] does not return [2]: the
    [discard] it calls ends in a [TypeError], after taking [2] out of
    [map] and relinking only the forward chain.  A following
    [pop(last=False)] fails the same way; the set then has length 0 and
    iterates as empty, while reverse iteration still yields both keys. *)
Theorem pop_two_elements :
  let s0 := OrderedSet.of_list [1; 2]%nat in
  let s1 := fst (OrderedSet.pop true s0) in
  let s2 := fst (OrderedSet.pop false s1) in
  OrderedSet.pop true (OrderedSet.empty (K := nat))
    = (OrderedSet.empty, Raise (KeyError "set is empty"))
  /\ snd (OrderedSet.pop true s0) = Raise TypeError
  /\ OrderedSet.len s1 = 1%nat
  /\ OrderedSet.iter s1 = Some [1]%nat
  /\ OrderedSet.reversed s1 = Some [2; 1]%nat
  /\ snd (OrderedSet.pop false s1) = Raise TypeError
  /\ OrderedSet.len s2 = 0%nat
  /\ OrderedSet.iter s2 = Some []
  /\ OrderedSet.reversed s2 = Some [2; 1]%nat.
Proof. vm_compute. repeat split; reflexivity. Qed.

(** C4.  [discard] of an absent key returns normally and changes nothing.
    [discard(2)] on [OrderedSet([1, 2, 3])] raises a [TypeError]; it leaves
    the key out of [map] and of forward iteration, but reverse iteration
    still yields it. *)
Theorem discard_middle_element :
  let s0 := OrderedSet.of_list [1; 2; 3]%nat in
  let s1 := fst (OrderedSet.discard 2%nat s0) in
  OrderedSet.discard 7%nat s0 = (s0, Ok tt)
  /\ snd (OrderedSet.discard 2%nat s0) = Raise TypeError
  /\ OrderedSet.contains 2%nat s1 = false
  /\ OrderedSet.len s1 = 2%nat
  /\ OrderedSet.iter s1 = Some [1; 3]%nat
  /\ OrderedSet.reversed s1 = Some [3; 2; 1]%nat.
Proof. vm_compute. repeat split; reflexivity. Qed.

(** ** Dicts *)

Lemma dict_get_set_eq d k v : dict_get (dict_set d k v) k = Some v.
Proof.
  induction d as [|[k' v'] d IH]; simpl.
  - by rewrite String.eqb_refl.
  - destruct (String.eqb_spec k' k) as [->|Hne]; simpl.
    + by rewrite String.eqb_refl.
    + destruct (String.eqb_spec k' k); [done|]. apply IH.
Qed.

Lemma dict_get_set_ne d k k' v :
  k <> k' -> dict_get (dict_set d k v) k' = dict_get d k'.
Proof.
  intros Hne. induction d as [|[k0 v0] d IH]; simpl.
  - destruct (String.eqb_spec k k'); [done|done].
  - destruct (String.eqb_spec k0 k) as [->|Hne0]; simpl.
    + destruct (String.eqb_spec k k'); [done|done].
    + destruct (String.eqb_spec k0 k'); [done|apply IH].
Qed.

Lemma dict_get_None d k : dict_get d k = None <-> k ∉ dict_keys d.
Proof.
  induction d as [|[k' v'] d IH]; simpl.
  - split; [intros _; apply not_elem_of_nil|done].
  - destruct (String.eqb_spec k' k) as [->|Hne].
    + split; [done|]. intros Hn. exfalso. apply Hn. by left.
    + rewrite IH. rewrite not_elem_of_cons. split; [by split|by intros [_ ?]].
Qed.

Lemma dict_get_Some_in d k v : dict_get d k = Some v -> (k, v) ∈ d.
Proof.
  induction d as [|[k' v'] d IH]; simpl; [done|].
  destruct (String.eqb_spec k' k) as [->|Hne].
  - intros [= ->]. by left.
  - intros Hg. right. by apply IH.
Qed.

(** Assigning to a key that is there keeps the keys and their order. *)
Lemma dict_keys_set_in d k v :
  k ∈ dict_keys d -> dict_keys (dict_set d k v) = dict_keys d.
Proof.
  induction d as [|[k' v'] d IH]; simpl.
  - intros Hin. by apply elem_of_nil in Hin.
  - intros Hin. destruct (String.eqb_spec k' k) as [->|Hne]; simpl; [done|].
    f_equal. apply IH. apply elem_of_cons in Hin as [->|?]; done.
Qed.

Lemma dict_keys_set_notin d k v :
  k ∉ dict_keys d -> dict_keys (dict_set d k v) = dict_keys d ++ [k].
Proof.
  induction d as [|[k' v'] d IH]; simpl; [done|].
  intros Hn. apply not_elem_of_cons in Hn as [Hne Hn].
  destruct (String.eqb_spec k' k) as [->|_]; [done|]. simpl.
  f_equal. by apply IH.
Qed.

Lemma dict_update_cons d k v kw :
  dict_update d ((k, v) :: kw) = dict_update (dict_set d k v) kw.
Proof. reflexivity. Qed.

Lemma dict_get_update_notin kw d k :
  k ∉ dict_keys kw -> dict_get (dict_update d kw) k = dict_get d k.
Proof.
  revert d. induction kw as [|[k' v'] kw IH]; intros d Hn; [done|].
  simpl in Hn. apply not_elem_of_cons in Hn as [Hne Hn].
  rewrite dict_update_cons, IH by done.
  by apply dict_get_set_ne.
Qed.

Lemma dict_get_update_in kw d k v :
  NoDup (dict_keys kw) -> (k, v) ∈ kw ->
  dict_get (dict_update d kw) k = Some v.
Proof.
  revert d. induction kw as [|[k' v'] kw IH]; intros d Hnd Hin.
  - by apply elem_of_nil in Hin.
  - simpl in Hnd. apply NoDup_cons in Hnd as [Hn Hnd].
    rewrite dict_update_cons.
    apply elem_of_cons in Hin as [[= -> ->]|Hin].
    + rewrite dict_get_update_notin by done. apply dict_get_set_eq.
    + by apply IH.
Qed.

(** Looking up the [j]-th key of a zip of distinct keys. *)
Lemma zip_lookup_in (names : list string) (vals : list value) j a v :
  names !! j = Some a -> vals !! j = Some v -> (a, v) ∈ zip names vals.
Proof.
  intros Ha Hv. apply list_elem_of_lookup. exists j.
  rewrite lookup_zip_with. rewrite Ha. simpl. rewrite Hv. done.
Qed.

Lemma dict_keys_zip_take (names : list string) (vals : list value) :
  dict_keys (zip names vals) = take (length vals) names.
Proof.
  revert vals. induction names as [|a names IH]; intros [|v vals]; simpl; try done.
  f_equal. apply IH.
Qed.

(** ** [new]: the instance it builds *)

(** The type names [default_value] has a default for. *)
Definition base_type (ty : string) : bool :=
  existsb (String.eqb ty) ["boolean"; "integer"; "real"; "string"; "unique_id"].

(** The defaults drawn, in order, for a list of type names; the identity
    source moves on at each [unique_id]. *)
Fixpoint default_values (g : IdGenerator.t) (types : list string)
  : IdGenerator.t * list value :=
  match types with
  | [] => (g, [])
  | ty :: rest =>
      match default_value g ty with
      | (g', Ok v) =>
          let (g'', vs) := default_values g' rest in (g'', v :: vs)
      | (g', Raise _) => (g', [])
      end
  end.

(** [f] applied to the [__dict__] of instance [i]. *)
Definition upd_dict (f : pydict -> pydict) (i : nat) (objs : list Instance)
  : list Instance :=
  alter (fun o => MkInstance (cls o) (f (dict_ o))) i objs.

Lemma upd_dict_compose f g i objs :
  upd_dict f i (upd_dict g i objs) = upd_dict (fun d => f (g d)) i objs.
Proof. unfold upd_dict. rewrite list_alter_alter_eq. done. Qed.

Lemma upd_dict_id f i objs : (forall d, f d = d) -> upd_dict f i objs = objs.
Proof.
  intros Hf. unfold upd_dict. apply list_alter_id.
  intros [cl d]. simpl. by rewrite Hf.
Qed.

Lemma upd_dict_ext f g i objs :
  (forall d, f d = g d) -> upd_dict f i objs = upd_dict g i objs.
Proof.
  intros Hfg. unfold upd_dict. apply list_alter_ext; [|done].
  intros o _. by rewrite Hfg.
Qed.

Lemma upd_dict_lookup f i objs o :
  objs !! i = Some o ->
  upd_dict f i objs !! i = Some (MkInstance (cls o) (f (dict_ o))).
Proof. intros Ho. unfold upd_dict. by rewrite list_lookup_alter_eq, Ho. Qed.

Lemma upd_dict_lookup_ne f i j objs :
  i <> j -> upd_dict f i objs !! j = objs !! j.
Proof. intros Hne. unfold upd_dict. by apply list_lookup_alter_ne. Qed.

(** Changing a [__dict__] does not change the type of any value. *)
Lemma type_of_upd_dict f i objs v :
  type_of (upd_dict f i objs) v = type_of objs v.
Proof.
  destruct v as [| | | | | |j]; try done. simpl.
  destruct (decide (i = j)) as [->|Hne].
  - unfold upd_dict. rewrite list_lookup_alter_eq.
    by destruct (objs !! j).
  - by rewrite upd_dict_lookup_ne.
Qed.

Lemma default_value_base g ty :
  base_type ty = true ->
  exists g' v, default_value g ty = (g', Ok v).
Proof.
  unfold base_type, default_value. simpl.
  destruct (String.eqb ty "boolean"); [eauto|].
  destruct (String.eqb ty "integer"); [eauto|].
  destruct (String.eqb ty "real"); [eauto|].
  destruct (String.eqb ty "string"); [eauto|].
  destruct (String.eqb ty "unique_id"); [|done].
  intros _. destruct (IdGenerator.next g) as [g' v]. eauto.
Qed.

Section NewProperties.

Variable construct : pytype -> value -> outcome value.

(** The coerced positional values, in order. *)
Fixpoint coerce_args (mm : MetaModel) (attrs : list (string * string))
  (args : list value) : outcome (list value) :=
  match attrs, args with
  | (_, ty) :: attrs', v :: args' =>
      match coerce construct mm ty v with
      | Raise e => Raise e
      | Ok v' =>
          match coerce_args mm attrs' args' with
          | Raise e => Raise e
          | Ok vs => Ok (v' :: vs)
          end
      end
  | _, _ => Ok []
  end.

Lemma set_defaults_spec attrs : forall mm i,
  forallb base_type (List.map snd attrs) = true ->
  set_defaults mm i attrs =
    (let (g, vals) := default_values (id_generator mm) (List.map snd attrs) in
     with_objs (with_id_generator mm g)
       (upd_dict (fun d => dict_update d (zip (List.map fst attrs) vals)) i (objs mm)),
     Ok tt).
Proof.
  induction attrs as [|[key ty] attrs IH]; intros mm i Hb.
  - simpl. rewrite upd_dict_id by done. by destruct mm.
  - simpl in Hb. apply andb_true_iff in Hb as [Hty Hb].
    destruct (default_value_base (id_generator mm) ty Hty) as (g1 & v & Hd).
    simpl. rewrite Hd. rewrite IH by done. simpl.
    destruct (default_values g1 (List.map snd attrs)) as [g2 vals].
    f_equal. unfold set_slot, with_objs, with_id_generator. simpl.
    f_equal. fold (upd_dict (fun d => dict_set d key v) i (objs mm)).
    rewrite upd_dict_compose. done.
Qed.

Lemma coerce_upd_dict mm ty v f i :
  coerce construct (with_objs mm (upd_dict f i (objs mm))) ty v
  = coerce construct mm ty v.
Proof.
  unfold coerce, named_type, isinstance. simpl.
  repeat (destruct (String.eqb ty _); [by rewrite ?type_of_upd_dict|]).
  done.
Qed.

Lemma coerce_args_upd_dict attrs : forall args mm f i,
  coerce_args (with_objs mm (upd_dict f i (objs mm))) attrs args
  = coerce_args mm attrs args.
Proof.
  induction attrs as [|[a ty] attrs IH]; intros [|v args] mm f i; try done.
  simpl. rewrite coerce_upd_dict. rewrite IH. done.
Qed.

Lemma set_positional_spec attrs : forall args mm i vals,
  coerce_args mm attrs args = Ok vals ->
  set_positional construct mm i attrs args =
    (with_objs mm
       (upd_dict (fun d => dict_update d (zip (List.map fst attrs) vals)) i (objs mm)),
     Ok tt).
Proof.
  induction attrs as [|[a ty] attrs IH]; intros args mm i vals Hc.
  - simpl in *. destruct args; inversion Hc; subst; simpl;
      rewrite upd_dict_id by done; by destruct mm.
  - destruct args as [|v args].
    + simpl in *. inversion Hc; subst. simpl.
      rewrite upd_dict_id by done. by destruct mm.
    + simpl in Hc. simpl.
      destruct (coerce construct mm ty v) as [v'|e] eqn:Ev; [|done].
      destruct (coerce_args mm attrs args) as [vs|e] eqn:Evs; [|done].
      inversion Hc; subst vals.
      unfold set_slot. fold (upd_dict (fun d => dict_set d a v') i (objs mm)).
      rewrite (IH args _ i vs).
      * simpl. rewrite upd_dict_compose. by destruct mm.
      * by rewrite coerce_args_upd_dict.
Qed.

Lemma set_positional_raise attrs : forall args mm i e,
  coerce_args mm attrs args = Raise e ->
  snd (set_positional construct mm i attrs args) = Raise e.
Proof.
  induction attrs as [|[a ty] attrs IH]; intros [|v args] mm i e Hc; try done.
  simpl in Hc. simpl.
  destruct (coerce construct mm ty v) as [v'|e'] eqn:Ev; [|by inversion Hc].
  destruct (coerce_args mm attrs args) as [vs|e'] eqn:Evs; [done|].
  inversion Hc; subst e'. apply IH.
  unfold set_slot. fold (upd_dict (fun d => dict_set d a v') i (objs mm)).
  by rewrite coerce_args_upd_dict.
Qed.

(** The registry when [new] reaches its second loop: the instance is
    allocated and holds its defaults. *)
Definition after_defaults (mm : MetaModel) (cid : nat)
  (attrs : list (string * string)) : MetaModel :=
  fst (set_defaults (fst (BaseObject.__init__ mm cid)) (length (objs mm)) attrs).

(** The [__dict__] [new] builds: defaults, then the coerced positional
    values, then the named arguments. *)
Definition new_dict (names : list string) (dvals cvals : list value)
  (kwargs : pydict) : pydict :=
  dict_update (dict_update (dict_update [] (zip names dvals)) (zip names cvals)) kwargs.

Lemma upd_dict_new f (objs : list Instance) o :
  upd_dict f (length objs) (objs ++ [o])
  = objs ++ [MkInstance (cls o) (f (dict_ o))].
Proof.
  unfold upd_dict.
  replace (length objs) with (length objs + 0)%nat at 1 by lia.
  by rewrite alter_app_r.
Qed.

Lemma new_spec mm kind cid names types args kwargs cvals :
  classes mm !! kind = Some cid ->
  param_names mm !! kind = Some names ->
  param_types mm !! kind = Some types ->
  clashes ["self"; "kind"] kwargs = false ->
  forallb base_type (List.map snd (zip names types)) = true ->
  coerce_args (after_defaults mm cid (zip names types)) (zip names types) args
    = Ok cvals ->
  new construct mm kind args kwargs =
    (let (g, dvals) :=
       default_values (id_generator mm) (List.map snd (zip names types)) in
     MkMetaModel (classes mm)
       (class_heap (BaseObject.clear_cache mm cid))
       (<[kind := default [] (instances mm !! kind) ++ [length (objs mm)]]>
          (instances mm))
       (objs mm ++
          [MkInstance cid
             (new_dict (List.map fst (zip names types)) dvals cvals kwargs)])
       (param_names mm) (param_types mm) g (ignore_undefined_classes mm),
     Ok (Some (length (objs mm)))).
Proof.
  intros Hc Hn Ht Hk Hb Hco. unfold after_defaults in Hco.
  unfold new. rewrite Hk, Hc.
  unfold BaseObject.__init__ in *. simpl in *. rewrite Hn, Ht.
  rewrite set_defaults_spec in * by done. simpl in *.
  destruct (default_values (id_generator mm) (List.map snd (zip names types)))
    as [g dvals] eqn:Ed.
  simpl in *.
  rewrite (set_positional_spec _ _ _ _ cvals Hco). simpl.
  f_equal. unfold update_slots, with_instances, with_objs. simpl.
  f_equal.
  match goal with |- alter ?F ?i ?l = _ =>
    change (alter F i l) with (upd_dict (fun d => dict_update d kwargs) i l) end.
  rewrite !upd_dict_compose. rewrite upd_dict_new. done.
Qed.

Lemma coerce_args_length attrs : forall args mm vals,
  coerce_args mm attrs args = Ok vals ->
  length vals = Nat.min (length attrs) (length args).
Proof.
  induction attrs as [|[a ty] attrs IH]; intros [|v args] mm vals Hc;
    simpl in *; try (by inversion Hc).
  destruct (coerce construct mm ty v); [|done].
  destruct (coerce_args mm attrs args) as [vs|] eqn:E; [|done].
  inversion Hc; subst. simpl. f_equal. by eapply IH.
Qed.

Lemma coerce_args_lookup attrs : forall args mm vals j a ty v,
  coerce_args mm attrs args = Ok vals ->
  attrs !! j = Some (a, ty) -> args !! j = Some v ->
  exists x, vals !! j = Some x /\ coerce construct mm ty v = Ok x.
Proof.
  induction attrs as [|[a0 ty0] attrs IH]; intros [|v0 args] mm vals j a ty v Hc Ha Hv;
    try done.
  simpl in Hc.
  destruct (coerce construct mm ty0 v0) as [x0|] eqn:E0; [|done].
  destruct (coerce_args mm attrs args) as [vs|] eqn:E; [|done].
  inversion Hc; subst vals.
  destruct j as [|j]; simpl in *.
  - inversion Ha; inversion Hv; subst. eauto.
  - eapply IH; eauto.
Qed.

Lemma coerce_ext mm1 mm2 ty v :
  objs mm1 = objs mm2 -> id_generator mm1 = id_generator mm2 ->
  coerce construct mm1 ty v = coerce construct mm2 ty v.
Proof.
  intros Ho Hg. unfold coerce, named_type. by rewrite Ho, Hg.
Qed.

End NewProperties.

Lemma default_values_length types : forall g,
  forallb base_type types = true ->
  length (snd (default_values g types)) = length types.
Proof.
  induction types as [|ty types IH]; intros g Hb; [done|].
  simpl in Hb. apply andb_true_iff in Hb as [Hty Hb].
  destruct (default_value_base g ty Hty) as (g1 & v & Hd).
  simpl. rewrite Hd. specialize (IH g1 Hb).
  destruct (default_values g1 types). simpl in *. by f_equal.
Qed.

(** The [j]-th default is the one [default_value] gives once the first
    [j] types have drawn theirs. *)
Lemma default_values_lookup types : forall g j ty,
  forallb base_type types = true ->
  types !! j = Some ty ->
  exists x, snd (default_values g types) !! j = Some x
    /\ snd (default_value (fst (default_values g (take j types))) ty) = Ok x.
Proof.
  induction types as [|ty0 types IH]; intros g j ty Hb Hj; [done|].
  simpl in Hb. apply andb_true_iff in Hb as [Hty Hb].
  destruct (default_value_base g ty0 Hty) as (g1 & v & Hd).
  destruct j as [|j]; simpl in Hj.
  - inversion Hj; subst ty0. simpl. rewrite Hd.
    destruct (default_values g1 types). simpl. eauto.
  - destruct (IH g1 j ty Hb Hj) as (x & Hx & Hdx).
    exists x. simpl. rewrite Hd.
    destruct (default_values g1 types) as [g2 vs] eqn:E2. simpl in *.
    destruct (default_values g1 (take j types)) as [g3 vs3] eqn:E3. simpl in *.
    done.
Qed.

Lemma map_fst_zip {A B} (l : list A) (k : list B) :
  length l = length k -> List.map fst (zip l k) = l.
Proof.
  revert k. induction l as [|x l IH]; intros [|y k] Hl; simpl in *; try done.
  f_equal. apply IH. lia.
Qed.

Lemma map_snd_zip {A B} (l : list A) (k : list B) :
  length l = length k -> List.map snd (zip l k) = k.
Proof.
  revert k. induction l as [|x l IH]; intros [|y k] Hl; simpl in *; try done.
  f_equal. apply IH. lia.
Qed.

Lemma NoDup_not_in_take (names : list string) j m a :
  NoDup names -> names !! j = Some a -> (m <= j)%nat -> a ∉ take m names.
Proof.
  intros Hnd Hj Hm Hin. apply elem_of_take in Hin as (i & Hi & Hlt).
  pose proof (NoDup_lookup _ _ _ _ Hnd Hi Hj). lia.
Qed.

Lemma NoDup_dict_keys_zip (names : list string) (vals : list value) :
  NoDup names -> NoDup (dict_keys (zip names vals)).
Proof.
  intros Hnd. rewrite dict_keys_zip_take.
  apply (sublist_NoDup (take (length vals) names) names);
    [done|apply sublist_take].
Qed.

(** A slot that no positional or named argument reaches keeps its
    default. *)
Lemma new_dict_default names dvals cvals kwargs j a x :
  NoDup names -> names !! j = Some a -> dvals !! j = Some x ->
  (length cvals <= j)%nat -> a ∉ dict_keys kwargs ->
  dict_get (new_dict names dvals cvals kwargs) a = Some x.
Proof.
  intros Hnd Ha Hx Hlen Hk. unfold new_dict.
  rewrite dict_get_update_notin by done.
  rewrite dict_get_update_notin.
  - apply dict_get_update_in; [by apply NoDup_dict_keys_zip|].
    by eapply zip_lookup_in.
  - rewrite dict_keys_zip_take. by eapply NoDup_not_in_take.
Qed.

(** A slot reached by a positional argument holds the coerced value. *)
Lemma new_dict_positional names dvals cvals kwargs j a x :
  NoDup names -> names !! j = Some a -> cvals !! j = Some x ->
  a ∉ dict_keys kwargs ->
  dict_get (new_dict names dvals cvals kwargs) a = Some x.
Proof.
  intros Hnd Ha Hx Hk. unfold new_dict.
  rewrite dict_get_update_notin by done.
  apply dict_get_update_in; [by apply NoDup_dict_keys_zip|].
  by eapply zip_lookup_in.
Qed.

(** A named argument is stored as given, under the name as given. *)
Lemma new_dict_named names dvals cvals kwargs k v :
  NoDup (dict_keys kwargs) -> (k, v) ∈ kwargs ->
  dict_get (new_dict names dvals cvals kwargs) k = Some v.
Proof. intros Hnd Hin. unfold new_dict. by apply dict_get_update_in. Qed.



Lemma after_defaults_spec mm cid attrs :
  forallb base_type (List.map snd attrs) = true ->
  id_generator (after_defaults mm cid attrs)
    = fst (default_values (id_generator mm) (List.map snd attrs))
  /\ exists d, objs (after_defaults mm cid attrs) = objs mm ++ [MkInstance cid d].
Proof.
  intros Hb. unfold after_defaults. rewrite set_defaults_spec by done.
  unfold BaseObject.__init__. simpl.
  destruct (default_values (id_generator mm) (List.map snd attrs)) as [g dvals].
  simpl. split; [done|]. rewrite upd_dict_new. simpl. eauto.
Qed.

Lemma type_of_new_inst objs cid d d' v :
  type_of (objs ++ [MkInstance cid d]) v = type_of (objs ++ [MkInstance cid d']) v.
Proof.
  destruct v as [| | | | | |j]; try done. simpl.
  destruct (decide (j < length objs)%nat).
  - by rewrite !lookup_app_l by done.
  - rewrite !lookup_app_r by lia.
    destruct (j - length objs)%nat as [|m]; [done|].
    simpl. by destruct m.
Qed.

Lemma coerce_new_inst construct mm1 mm2 objs0 cid d d' ty v :
  objs mm1 = objs0 ++ [MkInstance cid d] ->
  objs mm2 = objs0 ++ [MkInstance cid d'] ->
  id_generator mm1 = id_generator mm2 ->
  coerce construct mm1 ty v = coerce construct mm2 ty v.
Proof.
  intros H1 H2 Hg. unfold coerce, named_type, isinstance.
  rewrite H1, H2, Hg.
  repeat (destruct (String.eqb ty _);
          [by rewrite ?(type_of_new_inst objs0 cid d d')|]).
  done.
Qed.

(** What [new] returns for a class whose parameters all have a default,
    once the coercions of the positional arguments go through. *)
Lemma new_builds construct mm kind cid names types args kwargs cvals :
  classes mm !! kind = Some cid ->
  param_names mm !! kind = Some names ->
  param_types mm !! kind = Some types ->
  length names = length types ->
  forallb base_type types = true ->
  clashes ["self"; "kind"] kwargs = false ->
  coerce_args construct (after_defaults mm cid (zip names types))
    (zip names types) args = Ok cvals ->
  exists mm' dvals,
    new construct mm kind args kwargs = (mm', Ok (Some (length (objs mm))))
    /\ dvals = snd (default_values (id_generator mm) types)
    /\ objs mm' = objs mm ++ [MkInstance cid (new_dict names dvals cvals kwargs)]
    /\ id_generator mm' = fst (default_values (id_generator mm) types)
    /\ class_heap mm' = class_heap (BaseObject.clear_cache mm cid)
    /\ instances mm'
       = <[kind := default [] (instances mm !! kind) ++ [length (objs mm)]]>
           (instances mm)
    /\ classes mm' = classes mm.
Proof.
  intros Hc Hn Ht Hlen Hb Hk Hco.
  pose proof (new_spec construct mm kind cid names types args kwargs cvals
                Hc Hn Ht Hk) as Hs.
  rewrite (map_snd_zip names types Hlen), (map_fst_zip names types Hlen) in Hs.
  specialize (Hs Hb Hco).
  destruct (default_values (id_generator mm) types) as [g dvals] eqn:Ed.
  eexists _, dvals. split; [exact Hs|]. simpl. done.
Qed.

(** [define_class("Ref", [("target", "inst_ref")])]. *)
Definition mm_ref : MetaModel :=
  fst (define_class mm_empty "Ref" [("target", "inst_ref")]).

(** [define_class("Flag", [("id","unique_id"), ("tag","unique_id"),
    ("on","boolean")])]. *)
Definition mm_flag : MetaModel :=
  fst (define_class mm_empty "Flag"
         [("id", "unique_id"); ("tag", "unique_id"); ("on", "boolean")]).

(** C5, as stated, fails: a class with an [inst_ref] parameter cannot be
    instantiated, because [default_value] knows no default for it. *)
Lemma new_inst_ref_raises :
  snd (new construct_simple mm_ref "Ref" [] [])
  = Raise (ModelException "Unknown type named 'inst_ref'").
Proof. vm_compute. reflexivity. Qed.

(** C5 (amended).  For a class whose parameters have distinct names and
    types among [boolean], [integer], [real], [string] and [unique_id],
    [new] returns a new instance (given that the coercions of the
    positional arguments succeed), and every parameter beyond the
    positional arguments that no named argument names holds the default of
    its type: [False], [0], [0.0], the empty string, or the value the
    identity source holds after the earlier [unique_id] parameters have
    drawn theirs. *)
Theorem new_fills_defaults construct mm kind cid names types args kwargs cvals :
  classes mm !! kind = Some cid ->
  param_names mm !! kind = Some names ->
  param_types mm !! kind = Some types ->
  length names = length types ->
  NoDup names ->
  forallb base_type types = true ->
  clashes ["self"; "kind"] kwargs = false ->
  coerce_args construct (after_defaults mm cid (zip names types))
    (zip names types) args = Ok cvals ->
  exists mm' i o,
    new construct mm kind args kwargs = (mm', Ok (Some i))
    /\ objs mm' !! i = Some o
    /\ forall j a ty,
         names !! j = Some a -> types !! j = Some ty ->
         (length args <= j)%nat -> a ∉ dict_keys kwargs ->
         exists x,
           dict_get (dict_ o) a = Some x
           /\ (ty = "boolean" -> x = VBool false)
           /\ (ty = "integer" -> x = VInt 0)
           /\ (ty = "real" -> x = VReal 0 0)
           /\ (ty = "string" -> x = VStr "")
           /\ (ty = "unique_id" ->
               x = IdGenerator.peek
                     (fst (default_values (id_generator mm) (take j types)))).
Proof.
  intros Hc Hn Ht Hlen Hnd Hb Hk Hco.
  destruct (new_builds construct mm kind cid names types args kwargs cvals
              Hc Hn Ht Hlen Hb Hk Hco)
    as (mm' & dvals & Hnew & Hd & Hobjs & _).
  exists mm', (length (objs mm)), (MkInstance cid (new_dict names dvals cvals kwargs)).
  split; [done|]. split; [rewrite Hobjs; by apply list_lookup_middle|].
  intros j a ty Ha Hty Hj Hnk. simpl.
  destruct (default_values_lookup types (id_generator mm) j ty Hb Hty)
    as (x & Hx & Hdx).
  exists x. split.
  - apply (new_dict_default names dvals cvals kwargs j a x); try done.
    + by rewrite Hd.
    + rewrite (coerce_args_length construct _ _ _ _ Hco). lia.
  - set (g := fst (default_values (id_generator mm) (take j types))) in *.
    repeat split; intros ->; vm_compute in Hdx; by inversion Hdx.
Qed.

Lemma new_fills_defaults_witness :
  exists mm' i o,
    new construct_simple mm_flag "Flag" [VUuid 7] [("colour", VStr "red")]
      = (mm', Ok (Some i))
    /\ objs mm' !! i = Some o
    /\ forall j a ty,
         ["id"; "tag"; "on"] !! j = Some a ->
         ["unique_id"; "unique_id"; "boolean"] !! j = Some ty ->
         (length [VUuid 7] <= j)%nat ->
         a ∉ dict_keys [("colour", VStr "red")] ->
         exists x,
           dict_get (dict_ o) a = Some x
           /\ (ty = "boolean" -> x = VBool false)
           /\ (ty = "integer" -> x = VInt 0)
           /\ (ty = "real" -> x = VReal 0 0)
           /\ (ty = "string" -> x = VStr "")
           /\ (ty = "unique_id" ->
               x = IdGenerator.peek
                     (fst (default_values (id_generator mm_flag)
                             (take j ["unique_id"; "unique_id"; "boolean"])))).
Proof.
  apply (new_fills_defaults construct_simple mm_flag "Flag" 0%nat
           ["id"; "tag"; "on"] ["unique_id"; "unique_id"; "boolean"]
           [VUuid 7] [("colour", VStr "red")] [VUuid 7]).
  - vm_compute; reflexivity.
  - vm_compute; reflexivity.
  - vm_compute; reflexivity.
  - reflexivity.
  - apply (bool_decide_unpack _). vm_compute. exact I.
  - reflexivity.
  - reflexivity.
  - vm_compute; reflexivity.
Defined.

Section StoredArguments.

Context {str_lower : StrLower}.

(** C7.  For a class whose parameters have distinct names and a default
    each, and positional arguments whose coercions go through, [new]
    succeeds; the [j]-th positional argument lands in the [j]-th declared
    parameter as [coerce] leaves it (the value itself when it is an
    instance of the declared type, the constructor's result otherwise),
    and every named argument is stored exactly as given.  The two
    [Person] scenarios hold for any constructor table. *)
Theorem new_applies_arguments construct :
  (forall mm kind cid names types args kwargs cvals,
     classes mm !! kind = Some cid ->
     param_names mm !! kind = Some names ->
     param_types mm !! kind = Some types ->
     length names = length types ->
     NoDup names ->
     forallb base_type types = true ->
     clashes ["self"; "kind"] kwargs = false ->
     NoDup (dict_keys kwargs) ->
     coerce_args construct (after_defaults mm cid (zip names types))
       (zip names types) args = Ok cvals ->
     exists mm' i o,
       new construct mm kind args kwargs = (mm', Ok (Some i))
       /\ objs mm' !! i = Some o
       /\ (forall j a ty v,
             names !! j = Some a -> types !! j = Some ty ->
             args !! j = Some v -> a ∉ dict_keys kwargs ->
             exists T x,
               named_type mm' ty = Ok T
               /\ (if isinstance (objs mm') v T then Ok v else construct T v) = Ok x
               /\ dict_get (dict_ o) a = Some x)
       /\ (forall k v, (k, v) ∈ kwargs -> dict_get (dict_ o) k = Some v))
  /\ (exists mm' i,
        new construct mm_person "Person" [VStr "Alice"; VInt 30] []
          = (mm', Ok (Some i))
        /\ BaseObject.getattr (objs mm') i "name" = Ok (VStr "Alice")
        /\ BaseObject.getattr (objs mm') i "age" = Ok (VInt 30))
  /\ (exists mm' i,
        new construct mm_person "Person" [] [("name", VStr "Bob")]
          = (mm', Ok (Some i))
        /\ BaseObject.getattr (objs mm') i "name" = Ok (VStr "Bob")
        /\ BaseObject.getattr (objs mm') i "age" = Ok (VInt 0)).
Proof.
  split; [|split].
  - intros mm kind cid names types args kwargs cvals
      Hc Hn Ht Hlen Hnd Hb Hk Hndk Hco.
    destruct (new_builds construct mm kind cid names types args kwargs cvals
                Hc Hn Ht Hlen Hb Hk Hco)
      as (mm' & dvals & Hnew & Hd & Hobjs & Hgen & _).
    exists mm', (length (objs mm)),
      (MkInstance cid (new_dict names dvals cvals kwargs)).
    split; [done|]. split; [rewrite Hobjs; by apply list_lookup_middle|].
    split.
    + intros j a ty v Ha Hty Hv Hnk. simpl.
      assert (Hz : zip names types !! j = Some (a, ty)).
      { rewrite lookup_zip_with, Ha. simpl. by rewrite Hty. }
      destruct (coerce_args_lookup construct _ _ _ _ j a ty v Hco Hz Hv)
        as (x & Hx & Hcx).
      assert (Hb' : forallb base_type (List.map snd (zip names types)) = true)
        by (by rewrite map_snd_zip).
      destruct (after_defaults_spec mm cid (zip names types) Hb')
        as (Hg2 & d0 & Ho2).
      rewrite map_snd_zip in Hg2 by done.
      rewrite (coerce_new_inst construct _ mm' (objs mm) cid d0
                 (new_dict names dvals cvals kwargs) ty v Ho2 Hobjs) in Hcx
        by (by rewrite Hg2, Hgen).
      unfold coerce in Hcx.
      destruct (named_type mm' ty) as [T|e] eqn:ET; [|done].
      exists T, x. split; [done|]. split; [done|].
      by apply (new_dict_positional names dvals cvals kwargs j a x).
    + intros k v Hin. simpl. by apply new_dict_named.
  - eexists _, _. split; [vm_compute; reflexivity|]. split; reflexivity.
  - eexists _, _. split; [vm_compute; reflexivity|]. split; reflexivity.
Qed.

End StoredArguments.

Section StoredArgumentsExample.

#[local] Existing Instance ascii_lower.

Lemma new_applies_arguments_witness :
  exists mm' i o,
    new construct_simple mm_flag "Flag" [VUuid 7; VUuid 8; VInt 2]
      [("colour", VStr "red")] = (mm', Ok (Some i))
    /\ objs mm' !! i = Some o
    /\ (forall j a ty v,
          ["id"; "tag"; "on"] !! j = Some a ->
          ["unique_id"; "unique_id"; "boolean"] !! j = Some ty ->
          [VUuid 7; VUuid 8; VInt 2] !! j = Some v ->
          a ∉ dict_keys [("colour", VStr "red")] ->
          exists T x,
            named_type mm' ty = Ok T
            /\ (if isinstance (objs mm') v T then Ok v
                else construct_simple T v) = Ok x
            /\ dict_get (dict_ o) a = Some x)
    /\ (forall k v, (k, v) ∈ [("colour", VStr "red")] ->
          dict_get (dict_ o) k = Some v).
Proof.
  apply (proj1 (new_applies_arguments construct_simple) mm_flag "Flag" 0%nat
           ["id"; "tag"; "on"] ["unique_id"; "unique_id"; "boolean"]
           [VUuid 7; VUuid 8; VInt 2] [("colour", VStr "red")]
           [VUuid 7; VUuid 8; VBool true]).
  - vm_compute; reflexivity.
  - vm_compute; reflexivity.
  - vm_compute; reflexivity.
  - reflexivity.
  - apply (bool_decide_unpack _). vm_compute. exact I.
  - reflexivity.
  - reflexivity.
  - apply (bool_decide_unpack _). vm_compute. exact I.
  - vm_compute; reflexivity.
Defined.

End StoredArgumentsExample.



(** ** Attribute assignment and lookup *)

Section CaseFolding.

Context {str_lower : StrLower}.

Lemma lower_key_inj (ks : list string) a b :
  NoDup (List.map lower ks) -> a ∈ ks -> b ∈ ks -> lower a = lower b -> a = b.
Proof.
  induction ks as [|k ks IH]; intros Hnd Ha Hb Hl.
  - by apply elem_of_nil in Ha.
  - simpl in Hnd. apply NoDup_cons in Hnd as [Hk Hnd].
    assert (Hmem : forall x, x ∈ ks -> lower x ∈ List.map lower ks).
    { intros x Hx. apply list_elem_of_In, in_map, list_elem_of_In. done. }
    apply elem_of_cons in Ha as [->|Ha]; apply elem_of_cons in Hb as [->|Hb].
    + done.
    + exfalso. apply Hk. rewrite Hl. by apply Hmem.
    + exfalso. apply Hk. rewrite <- Hl. by apply Hmem.
    + by apply IH.
Qed.

Lemma dict_get_in_keys d k v : dict_get d k = Some v -> k ∈ dict_keys d.
Proof.
  intros Hg. destruct (decide (k ∈ dict_keys d)) as [|Hn]; [done|].
  apply dict_get_None in Hn. congruence.
Qed.

Lemma dict_get_is_Some d k : k ∈ dict_keys d -> exists v, dict_get d k = Some v.
Proof.
  intros Hin. destruct (dict_get d k) as [v|] eqn:E; [eauto|].
  apply dict_get_None in E. done.
Qed.

(** With keys that differ pairwise even up to case, the case-insensitive
    search finds the one key that matches. *)
Lemma find_lower_unique d a x n :
  NoDup (List.map lower (dict_keys d)) ->
  dict_get d a = Some x -> lower n = lower a ->
  find (fun kv => String.eqb (lower (fst kv)) (lower n)) d = Some (a, x).
Proof.
  intros Hnd Hg Hl. rewrite Hl. clear Hl n.
  induction d as [|[k w] d IH]; [done|].
  simpl in *. apply NoDup_cons in Hnd as [Hk Hnd].
  destruct (String.eqb_spec k a) as [->|Hne].
  - inversion Hg; subst. by rewrite String.eqb_refl.
  - destruct (String.eqb_spec (lower k) (lower a)) as [He|_].
    + exfalso. apply Hk. rewrite He.
      apply list_elem_of_In, in_map, list_elem_of_In.
      by eapply dict_get_in_keys.
    + by apply IH.
Qed.

Lemma find_key_none d n :
  (forall k, k ∈ dict_keys d -> lower k <> lower n) ->
  BaseObject.find_key (lower n) d = None.
Proof.
  intros Hk. unfold BaseObject.find_key.
  induction d as [|[k w] d IH]; [done|]. simpl.
  destruct (String.eqb_spec (lower k) (lower n)) as [He|_].
  - exfalso. apply (Hk k); [by left|done].
  - apply IH. intros k' Hk'. apply Hk. by right.
Qed.

End CaseFolding.

Section UndeclaredSlotExample.

#[local] Existing Instance ascii_lower.

(** [define_class("Person", ...)]; [new("Person", nick="Bo")]. *)
Definition mm_nick : MetaModel :=
  fst (new construct_simple mm_person "Person" [] [("nick", VStr "Bo")]).

(** C9, as stated, fails: [NICK] matches neither declared attribute of
    [Person], but the instance made by [new("Person", nick="Bo")] has a
    slot [nick], and the assignment [inst.NICK = "x"] overwrites it. *)
Lemma setattr_undeclared_slot :
  param_names mm_nick !! "Person" = Some ["name"; "age"]
  /\ forallb (fun a => negb (String.eqb (lower a) (lower "NICK"))) ["name"; "age"]
     = true
  /\ BaseObject.getattr (objs mm_nick) 0 "nick" = Ok (VStr "Bo")
  /\ snd (BaseObject.__setattr__ mm_nick 0 "NICK" (VStr "x")) = Ok tt
  /\ BaseObject.getattr
       (objs (fst (BaseObject.__setattr__ mm_nick 0 "NICK" (VStr "x")))) 0 "nick"
     = Ok (VStr "x").
Proof. vm_compute. repeat split; reflexivity. Qed.

End UndeclaredSlotExample.

Section UnknownName.

Context {str_lower : StrLower}.

(** C9 (amended).  Assigning to a name that matches, up to case, none of
    the slots the instance holds (its declared attributes and whatever
    named arguments of [new] added) returns normally and leaves the whole
    registry as it was: no slot is made or changed, no cache is
    cleared. *)
Theorem setattr_unknown_name mm i o name v :
  objs mm !! i = Some o ->
  (forall k, k ∈ dict_keys (dict_ o) -> lower k <> lower name) ->
  BaseObject.__setattr__ mm i name v = (mm, Ok tt).
Proof.
  intros Ho Hk. unfold BaseObject.__setattr__. rewrite Ho.
  by rewrite find_key_none.
Qed.

End UnknownName.

Section UnknownNameExamples.

#[local] Existing Instance ascii_lower.

Lemma setattr_unknown_name_witness :
  BaseObject.__setattr__ mm_nick 0 "Salary" (VInt 5) = (mm_nick, Ok tt).
Proof.
  apply (setattr_unknown_name mm_nick 0%nat
           (MkInstance 0 [("name", VStr ""); ("age", VInt 0); ("nick", VStr "Bo")])).
  - vm_compute; reflexivity.
  - intros k Hk. simpl in Hk.
    repeat (apply elem_of_cons in Hk as [->|Hk]; [by vm_compute|]).
    by apply elem_of_nil in Hk.
Defined.

(** [define_class("Person", ...)]; [new("Person", NAME="Bob")]. *)
Definition mm_upper : MetaModel :=
  fst (new construct_simple mm_person "Person" [] [("NAME", VStr "Bob")]).

(** C6, as stated, fails for named arguments of [new]: [NAME="Bob"] does
    not reach the declared slot [name]; it makes a second slot, and [name]
    keeps its default under every casing but the argument's own. *)
Lemma new_named_argument_other_case :
  snd (new construct_simple mm_person "Person" [] [("NAME", VStr "Bob")])
    = Ok (Some 0%nat)
  /\ dict_ <$> objs mm_upper !! 0%nat
     = Some [("name", VStr ""); ("age", VInt 0); ("NAME", VStr "Bob")]
  /\ BaseObject.getattr (objs mm_upper) 0 "name" = Ok (VStr "")
  /\ BaseObject.getattr (objs mm_upper) 0 "Name" = Ok (VStr "")
  /\ BaseObject.getattr (objs mm_upper) 0 "NAME" = Ok (VStr "Bob").
Proof. vm_compute. repeat split; reflexivity. Qed.

End UnknownNameExamples.

Section AnyCase.

Context {str_lower : StrLower}.

Lemma dict_get_set_other d a v b :
  b <> a -> dict_get (dict_set d a v) b = dict_get d b.
Proof. intros Hne. by apply dict_get_set_ne. Qed.

(** C6 (amended).  Attribute assignment is case-insensitive: on an
    instance whose slot names differ pairwise even up to case, assigning
    under any casing of a slot's name sets that one slot (no slot is added,
    the others keep their values) and a read under any casing returns the
    assigned value.  Named arguments of [new] are not: each is stored under
    exactly the name given, and a declared parameter that no named argument
    names exactly keeps its positional value or default. *)
Theorem setattr_getattr_any_case construct :
  (forall mm i o a name name' v,
     objs mm !! i = Some o ->
     a ∈ dict_keys (dict_ o) ->
     NoDup (List.map lower (dict_keys (dict_ o))) ->
     dict_get (dict_ o) "__c__" = None ->
     lower name = lower a -> lower name' = lower a ->
     is_dunder name' = false ->
     exists mm' o',
       BaseObject.__setattr__ mm i name v = (mm', Ok tt)
       /\ objs mm' !! i = Some o'
       /\ dict_keys (dict_ o') = dict_keys (dict_ o)
       /\ dict_get (dict_ o') a = Some v
       /\ (forall b, b <> a -> dict_get (dict_ o') b = dict_get (dict_ o) b)
       /\ BaseObject.getattr (objs mm') i name' = Ok v)
  /\ (forall mm kind cid names types args kwargs cvals,
        classes mm !! kind = Some cid ->
        param_names mm !! kind = Some names ->
        param_types mm !! kind = Some types ->
        length names = length types ->
        NoDup names ->
        forallb base_type types = true ->
        clashes ["self"; "kind"] kwargs = false ->
        NoDup (dict_keys kwargs) ->
        coerce_args construct (after_defaults mm cid (zip names types))
          (zip names types) args = Ok cvals ->
        exists mm' i o,
          new construct mm kind args kwargs = (mm', Ok (Some i))
          /\ objs mm' !! i = Some o
          /\ (forall k v, (k, v) ∈ kwargs -> dict_get (dict_ o) k = Some v)
          /\ (forall j a, names !! j = Some a -> a ∉ dict_keys kwargs ->
                dict_get (dict_ o) a
                = if decide (j < length cvals)%nat then cvals !! j
                  else snd (default_values (id_generator mm) types) !! j)).
Proof.
  split.
  - intros mm i o a name name' v Ho Ha Hnd Hc Hl Hl' Hdu.
    destruct (dict_get_is_Some _ _ Ha) as [x Hx].
    pose proof (find_lower_unique (dict_ o) a x name Hnd Hx Hl) as Hf.
    unfold BaseObject.__setattr__. rewrite Ho.
    unfold BaseObject.find_key. rewrite Hf. simpl.
    set (o' := MkInstance (cls o) (dict_set (dict_ o) a v)).
    assert (Hi : (i < length (objs mm))%nat) by (eapply lookup_lt_Some; eauto).
    assert (Ho' : <[i := o']> (objs mm) !! i = Some o')
      by (by apply list_lookup_insert_eq).
    assert (Hac : a <> "__c__").
    { intros ->. congruence. }
    unfold BaseObject.self_c_clear. simpl. rewrite Ho'. simpl.
    rewrite dict_get_set_ne by done. rewrite Hc.
    eexists _, o'. split; [reflexivity|]. simpl.
    split; [done|]. split; [by apply dict_keys_set_in|].
    split; [apply dict_get_set_eq|].
    split; [intros b Hb; by apply dict_get_set_ne|].
    unfold BaseObject.getattr. rewrite Ho'. unfold BaseObject.getattr_dict.
    rewrite Hdu. simpl.
    assert (Hnd' : NoDup (List.map lower (dict_keys (dict_set (dict_ o) a v))))
      by (by rewrite dict_keys_set_in).
    destruct (dict_get (dict_set (dict_ o) a v) name') as [w|] eqn:Ew.
    + assert (name' = a) as ->.
      { apply (lower_key_inj (dict_keys (dict_ o))); try done.
        apply dict_get_in_keys in Ew. by rewrite dict_keys_set_in in Ew. }
      rewrite dict_get_set_eq in Ew. congruence.
    + unfold BaseObject.__getattr__.
      rewrite (find_lower_unique _ a v name' Hnd' (dict_get_set_eq _ _ _) Hl').
      done.
  - intros mm kind cid names types args kwargs cvals
      Hc Hn Ht Hlen Hnd Hb Hk Hndk Hco.
    destruct (new_builds construct mm kind cid names types args kwargs cvals
                Hc Hn Ht Hlen Hb Hk Hco)
      as (mm' & dvals & Hnew & Hd & Hobjs & _).
    exists mm', (length (objs mm)),
      (MkInstance cid (new_dict names dvals cvals kwargs)).
    split; [done|]. split; [rewrite Hobjs; by apply list_lookup_middle|].
    split; [intros k v Hin; simpl; by apply new_dict_named|].
    intros j a Ha Hnk. simpl. rewrite <- Hd. case_decide as Hj.
    + destruct (lookup_lt_is_Some_2 cvals j Hj) as [x Hx]. rewrite Hx.
      by apply (new_dict_positional names dvals cvals kwargs j a x).
    + destruct (lookup_lt_is_Some_2 dvals j) as [x Hx].
      { rewrite Hd, default_values_length by done.
        rewrite <- Hlen. eapply lookup_lt_Some; eauto. }
      rewrite Hx.
      apply (new_dict_default names dvals cvals kwargs j a x); try done. lia.
Qed.

End AnyCase.

Section AnyCaseExample.

#[local] Existing Instance ascii_lower.

Lemma setattr_getattr_any_case_witness :
  exists mm' o',
    BaseObject.__setattr__ mm_nick 0 "Age" (VInt 41) = (mm', Ok tt)
    /\ objs mm' !! 0%nat = Some o'
    /\ dict_keys (dict_ o') = ["name"; "age"; "nick"]
    /\ dict_get (dict_ o') "age" = Some (VInt 41)
    /\ (forall b, b <> "age" ->
          dict_get (dict_ o') b
          = dict_get [("name", VStr ""); ("age", VInt 0); ("nick", VStr "Bo")] b)
    /\ BaseObject.getattr (objs mm') 0 "AGE" = Ok (VInt 41).
Proof.
  apply (proj1 (setattr_getattr_any_case construct_simple) mm_nick 0%nat
           (MkInstance 0 [("name", VStr ""); ("age", VInt 0); ("nick", VStr "Bo")])
           "age" "Age" "AGE" (VInt 41)).
  - vm_compute; reflexivity.
  - simpl. right. left.
  - apply (bool_decide_unpack _). vm_compute. exact I.
  - reflexivity.
  - reflexivity.
  - reflexivity.
  - reflexivity.
Defined.

End AnyCaseExample.

(** ** Association lookup *)

Section Lookup.

Context {str_lower : StrLower}.

(** Does instance [i] match every pair of the key?  (A name that does not
    resolve counts as no match; [matches] raises there.) *)
Definition match_all (objs : list Instance) (kw : pydict) (i : nat) : bool :=
  forallb (fun kv =>
             match BaseObject.getattr objs i (fst kv) with
             | Ok x => py_eq x (snd kv)
             | Raise _ => false
             end) kw.

Lemma matches_resolved objs i kw :
  (forall kv, kv ∈ kw -> exists x, BaseObject.getattr objs i (fst kv) = Ok x) ->
  matches objs i kw = Ok (match_all objs kw i).
Proof.
  induction kw as [|[n v] kw IH]; intros Hres; [done|].
  simpl. destruct (Hres (n, v)) as [x Hx]; [by left|]. simpl in Hx.
  rewrite Hx. destruct (py_eq x v); [|done].
  apply IH. intros kv Hkv. apply Hres. by right.
Qed.

Lemma scan_resolved objs many kw table :
  (forall i kv, i ∈ table -> kv ∈ kw ->
     exists x, BaseObject.getattr objs i (fst kv) = Ok x) ->
  scan objs many kw table
  = Ok (if many then List.filter (match_all objs kw) table
        else take 1 (List.filter (match_all objs kw) table)).
Proof.
  induction table as [|i table IH]; intros Hres.
  - simpl. by destruct many.
  - simpl. rewrite matches_resolved by (intros kv Hkv; apply Hres; [by left|done]).
    rewrite IH by (intros j kv Hj Hkv; apply Hres; [by right|done]).
    destruct (match_all objs kw i); by destruct many.
Qed.

Lemma dyadic_eqb_refl m e : dyadic_eqb m e m e = true.
Proof. unfold dyadic_eqb. apply Z.eqb_refl. Qed.

Lemma py_eq_refl v : py_eq v v = true.
Proof.
  destruct v as [|b|z|m e|s|u|i]; unfold py_eq; simpl;
    auto using dyadic_eqb_refl, Z.eqb_refl, String.eqb_refl, Nat.eqb_refl.
Qed.

Lemma joinkey_eqb_refl k : joinkey_eqb k k = true.
Proof.
  unfold joinkey_eqb. rewrite Nat.eqb_refl. simpl.
  apply forallb_forall. intros [n v] Hin. unfold pair_in.
  apply existsb_exists. exists (n, v). split; [done|]. simpl.
  by rewrite String.eqb_refl, py_eq_refl.
Qed.

Lemma cache_get_app c1 c2 k :
  cache_get (c1 ++ c2) k
  = match cache_get c1 k with Some r => Some r | None => cache_get c2 k end.
Proof.
  induction c1 as [|[k' r'] c1 IH]; [done|]. simpl.
  by destruct (joinkey_eqb k' k).
Qed.

Lemma cache_of_store mm cid k r K :
  class_heap mm !! cid = Some K ->
  cache_of (cache_store mm cid k r) cid = cache_of mm cid ++ [(k, r)].
Proof.
  intros HK. unfold cache_of, cache_store. simpl.
  by rewrite list_lookup_alter_eq, HK.
Qed.

Lemma cache_of_store_ne mm cid cid' k r :
  cid <> cid' -> cache_of (cache_store mm cid k r) cid' = cache_of mm cid'.
Proof.
  intros Hne. unfold cache_of, cache_store. simpl.
  by rewrite list_lookup_alter_ne.
Qed.

(** C2 (amended).  A lookup whose target class has no instance table
    returns an empty set and neither reads nor writes the cache.
    Otherwise, with the source's join attributes resolved to [vals] and
    the join key built from the target's join attributes, [vals] and the
    extra keywords: a key found in the target class's cache gives the
    cached set and leaves the registry unchanged; a key not found (and
    resolvable on every instance of the table) gives the instances of the
    table that match every pair, in table order, only the first of them
    when the link's cardinality is not many, and that set is stored under
    the key while the tables and instances stay as they were. *)
Theorem select_endpoint_lookup mm inst source target kwargs :
  (instances mm !! AssociationLink.kind target = None ->
   _select_endpoint mm inst source target kwargs = (mm, Ok []))
  /\ (forall table vals cid,
        instances mm !! AssociationLink.kind target = Some table ->
        getattrs (objs mm) inst (AssociationLink.ids source) = Ok vals ->
        classes mm !! AssociationLink.kind target = Some cid ->
        (forall r,
           cache_get (cache_of mm cid) (join_kwargs target vals kwargs) = Some r ->
           _select_endpoint mm inst source target kwargs = (mm, Ok r))
        /\ (cache_get (cache_of mm cid) (join_kwargs target vals kwargs) = None ->
            is_Some (class_heap mm !! cid) ->
            clashes ["self"; "kind"; "many"] (join_kwargs target vals kwargs) = false ->
            (forall i kv, i ∈ table -> kv ∈ join_kwargs target vals kwargs ->
               exists x, BaseObject.getattr (objs mm) i (fst kv) = Ok x) ->
            exists mm',
              _select_endpoint mm inst source target kwargs
              = (mm',
                 Ok (QuerySet_of
                       (if AssociationLink.is_many target
                        then List.filter
                               (match_all (objs mm) (join_kwargs target vals kwargs))
                               table
                        else take 1
                               (List.filter
                                  (match_all (objs mm) (join_kwargs target vals kwargs))
                                  table))))
              /\ cache_get (cache_of mm' cid) (join_kwargs target vals kwargs)
                 = Some (QuerySet_of
                       (if AssociationLink.is_many target
                        then List.filter
                               (match_all (objs mm) (join_kwargs target vals kwargs))
                               table
                        else take 1
                               (List.filter
                                  (match_all (objs mm) (join_kwargs target vals kwargs))
                                  table)))
              /\ instances mm' = instances mm
              /\ objs mm' = objs mm)).
Proof.
  split.
  - intros Hnone. unfold _select_endpoint. by rewrite Hnone.
  - intros table vals cid Ht Hv Hc. split.
    + intros r Hr. unfold _select_endpoint. by rewrite Ht, Hv, Hc, Hr.
    + intros Hmiss [K HK] Hcl Hres.
      unfold _select_endpoint. rewrite Ht, Hv, Hc, Hmiss.
      unfold _query. rewrite Hcl, Ht.
      rewrite scan_resolved by done.
      eexists. split; [reflexivity|].
      split; [|done].
      rewrite (cache_of_store _ _ _ _ K HK), cache_get_app, Hmiss. simpl.
      by rewrite joinkey_eqb_refl.
Qed.

End Lookup.

Section ShopExamples.

#[local] Existing Instance ascii_lower.

(** The scenario of two classes linked by R1 (Order 1 --- M Item). *)
Definition order_end : AssociationLink.t :=
  SingleAssociationLink "Order" false ["id"] "".

Definition item_end : AssociationLink.t :=
  ManyAssociationLink "Item" false ["order_id"] "".

Definition mm_shop_classes : MetaModel :=
  let mm1 := fst (define_class mm_empty "Order" [("id", "integer")]) in
  let mm2 := fst (define_class mm1 "Item"
                    [("order_id", "integer"); ("sku", "string")]) in
  fst (define_association mm2 "R1" order_end item_end).

(** One order, no item yet. *)
Definition mm_shop_order : MetaModel :=
  fst (new construct_simple mm_shop_classes "Order" [VInt 1] []).

(** One order (instance 0) and three items (1, 2, 3); items 1 and 3
    refer to the order. *)
Definition mm_shop : MetaModel :=
  let mm1 := fst (new construct_simple mm_shop_order "Item" [VInt 1; VStr "a"] []) in
  let mm2 := fst (new construct_simple mm1 "Item" [VInt 2; VStr "b"] []) in
  fst (new construct_simple mm2 "Item" [VInt 1; VStr "c"] []).

(** C2, as stated, fails when the target class has no instance table:
    the lookup from the order to its items, before any item exists, returns
    the empty set without storing it; the cache of [Item] has no entry
    under the join key afterwards. *)
Lemma select_endpoint_no_table :
  instances mm_shop_order !! "Item" = None
  /\ cache_get (cache_of_kind mm_shop_order "Item") [("order_id", VInt 1)] = None
  /\ snd (_select_endpoint mm_shop_order 0 order_end item_end []) = Ok []
  /\ cache_get
       (cache_of_kind (fst (_select_endpoint mm_shop_order 0 order_end item_end []))
          "Item")
       [("order_id", VInt 1)] = None.
Proof. vm_compute. repeat split; reflexivity. Qed.

Lemma select_endpoint_lookup_witness :
  exists mm',
    _select_endpoint mm_shop 0 order_end item_end [] = (mm', Ok [1; 3]%nat)
    /\ cache_get (cache_of mm' 1) [("order_id", VInt 1)] = Some [1; 3]%nat
    /\ instances mm' = instances mm_shop
    /\ objs mm' = objs mm_shop.
Proof.
  apply (proj2 (proj2 (select_endpoint_lookup mm_shop 0%nat order_end item_end [])
                  [1; 2; 3]%nat [VInt 1] 1%nat
                  ltac:(vm_compute; reflexivity)
                  ltac:(vm_compute; reflexivity)
                  ltac:(vm_compute; reflexivity))).
  - vm_compute; reflexivity.
  - eexists. vm_compute. reflexivity.
  - reflexivity.
  - intros i kv Hi Hkv.
    apply list_elem_of_singleton in Hkv as ->.
    repeat (apply elem_of_cons in Hi as [->|Hi]; [eexists; vm_compute; reflexivity|]).
    by apply elem_of_nil in Hi.
Defined.

End ShopExamples.

Section Evaluation.

Context {str_lower : StrLower}.

Lemma select_endpoint_miss mm inst source target kwargs table vals cid :
  instances mm !! AssociationLink.kind target = Some table ->
  getattrs (objs mm) inst (AssociationLink.ids source) = Ok vals ->
  classes mm !! AssociationLink.kind target = Some cid ->
  cache_get (cache_of mm cid) (join_kwargs target vals kwargs) = None ->
  clashes ["self"; "kind"; "many"] (join_kwargs target vals kwargs) = false ->
  (forall i kv, i ∈ table -> kv ∈ join_kwargs target vals kwargs ->
     exists x, BaseObject.getattr (objs mm) i (fst kv) = Ok x) ->
  _select_endpoint mm inst source target kwargs
  = (let kw := join_kwargs target vals kwargs in
     let found := List.filter (match_all (objs mm) kw) table in
     let r := QuerySet_of (if AssociationLink.is_many target then found
                           else take 1 found) in
     (cache_store mm cid kw r, Ok r)).
Proof.
  intros Ht Hv Hc Hmiss Hcl Hres.
  unfold _select_endpoint. rewrite Ht, Hv, Hc, Hmiss.
  unfold _query. rewrite Hcl, Ht.
  by rewrite scan_resolved.
Qed.

(** ** Navigation chains *)

(** Does the optional where-clause accept the instance? *)
Definition accepts (w : option (nat -> bool)) (i : nat) : bool :=
  match w with
  | None => true
  | Some f => f i
  end.

Lemma filtered_filter w h : NavChain.filtered w h = List.filter (accepts w) h.
Proof.
  destruct w as [f|]; [done|]. simpl.
  induction h as [|x h IH]; [done|]. simpl. by f_equal.
Qed.

Lemma head_filter_Some (f : nat -> bool) l i :
  head (List.filter f l) = Some i <->
  exists l1 l2, l = l1 ++ i :: l2 /\ f i = true /\ Forall (fun x => f x = false) l1.
Proof.
  induction l as [|x l IH]; simpl.
  - split; [done|]. intros (l1 & l2 & Hl & _). by destruct l1.
  - destruct (f x) eqn:Ex; simpl.
    + split.
      * intros [= ->]. exists [], l. by repeat split.
      * intros (l1 & l2 & Hl & Hi & Hall).
        destruct l1 as [|y l1]; simpl in Hl; inversion Hl; subst; [done|].
        apply Forall_cons in Hall as [Hy _]. congruence.
    + rewrite IH. split.
      * intros (l1 & l2 & -> & Hi & Hall). exists (x :: l1), l2.
        split; [done|]. split; [done|]. by apply Forall_cons.
      * intros (l1 & l2 & Hl & Hi & Hall).
        destruct l1 as [|y l1]; simpl in Hl; inversion Hl; subst; [congruence|].
        apply Forall_cons in Hall as [_ Hall]. eauto.
Qed.

Lemma head_filter_None (f : nat -> bool) l :
  head (List.filter f l) = None <-> Forall (fun x => f x = false) l.
Proof.
  induction l as [|x l IH]; simpl.
  - split; [by constructor|done].
  - destruct (f x) eqn:Ex; simpl.
    + split; [done|]. intros Hall. apply Forall_cons in Hall as [Hx _]. congruence.
    + rewrite IH. split; [by constructor|].
      intros Hall. by apply Forall_cons in Hall as [_ ?].
Qed.

Lemma QuerySet_of_NoDup l : NoDup l -> QuerySet_of l = l.
Proof. apply OrderedSet.ior_list_nil_NoDup. Qed.

Lemma QuerySet_of_is_NoDup l : NoDup (QuerySet_of l).
Proof. apply OrderedSet.ior_list_NoDup. constructor. Qed.

Lemma NoDup_List_filter {A} (f : A -> bool) (l : list A) :
  NoDup l -> NoDup (List.filter f l).
Proof.
  induction l as [|x l IH]; intros Hnd; simpl; [constructor|].
  apply NoDup_cons in Hnd as [Hx Hnd].
  destruct (f x); [|by apply IH].
  apply NoDup_cons. split; [|by apply IH].
  intros Hin. apply Hx. apply list_elem_of_In in Hin.
  apply filter_In in Hin as [Hin _]. by apply list_elem_of_In.
Qed.

Lemma NoDup_take_1 (l : list nat) : NoDup (take 1 l).
Proof.
  destruct l as [|x l]; simpl; [constructor|]. rewrite take_0.
  apply NoDup_singleton.
Qed.

(** C8.  Evaluating a chain whose intent is "one" returns the first
    instance of the bound set that the where-clause accepts (all bound
    instances before it are rejected), and [None] exactly when none is
    accepted; with intent "many" it returns the accepted instances of the
    bound set, in order.  Navigating from one instance over a link of
    cardinality [1C] (on a cache miss, with resolvable join attributes)
    binds at most the first matching peer, so the "one" evaluation returns
    [None] when no peer matches and the peer otherwise. *)
Theorem navchain_call :
  (forall nc w,
     NavChain.is_many nc = false ->
     (forall i,
        NavChain.__call__ nc w = NavChain.One (Some i) <->
        exists l1 l2,
          NavChain.handle nc = l1 ++ i :: l2 /\ accepts w i = true
          /\ Forall (fun x => accepts w x = false) l1)
     /\ (NavChain.__call__ nc w = NavChain.One None <->
         Forall (fun x => accepts w x = false) (NavChain.handle nc)))
  /\ (forall nc w,
        NavChain.is_many nc = true ->
        NoDup (NavChain.handle nc) ->
        NavChain.__call__ nc w
        = NavChain.Many (List.filter (accepts w) (NavChain.handle nc)))
  /\ (forall mm i kd relid phrase source target table vals cid w,
        NavChain.lookup_q mm i (Some kd) (NavChain.relid_str relid) phrase
          = Ok (source, target) ->
        AssociationLink.cardinality target = "1C" ->
        instances mm !! AssociationLink.kind target = Some table ->
        getattrs (objs mm) i (AssociationLink.ids source) = Ok vals ->
        classes mm !! AssociationLink.kind target = Some cid ->
        cache_get (cache_of mm cid) (join_kwargs target vals []) = None ->
        clashes ["self"; "kind"; "many"] (join_kwargs target vals []) = false ->
        (forall j kv, j ∈ table -> kv ∈ join_kwargs target vals [] ->
           exists x, BaseObject.getattr (objs mm) j (fst kv) = Ok x) ->
        exists nc0 mm1 nc1,
          navigate_one (NavChain.HInst i) = Ok nc0
          /\ NavChain.__getitem__ mm (NavChain.__getattr__ nc0 kd) relid (Some phrase)
             = (mm1, Ok nc1)
          /\ NavChain.__call__ nc1 None
             = NavChain.One
                 (head (List.filter
                          (match_all (objs mm) (join_kwargs target vals [])) table))
          /\ NavChain.__call__ nc1 w
             = NavChain.One
                 (head (List.filter (accepts w)
                    (take 1 (List.filter
                       (match_all (objs mm) (join_kwargs target vals [])) table))))).
Proof.
  split; [|split].
  - intros nc w Hone. unfold NavChain.__call__. rewrite Hone, filtered_filter.
    split.
    + intros i. rewrite <- head_filter_Some. split; [by intros [= ->]|by intros ->].
    + rewrite <- head_filter_None. split; [by intros [= ->]|by intros ->].
  - intros nc w Hmany Hnd. unfold NavChain.__call__.
    rewrite Hmany, filtered_filter.
    rewrite QuerySet_of_NoDup; [done|]. by apply NoDup_List_filter.
  - intros mm i kd relid phrase source target table vals cid w
      Hq Hcard Ht Hv Hc Hmiss Hcl Hres.
    assert (Hmany : AssociationLink.is_many target = false).
    { unfold AssociationLink.is_many. by rewrite Hcard. }
    pose proof (select_endpoint_miss mm i source target [] table vals cid
                  Ht Hv Hc Hmiss Hcl Hres) as Hsel.
    rewrite Hmany in Hsel. simpl in Hsel.
    set (found := List.filter (match_all (objs mm) (join_kwargs target vals [])) table) in *.
    rewrite (QuerySet_of_NoDup (take 1 found)) in Hsel by apply NoDup_take_1.
    eexists _, _, _. split; [reflexivity|].
    unfold NavChain.__getitem__, NavChain.__getattr__, NavChain.nav. simpl.
    rewrite Hq, Hsel. simpl.
    split; [reflexivity|].
    unfold NavChain.__call__. simpl.
    assert (Hior : QuerySet_ior [] (take 1 found) = take 1 found).
    { apply OrderedSet.ior_list_nil_NoDup, NoDup_take_1. }
    unfold QuerySet_of. simpl. rewrite Hior.
    split.
    + f_equal. by destruct found.
    + by rewrite filtered_filter.
Qed.

End Evaluation.

Section ClubExample.

#[local] Existing Instance ascii_lower.

(** Members and lockers, R2 (Member 1 --- 1C Locker): member 0 has no
    locker, member 1 has locker 2. *)
Definition member_end : AssociationLink.t :=
  SingleAssociationLink "Member" false ["id"] "".

Definition locker_end : AssociationLink.t :=
  SingleAssociationLink "Locker" true ["member_id"] "".

Definition mm_club : MetaModel :=
  let mm1 := fst (define_class mm_empty "Member" [("id", "integer")]) in
  let mm2 := fst (define_class mm1 "Locker" [("member_id", "integer")]) in
  let mm3 := fst (define_association mm2 "R2" member_end locker_end) in
  let mm4 := fst (new construct_simple mm3 "Member" [VInt 1] []) in
  let mm5 := fst (new construct_simple mm4 "Member" [VInt 2] []) in
  fst (new construct_simple mm5 "Locker" [VInt 2] []).

Lemma navchain_call_witness :
  exists nc0 mm1 nc1,
    navigate_one (NavChain.HInst 0) = Ok nc0
    /\ NavChain.__getitem__ mm_club (NavChain.__getattr__ nc0 "Locker")
         (inl 2%Z) (Some "") = (mm1, Ok nc1)
    /\ NavChain.__call__ nc1 None = NavChain.One None
    /\ NavChain.__call__ nc1 (Some (fun _ => true)) = NavChain.One None.
Proof.
  apply (proj2 (proj2 navchain_call) mm_club 0%nat "Locker" (inl 2%Z) ""
           member_end locker_end [2%nat] [VInt 1] 1%nat (Some (fun _ => true))).
  - vm_compute; reflexivity.
  - reflexivity.
  - vm_compute; reflexivity.
  - vm_compute; reflexivity.
  - vm_compute; reflexivity.
  - vm_compute; reflexivity.
  - reflexivity.
  - intros j kv Hj Hkv.
    apply list_elem_of_singleton in Hkv as ->.
    apply list_elem_of_singleton in Hj as ->.
    eexists. vm_compute. reflexivity.
Defined.

End ClubExample.

(** ** The caches are never stale *)

Section Freshness.

Context {str_lower : StrLower}.

(** [matches] and [scan] look only at the instances of the table. *)
Lemma getattr_ext objs objs' i name :
  objs' !! i = objs !! i ->
  BaseObject.getattr objs' i name = BaseObject.getattr objs i name.
Proof. intros Hi. unfold BaseObject.getattr. by rewrite Hi. Qed.

Lemma matches_ext objs objs' i kw :
  objs' !! i = objs !! i -> matches objs' i kw = matches objs i kw.
Proof.
  intros Hi. induction kw as [|[n v] kw IH]; [done|]. simpl.
  rewrite (getattr_ext objs objs' i n Hi).
  destruct (BaseObject.getattr objs i n) as [x|]; [|done].
  by destruct (py_eq x v).
Qed.

Lemma scan_ext objs objs' many kw table :
  (forall j, j ∈ table -> objs' !! j = objs !! j) ->
  scan objs' many kw table = scan objs many kw table.
Proof.
  induction table as [|i table IH]; intros Hag; [done|]. simpl.
  rewrite (matches_ext objs objs' i kw) by (apply Hag; by left).
  rewrite IH by (intros j Hj; apply Hag; by right). done.
Qed.

Lemma query_ext mm mm' kind many kw :
  instances mm' !! kind = instances mm !! kind ->
  (forall table j, instances mm !! kind = Some table -> j ∈ table ->
     objs mm' !! j = objs mm !! j) ->
  _query mm' kind many kw = _query mm kind many kw.
Proof.
  intros Hi Ho. unfold _query. rewrite Hi.
  destruct (clashes _ kw); [done|].
  destruct (instances mm !! kind) as [table|] eqn:Et; [|done].
  apply scan_ext. intros j Hj. by apply (Ho table).
Qed.

(** The invariant of the registry. *)
Record Inv (mm : MetaModel) : Prop := MkInv {
  (* class names are bound to distinct class objects of the heap *)
  inv_cids : forall kind cid,
    classes mm !! kind = Some cid -> (cid < length (class_heap mm))%nat;
  inv_inj : forall k1 k2 cid,
    classes mm !! k1 = Some cid -> classes mm !! k2 = Some cid -> k1 = k2;
  (* no parameter and no slot is called [__c__] *)
  inv_names : forall kind names,
    param_names mm !! kind = Some names -> "__c__" ∉ names;
  inv_slots : forall i o,
    objs mm !! i = Some o -> dict_get (dict_ o) "__c__" = None;
  (* the table of a class lists instances of the class object bound to it *)
  inv_table : forall kind table i,
    instances mm !! kind = Some table -> i ∈ table ->
    exists o cid, objs mm !! i = Some o /\ classes mm !! kind = Some cid
                  /\ cls o = cid;
  (* every cached set is what scanning the table gives now *)
  inv_fresh : forall kind cid k r,
    classes mm !! kind = Some cid -> (k, r) ∈ cache_of mm cid ->
    exists many l, _query mm kind many k = Ok l /\ r = QuerySet_of l
}.

Lemma Inv_init g : Inv (MetaModel_init g).
Proof.
  split; simpl; intros *.
  - by rewrite lookup_empty.
  - by rewrite lookup_empty.
  - by rewrite lookup_empty.
  - by rewrite lookup_nil.
  - by rewrite lookup_empty.
  - by rewrite lookup_empty.
Qed.

(** [touch ks i mm mm']: from [mm] to [mm'] only the slots named in [ks]
    of instance [i] (and the identity source) may have changed. *)
Definition touch (ks : list string) (i : nat) (mm mm' : MetaModel) : Prop :=
  classes mm' = classes mm /\ class_heap mm' = class_heap mm
  /\ instances mm' = instances mm
  /\ param_names mm' = param_names mm /\ param_types mm' = param_types mm
  /\ ignore_undefined_classes mm' = ignore_undefined_classes mm
  /\ exists f, objs mm' = upd_dict f i (objs mm)
       /\ forall d k, k ∉ ks -> dict_get (f d) k = dict_get d k.

Lemma touch_refl ks i mm : touch ks i mm mm.
Proof.
  repeat split. exists (fun d => d). split; [by rewrite upd_dict_id|done].
Qed.

Lemma touch_trans ks i mm1 mm2 mm3 :
  touch ks i mm1 mm2 -> touch ks i mm2 mm3 -> touch ks i mm1 mm3.
Proof.
  intros (Hc & Hh & Hi & Hn & Ht & Hg & f & Hf & Hfk)
         (Hc' & Hh' & Hi' & Hn' & Ht' & Hg' & f' & Hf' & Hfk').
  repeat split; try congruence.
  exists (fun d => f' (f d)). split.
  - by rewrite Hf', Hf, upd_dict_compose.
  - intros d k Hk. rewrite Hfk' by done. by apply Hfk.
Qed.

Lemma touch_weaken ks ks' i mm mm' :
  (forall k, k ∈ ks -> k ∈ ks') -> touch ks i mm mm' -> touch ks' i mm mm'.
Proof.
  intros Hsub (Hc & Hh & Hi & Hn & Ht & Hg & f & Hf & Hfk).
  repeat split; try done. exists f. split; [done|].
  intros d k Hk. apply Hfk. intros Hin. apply Hk. by apply Hsub.
Qed.

Lemma touch_set_slot mm i key v : touch [key] i mm (set_slot mm i key v).
Proof.
  repeat split. exists (fun d => dict_set d key v). split; [done|].
  intros d k Hk. apply dict_get_set_ne. intros ->. apply Hk. by left.
Qed.

Lemma touch_with_id_generator ks i mm g :
  touch ks i mm (with_id_generator mm g).
Proof.
  repeat split. exists (fun d => d). split; [|done].
  simpl. by rewrite upd_dict_id.
Qed.

Lemma touch_set_defaults attrs : forall mm i,
  touch (List.map fst attrs) i mm (fst (set_defaults mm i attrs)).
Proof.
  induction attrs as [|[key ty] attrs IH]; intros mm i; simpl.
  - apply touch_refl.
  - destruct (default_value (id_generator mm) ty) as [g [v|e]]; simpl.
    + eapply touch_trans; [|eapply touch_weaken; [|apply IH]].
      * eapply touch_trans; [apply touch_with_id_generator|].
        eapply touch_weaken; [|apply touch_set_slot].
        intros k Hk. apply list_elem_of_singleton in Hk as ->. by left.
      * intros k Hk. by right.
    + apply touch_with_id_generator.
Qed.

Lemma touch_set_positional construct attrs : forall args mm i,
  touch (List.map fst attrs) i mm (fst (set_positional construct mm i attrs args)).
Proof.
  induction attrs as [|[key ty] attrs IH]; intros [|v args] mm i; simpl;
    try apply touch_refl.
  destruct (coerce construct mm ty v) as [v'|e]; simpl; [|apply touch_refl].
  eapply touch_trans; [|eapply touch_weaken; [|apply IH]].
  - eapply touch_weaken; [|apply touch_set_slot].
    intros k Hk. apply list_elem_of_singleton in Hk as ->. by left.
  - intros k Hk. by right.
Qed.

Lemma touch_update_slots mm i kwargs :
  touch (dict_keys kwargs) i mm (update_slots mm i kwargs).
Proof.
  repeat split. exists (fun d => dict_update d kwargs). split; [done|].
  intros d k Hk. by apply dict_get_update_notin.
Qed.

Lemma in_map_fst_zip (names types : list string) k :
  k ∈ List.map fst (zip names types) -> k ∈ names.
Proof.
  revert types. induction names as [|a names IH]; intros [|t types] Hk;
    simpl in Hk; try by apply elem_of_nil in Hk.
  apply elem_of_cons in Hk as [->|Hk]; [by left|]. right. by eapply IH.
Qed.

(** What a call of [new] does to the registry, whatever it returns: nothing,
    or it allocates an instance, clears the cache of the class, fills
    slots of the new instance only and, when it returns the instance,
    appends it to the table of its class. *)
Lemma new_cases construct mm kind args kwargs :
  (fst (new construct mm kind args kwargs) = mm
   /\ forall i, snd (new construct mm kind args kwargs) <> Ok (Some i))
  \/ exists cid mmf,
       classes mm !! kind = Some cid
       /\ touch (default [] (param_names mm !! kind) ++ dict_keys kwargs)
            (length (objs mm)) (fst (BaseObject.__init__ mm cid)) mmf
       /\ ((fst (new construct mm kind args kwargs) = mmf
            /\ forall i, snd (new construct mm kind args kwargs) <> Ok (Some i))
           \/ (fst (new construct mm kind args kwargs)
               = with_instances mmf
                   (<[kind := default [] (instances mm !! kind) ++ [length (objs mm)]]>
                      (instances mm))
               /\ snd (new construct mm kind args kwargs)
                  = Ok (Some (length (objs mm))))).
Proof.
  unfold new.
  destruct (clashes ["self"; "kind"] kwargs); [by left|].
  destruct (classes mm !! kind) as [cid|] eqn:Ec;
    [|destruct (ignore_undefined_classes mm); by left].
  right. exists cid.
  unfold BaseObject.__init__. simpl.
  set (mm1 := BaseObject.clear_cache
                (with_objs mm (objs mm ++ [MkInstance cid []])) cid).
  destruct (param_names mm !! kind) as [names|] eqn:En;
    [|exists mm1; split; [done|]; split; [apply touch_refl|by left]].
  destruct (param_types mm !! kind) as [types|] eqn:Et;
    [|exists mm1; split; [done|]; split; [apply touch_refl|by left]].
  simpl.
  pose proof (touch_set_defaults (zip names types) mm1 (length (objs mm))) as T1.
  destruct (set_defaults mm1 (length (objs mm)) (zip names types))
    as [mm2 [[]|e]] eqn:E2; simpl in T1.
  2:{ exists mm2. split; [done|]. split; [|by left].
      eapply touch_weaken; [|exact T1].
      intros k Hk. apply elem_of_app. left. by eapply in_map_fst_zip. }
  pose proof (touch_set_positional construct (zip names types) args mm2
                (length (objs mm))) as T2.
  destruct (set_positional construct mm2 (length (objs mm)) (zip names types) args)
    as [mm3 [[]|e]] eqn:E3; simpl in T2.
  2:{ exists mm3. split; [done|]. split; [|by left].
      eapply touch_trans; (eapply touch_weaken; [|eassumption]);
        intros k Hk; apply elem_of_app; left; by eapply in_map_fst_zip. }
  exists (update_slots mm3 (length (objs mm)) kwargs).
  split; [done|]. split.
  - eapply touch_trans; [eapply touch_trans|].
    + eapply touch_weaken; [|exact T1].
      intros k Hk. apply elem_of_app. left. by eapply in_map_fst_zip.
    + eapply touch_weaken; [|exact T2].
      intros k Hk. apply elem_of_app. left. by eapply in_map_fst_zip.
    + eapply touch_weaken; [|apply touch_update_slots].
      intros k Hk. apply elem_of_app. by right.
  - right. simpl. split; [|done].
    destruct T1 as (_ & _ & Hi1 & _). destruct T2 as (_ & _ & Hi2 & _).
    simpl in *. rewrite Hi2, Hi1. done.
Qed.

Lemma cache_of_heap mm mm' cid :
  class_heap mm' = class_heap mm -> cache_of mm' cid = cache_of mm cid.
Proof. intros Hh. unfold cache_of. by rewrite Hh. Qed.

Lemma cache_of_clear mm cid : cache_of (BaseObject.clear_cache mm cid) cid = [].
Proof.
  unfold cache_of, BaseObject.clear_cache. simpl.
  rewrite list_lookup_alter_eq. by destruct (class_heap mm !! cid).
Qed.

Lemma cache_of_clear_ne mm cid cid' :
  cid <> cid' -> cache_of (BaseObject.clear_cache mm cid) cid' = cache_of mm cid'.
Proof.
  intros Hne. unfold cache_of, BaseObject.clear_cache. simpl.
  by rewrite list_lookup_alter_ne.
Qed.

Lemma length_heap_clear mm cid :
  length (class_heap (BaseObject.clear_cache mm cid)) = length (class_heap mm).
Proof. unfold BaseObject.clear_cache. simpl. apply length_alter. Qed.

(** [new] keeps the invariant, whether it returns or raises. *)
Lemma Inv_new construct mm kind args kwargs :
  Inv mm -> "__c__" ∉ dict_keys kwargs ->
  Inv (fst (new construct mm kind args kwargs)).
Proof.
  intros HI Hkw.
  destruct (new_cases construct mm kind args kwargs)
    as [[-> _]|(cid & mmf & Hc & HT & Hres0)]; [done|].
  assert (Hres : fst (new construct mm kind args kwargs) = mmf
                 \/ fst (new construct mm kind args kwargs)
                    = with_instances mmf
                        (<[kind := default [] (instances mm !! kind)
                                   ++ [length (objs mm)]]> (instances mm)))
    by (destruct Hres0 as [[? _]|[? _]]; auto).
  clear Hres0.
  destruct HT as (Tc & Th & Ti & Tn & Tt & Tg & f & Tf & Tfk).
  unfold BaseObject.__init__ in *. simpl in *.
  rewrite upd_dict_new in Tf. simpl in Tf.
  assert (Hno : dict_get (f []) "__c__" = None).
  { rewrite Tfk; [done|]. intros Hin. apply elem_of_app in Hin as [Hin|Hin]; [|done].
    destruct (param_names mm !! kind) as [names|] eqn:En; simpl in Hin.
    - by apply (inv_names mm HI kind names En).
    - by apply elem_of_nil in Hin. }
  set (i := length (objs mm)) in *.
  set (mm' := fst (new construct mm kind args kwargs)) in *.
  assert (Hcl : classes mm' = classes mm) by (destruct Hres as [->| ->]; done).
  assert (Hpn : param_names mm' = param_names mm) by (destruct Hres as [->| ->]; done).
  assert (Hob : objs mm' = objs mm ++ [MkInstance cid (f [])])
    by (destruct Hres as [->| ->]; done).
  assert (Hhp : class_heap mm'
                = alter (fun k => MkClass (__q__ k) []) cid (class_heap mm))
    by (destruct Hres as [->| ->]; done).
  assert (Hold : forall j o, objs mm !! j = Some o -> objs mm' !! j = Some o).
  { intros j o Hj. rewrite Hob. by apply lookup_app_l_Some. }
  assert (Hins : forall kind0 table j,
             instances mm' !! kind0 = Some table -> j ∈ table ->
             (exists t0, instances mm !! kind0 = Some t0 /\ j ∈ t0)
             \/ (kind0 = kind /\ j = i)).
  { intros kind0 table j Ht Hj. destruct Hres as [E|E]; rewrite E in Ht; simpl in Ht.
    - rewrite Ti in Ht. left. eauto.
    - destruct (decide (kind = kind0)) as [->|Hne].
      + rewrite lookup_insert_eq in Ht. inversion Ht; subst table.
        apply elem_of_app in Hj as [Hj|Hj].
        * left. destruct (instances mm !! kind0) as [t0|]; simpl in Hj; [eauto|].
          by apply elem_of_nil in Hj.
        * right. apply list_elem_of_singleton in Hj. done.
      + rewrite lookup_insert_ne in Ht by done. left. eauto. }
  split.
  - intros kind0 cid0 Hk. rewrite Hcl in Hk. rewrite Hhp, length_alter.
    by eapply inv_cids.
  - intros k1 k2 cid0. rewrite Hcl. by apply inv_inj.
  - intros kind0 names. rewrite Hpn. by apply inv_names.
  - intros j o Hj. rewrite Hob in Hj.
    destruct (decide (j < i)%nat).
    + rewrite lookup_app_l in Hj by done. by eapply inv_slots.
    + rewrite lookup_app_r in Hj by (subst i; lia).
      destruct (j - length (objs mm))%nat as [|m]; simpl in Hj; [|by destruct m].
      by inversion Hj; subst.
  - intros kind0 table j Ht Hj. rewrite Hcl.
    destruct (Hins kind0 table j Ht Hj) as [(t0 & Ht0 & Hj0)|[-> ->]].
    + destruct (inv_table mm HI kind0 t0 j Ht0 Hj0) as (o & cid0 & Ho & Hc0 & Hcls).
      exists o, cid0. split; [by apply Hold|done].
    + exists (MkInstance cid (f [])), cid.
      split; [rewrite Hob; by apply list_lookup_middle|done].
  - intros kind0 cid0 k r Hk Hin. rewrite Hcl in Hk.
    unfold cache_of in Hin. rewrite Hhp in Hin.
    destruct (decide (cid = cid0)) as [->|Hne].
    + rewrite list_lookup_alter_eq in Hin.
      destruct (class_heap mm !! cid0); simpl in Hin; by apply elem_of_nil in Hin.
    + rewrite list_lookup_alter_ne in Hin by done.
      destruct (inv_fresh mm HI kind0 cid0 k r Hk Hin) as (many & l & Hq & Hr).
      exists many, l. split; [|done]. rewrite <- Hq.
      assert (Hkk : kind <> kind0) by (intros ->; congruence).
      apply query_ext.
      * destruct Hres as [E|E]; rewrite E; simpl; [by rewrite Ti|].
        by rewrite lookup_insert_ne.
      * intros table j Ht Hj.
        destruct (inv_table mm HI kind0 table j Ht Hj) as (o & _ & Ho & _).
        rewrite Ho. by apply Hold.
Qed.

Lemma find_key_in lname d attr :
  BaseObject.find_key lname d = Some attr -> attr ∈ dict_keys d.
Proof.
  unfold BaseObject.find_key. intros Hf.
  destruct (find _ d) as [[k v]|] eqn:E; [|done].
  simpl in Hf. inversion Hf; subst k.
  apply find_some in E as [Hin _].
  apply list_elem_of_In. unfold dict_keys.
  change attr with (fst (attr, v)). by apply in_map.
Qed.

(** A successful attribute assignment, on an instance without a slot
    [__c__]: the slot is set and the cache of the instance's class is
    cleared. *)
Lemma setattr_found mm i o attr name v :
  objs mm !! i = Some o ->
  BaseObject.find_key (lower name) (dict_ o) = Some attr ->
  dict_get (dict_ o) "__c__" = None ->
  BaseObject.__setattr__ mm i name v
  = (BaseObject.clear_cache
       (with_objs mm
          (<[i := MkInstance (cls o) (dict_set (dict_ o) attr v)]> (objs mm)))
       (cls o),
     Ok tt).
Proof.
  intros Ho Hf Hc. unfold BaseObject.__setattr__. rewrite Ho, Hf.
  unfold BaseObject.self_c_clear. simpl.
  rewrite list_lookup_insert_eq by (eapply lookup_lt_Some; eauto). simpl.
  rewrite dict_get_set_ne; [by rewrite Hc|].
  intros ->. apply find_key_in in Hf. apply dict_get_None in Hc. done.
Qed.

Lemma Inv_setattr mm i name v :
  Inv mm -> Inv (fst (BaseObject.__setattr__ mm i name v)).
Proof.
  intros HI.
  destruct (objs mm !! i) as [o|] eqn:Ho;
    [|unfold BaseObject.__setattr__; by rewrite Ho].
  destruct (BaseObject.find_key (lower name) (dict_ o)) as [attr|] eqn:Hf;
    [|unfold BaseObject.__setattr__; by rewrite Ho, Hf].
  pose proof (inv_slots mm HI i o Ho) as Hc.
  rewrite (setattr_found mm i o attr name v Ho Hf Hc). simpl.
  set (o' := MkInstance (cls o) (dict_set (dict_ o) attr v)).
  assert (Hi : (i < length (objs mm))%nat) by (eapply lookup_lt_Some; eauto).
  assert (Hlk : forall j, <[i := o']> (objs mm) !! j
                  = if decide (i = j) then Some o' else objs mm !! j).
  { intros j. case_decide as E.
    - subst. by apply list_lookup_insert_eq.
    - by apply list_lookup_insert_ne. }
  split; simpl.
  - intros kind cid Hk. rewrite length_alter. by eapply inv_cids.
  - by apply inv_inj.
  - by apply inv_names.
  - intros j oj. rewrite Hlk. case_decide as E.
    + intros [= <-]. simpl. rewrite dict_get_set_ne; [done|].
      intros ->. apply find_key_in in Hf. apply dict_get_None in Hc. done.
    + by apply inv_slots.
  - intros kind table j Ht Hj.
    destruct (inv_table mm HI kind table j Ht Hj) as (oj & cid & Hoj & Hcid & Hcls).
    rewrite Hlk. case_decide as E.
    + subst j. exists o', cid. split; [done|]. split; [done|].
      simpl. congruence.
    + eauto.
  - intros kind cid k r Hk Hin.
    change (cache_of _ cid) with
      (cache_of (BaseObject.clear_cache
                   (with_objs mm (<[i:=o']> (objs mm))) (cls o)) cid) in Hin.
    destruct (decide (cls o = cid)) as [E|Hne].
    + subst cid. rewrite cache_of_clear in Hin. by apply elem_of_nil in Hin.
    + rewrite cache_of_clear_ne in Hin by done.
      destruct (inv_fresh mm HI kind cid k r Hk Hin) as (many & l & Hq & Hr).
      exists many, l. split; [|done]. rewrite <- Hq.
      apply query_ext; [done|].
      intros table j Ht Hj. simpl. rewrite Hlk. case_decide as E; [|done].
      subst j. destruct (inv_table mm HI kind table i Ht Hj)
        as (oi & cid' & Hoi & Hcid' & Hcls).
      congruence.
Qed.

(** A lookup changes the registry only by storing, under a key the cache
    did not have, the set the scan has just returned. *)
Lemma select_endpoint_cases mm inst source target kwargs :
  (fst (_select_endpoint mm inst source target kwargs) = mm)
  \/ exists cid vals l,
       classes mm !! AssociationLink.kind target = Some cid
       /\ getattrs (objs mm) inst (AssociationLink.ids source) = Ok vals
       /\ cache_get (cache_of mm cid) (join_kwargs target vals kwargs) = None
       /\ _query mm (AssociationLink.kind target) (AssociationLink.is_many target)
            (join_kwargs target vals kwargs) = Ok l
       /\ _select_endpoint mm inst source target kwargs
          = (cache_store mm cid (join_kwargs target vals kwargs) (QuerySet_of l),
             Ok (QuerySet_of l)).
Proof.
  unfold _select_endpoint.
  destruct (instances mm !! AssociationLink.kind target) as [table|]; [|by left].
  destruct (getattrs (objs mm) inst (AssociationLink.ids source)) as [vals|];
    [|by left].
  destruct (classes mm !! AssociationLink.kind target) as [cid|]; [|by left].
  destruct (cache_get (cache_of mm cid) (join_kwargs target vals kwargs))
    as [r|] eqn:Eg; [by left|].
  destruct (_query mm (AssociationLink.kind target) (AssociationLink.is_many target)
              (join_kwargs target vals kwargs)) as [found|] eqn:Eq; [|by left].
  right. exists cid, vals, found. done.
Qed.

Lemma Inv_cache_store mm kind cid k many l :
  Inv mm -> classes mm !! kind = Some cid ->
  _query mm kind many k = Ok l ->
  Inv (cache_store mm cid k (QuerySet_of l)).
Proof.
  intros HI Hc Hq. split; simpl.
  - intros kind0 cid0 Hk. rewrite length_alter. by eapply inv_cids.
  - by apply inv_inj.
  - by apply inv_names.
  - by apply inv_slots.
  - by apply inv_table.
  - intros kind0 cid0 k0 r0 Hk Hin.
    assert (Hqq : forall m, _query (cache_store mm cid k (QuerySet_of l)) kind0 m k0
                       = _query mm kind0 m k0) by done.
    destruct (decide (cid = cid0)) as [<-|Hne].
    + assert (kind0 = kind) as -> by (by eapply inv_inj).
      destruct (class_heap mm !! cid) as [K|] eqn:EK.
      * rewrite (cache_of_store mm cid k _ K EK) in Hin.
        apply elem_of_app in Hin as [Hin|Hin].
        -- destruct (inv_fresh mm HI kind cid k0 r0 Hc Hin) as (m & l0 & ? & ?).
           exists m, l0. by rewrite Hqq.
        -- apply list_elem_of_singleton in Hin. inversion Hin; subst.
           exists many, l. by rewrite Hqq.
      * exfalso. apply (inv_cids mm HI) in Hc.
        apply lookup_ge_None in EK. lia.
    + rewrite cache_of_store_ne in Hin by done.
      destruct (inv_fresh mm HI kind0 cid0 k0 r0 Hk Hin) as (m & l0 & ? & ?).
      exists m, l0. by rewrite Hqq.
Qed.

Lemma Inv_select_endpoint mm inst source target kwargs :
  Inv mm -> Inv (fst (_select_endpoint mm inst source target kwargs)).
Proof.
  intros HI.
  destruct (select_endpoint_cases mm inst source target kwargs)
    as [->|(cid & vals & l & Hc & _ & _ & Hq & ->)]; [done|].
  simpl. by eapply Inv_cache_store.
Qed.

Lemma Inv_nav_loop kd relid phrase children : forall mm result,
  Inv mm -> Inv (fst (NavChain.nav_loop mm kd relid phrase children result)).
Proof.
  induction children as [|child children IH]; intros mm result HI; [done|].
  simpl. destruct (NavChain.lookup_q mm child kd relid phrase) as [[s t]|]; [|done].
  pose proof (Inv_select_endpoint mm child s t [] HI) as HI'.
  destruct (_select_endpoint mm child s t []) as [mm' [r|e]]; simpl in *; [|done].
  by apply IH.
Qed.

Lemma Inv_nav mm nc kd relid phrase :
  Inv mm -> Inv (fst (NavChain.nav mm nc kd relid phrase)).
Proof.
  intros HI. unfold NavChain.nav.
  pose proof (Inv_nav_loop kd (NavChain.relid_str relid) phrase
                (NavChain.handle nc) mm (QuerySet_of []) HI) as H.
  by destruct (NavChain.nav_loop _ _ _ _ _ _) as [mm' [r|e]].
Qed.

Lemma Inv_define_class mm kind attrs :
  Inv mm -> classes mm !! kind = None -> "__c__" ∉ List.map fst attrs ->
  Inv (fst (define_class mm kind attrs)).
Proof.
  intros HI Hfresh Hattrs. split; simpl.
  - intros kind0 cid Hk. rewrite length_app. simpl.
    rewrite lookup_insert in Hk. case_decide.
    + inversion Hk. lia.
    + apply (inv_cids mm HI) in Hk. lia.
  - intros k1 k2 cid H1 H2.
    destruct (decide (kind = k1)) as [<-|N1]; destruct (decide (kind = k2)) as [<-|N2].
    + done.
    + rewrite lookup_insert_eq in H1. rewrite lookup_insert_ne in H2 by done.
      inversion H1; subst. apply (inv_cids mm HI) in H2. lia.
    + rewrite lookup_insert_eq in H2. rewrite lookup_insert_ne in H1 by done.
      inversion H2; subst. apply (inv_cids mm HI) in H1. lia.
    + rewrite lookup_insert_ne in H1, H2 by done. by eapply inv_inj.
  - intros kind0 names Hn. rewrite lookup_insert in Hn. case_decide.
    + by inversion Hn; subst.
    + by eapply inv_names.
  - by apply inv_slots.
  - intros kind0 table i Ht Hi.
    destruct (inv_table mm HI kind0 table i Ht Hi) as (o & cid & Ho & Hc & Hcls).
    exists o, cid. split; [done|]. split; [|done].
    rewrite lookup_insert_ne; [done|]. intros ->. congruence.
  - intros kind0 cid k r Hk Hin. rewrite lookup_insert in Hk.
    unfold cache_of in Hin. simpl in Hin. case_decide as E.
    + inversion Hk; subst cid.
      rewrite list_lookup_middle in Hin by done. simpl in Hin.
      by apply elem_of_nil in Hin.
    + pose proof (inv_cids mm HI kind0 cid Hk) as Hlt.
      rewrite lookup_app_l in Hin by done.
      destruct (inv_fresh mm HI kind0 cid k r Hk Hin) as (many & l & Hq & Hr).
      by exists many, l.
Qed.

Lemma cache_of_q_set mm cid kind rel_id phrase links cid' :
  cache_of (q_set mm cid kind rel_id phrase links) cid' = cache_of mm cid'.
Proof.
  unfold cache_of, q_set. simpl. rewrite list_lookup_alter.
  case_decide; [subst|done]. by destruct (class_heap mm !! cid').
Qed.

Lemma Inv_q_set mm cid kind rel_id phrase links :
  Inv mm -> Inv (q_set mm cid kind rel_id phrase links).
Proof.
  intros HI. split; simpl.
  - intros kind0 cid0 Hk. rewrite length_alter. by eapply inv_cids.
  - by apply inv_inj.
  - by apply inv_names.
  - by apply inv_slots.
  - by apply inv_table.
  - intros kind0 cid0 k r Hk Hin. rewrite cache_of_q_set in Hin.
    destruct (inv_fresh mm HI kind0 cid0 k r Hk Hin) as (many & l & Hq & Hr).
    by exists many, l.
Qed.

Lemma Inv_define_association mm rel_id source target :
  Inv mm -> Inv (fst (define_association mm rel_id source target)).
Proof.
  intros HI. unfold define_association.
  destruct (classes mm !! AssociationLink.kind source); [|done].
  destruct (classes mm !! AssociationLink.kind target); [|done].
  simpl. by apply Inv_q_set, Inv_q_set.
Qed.

(** One call of the public interface.  A class name is defined once, and
    neither a parameter nor a named argument is called [__c__], the name
    under which an instance reaches the cache of its class. *)
Inductive step : MetaModel -> MetaModel -> Prop :=
| step_define_class mm kind attrs :
    classes mm !! kind = None -> "__c__" ∉ List.map fst attrs ->
    step mm (fst (define_class mm kind attrs))
| step_define_association mm rel_id source target :
    step mm (fst (define_association mm rel_id source target))
| step_new construct mm kind args kwargs :
    "__c__" ∉ dict_keys kwargs ->
    step mm (fst (new construct mm kind args kwargs))
| step_setattr mm i name v :
    step mm (fst (BaseObject.__setattr__ mm i name v))
| step_select_endpoint mm inst source target kwargs :
    step mm (fst (_select_endpoint mm inst source target kwargs))
| step_nav mm nc kd relid phrase :
    step mm (fst (NavChain.nav mm nc kd relid phrase)).

(** The registries that calls of the interface lead to, from a new one. *)
Inductive reachable : MetaModel -> Prop :=
| reach_init g : reachable (MetaModel_init g)
| reach_step mm mm' : reachable mm -> step mm mm' -> reachable mm'.

Lemma Inv_step mm mm' : Inv mm -> step mm mm' -> Inv mm'.
Proof.
  intros HI Hs. destruct Hs.
  - by apply Inv_define_class.
  - by apply Inv_define_association.
  - by apply Inv_new.
  - by apply Inv_setattr.
  - by apply Inv_select_endpoint.
  - by apply Inv_nav.
Qed.

Lemma reachable_Inv mm : reachable mm -> Inv mm.
Proof.
  induction 1 as [g|mm mm' _ IH Hs]; [apply Inv_init|by eapply Inv_step].
Qed.

Lemma cache_get_Some c k r :
  cache_get c k = Some r -> exists k', (k', r) ∈ c /\ joinkey_eqb k' k = true.
Proof.
  induction c as [|[k0 r0] c IH]; [done|]. simpl.
  destruct (joinkey_eqb k0 k) eqn:E.
  - intros [= ->]. exists k0. split; [by left|done].
  - intros Hg. destruct (IH Hg) as (k' & Hin & Hk'). exists k'. split; [by right|done].
Qed.

End Freshness.

Section RedefinitionExample.

#[local] Existing Instance ascii_lower.

(** The shop with the class name [Item] defined a second time: the name is
    bound to a new class object with an empty cache, while the three items
    of the table remain instances of the old one. *)
Definition mm_shop_redefined : MetaModel :=
  fst (define_class mm_shop "Item" [("order_id", "integer"); ("sku", "string")]).

(** C1, as stated, fails once a class name is redefined.  The order's
    items are looked up (and cached in the new class object), item 1 is
    moved to another order by a successful assignment, which clears the
    cache of the item's own, old class object, and the same navigation
    again returns the cached items 1 and 3 although a scan now finds only
    item 3. *)
Lemma redefined_class_stale_cache :
  let mm1 := fst (_select_endpoint mm_shop_redefined 0 order_end item_end []) in
  let mm2 := fst (BaseObject.__setattr__ mm1 1 "order_id" (VInt 9)) in
  snd (_select_endpoint mm_shop_redefined 0 order_end item_end []) = Ok [1; 3]%nat
  /\ snd (BaseObject.__setattr__ mm1 1 "order_id" (VInt 9)) = Ok tt
  /\ BaseObject.getattr (objs mm2) 1 "order_id" = Ok (VInt 9)
  /\ cache_of_kind mm2 "Item" = [([("order_id", VInt 1)], [1; 3]%nat)]
  /\ snd (_select_endpoint mm2 0 order_end item_end []) = Ok [1; 3]%nat
  /\ _query mm2 "Item" true [("order_id", VInt 1)] = Ok [3]%nat
  /\ (exists nc mm3 nc',
        navigate_many (NavChain.HInst 0) = Ok nc
        /\ NavChain.__getitem__ mm2 (NavChain.__getattr__ nc "Item") (inl 1%Z) None
           = (mm3, Ok nc')
        /\ NavChain.__call__ nc' None = NavChain.Many [1; 3]%nat).
Proof.
  vm_compute. repeat split; try reflexivity.
  eexists _, _, _. repeat split; reflexivity.
Qed.

End RedefinitionExample.

Section NeverStale.

Context {str_lower : StrLower}.

(** C1 (amended).  (1) An attribute assignment that finds its slot and
    returns normally leaves the cache of the instance's class empty.
    (2) A call of [new] that returns an instance leaves the cache of its
    class empty.  (3) In every registry reached through the interface with
    each class name defined once and no parameter or named argument called
    [__c__], every cached set is the one a scan of the current instance
    table returns for its key, and every set a lookup returns, from the
    cache or not, is the one such a scan returns for a key equal to the
    lookup's join key: no lookup sees a result that an assignment or a
    construction has outdated. *)
Theorem cache_never_stale :
  (forall mm i o name v mm',
     objs mm !! i = Some o ->
     is_Some (BaseObject.find_key (lower name) (dict_ o)) ->
     BaseObject.__setattr__ mm i name v = (mm', Ok tt) ->
     cache_of mm' (cls o) = [])
  /\ (forall construct mm kind cid args kwargs mm' i,
        classes mm !! kind = Some cid ->
        new construct mm kind args kwargs = (mm', Ok (Some i)) ->
        cache_of_kind mm' kind = []
        /\ exists o, objs mm' !! i = Some o /\ cls o = cid)
  /\ (forall mm,
        reachable mm ->
        (forall kind cid k r,
           classes mm !! kind = Some cid -> (k, r) ∈ cache_of mm cid ->
           exists many l, _query mm kind many k = Ok l /\ r = QuerySet_of l)
        /\ (forall inst source target kwargs mm' r,
              _select_endpoint mm inst source target kwargs = (mm', Ok r) ->
              (instances mm !! AssociationLink.kind target = None /\ r = [])
              \/ exists vals k many l,
                   getattrs (objs mm) inst (AssociationLink.ids source) = Ok vals
                   /\ joinkey_eqb k (join_kwargs target vals kwargs) = true
                   /\ _query mm (AssociationLink.kind target) many k = Ok l
                   /\ r = QuerySet_of l)).
Proof.
  split; [|split].
  - intros mm i o name v mm' Ho [attr Hf] Hset.
    unfold BaseObject.__setattr__ in Hset. rewrite Ho, Hf in Hset.
    unfold BaseObject.self_c_clear in Hset. simpl in Hset.
    rewrite list_lookup_insert_eq in Hset by (eapply lookup_lt_Some; eauto).
    simpl in Hset.
    destruct (dict_get (dict_set (dict_ o) attr v) "__c__") as [x|].
    + destruct x; try (by inversion Hset).
      destruct (BaseObject.getattr _ _ _); by inversion Hset.
    + inversion Hset. apply cache_of_clear.
  - intros construct mm kind cid args kwargs mm' i Hc Hnew.
    destruct (new_cases construct mm kind args kwargs)
      as [[_ Hno]|(cid' & mmf & Hc' & HT & [[_ Hno]|[Hst Hout]])];
      try (rewrite Hnew in Hno; simpl in Hno; by destruct (Hno i)).
    rewrite Hnew in Hst, Hout. simpl in *. inversion Hout; subst i.
    rewrite Hc in Hc'. inversion Hc'; subst cid'.
    destruct HT as (Tc & Th & Ti & Tn & Tt & Tg & f & Tf & Tfk).
    unfold BaseObject.__init__ in *. simpl in *.
    rewrite upd_dict_new in Tf. simpl in Tf.
    subst mm'. split.
    + unfold cache_of_kind. simpl. rewrite Tc, Hc. simpl.
      unfold cache_of. simpl. rewrite Th, list_lookup_alter_eq.
      by destruct (class_heap mm !! cid).
    + exists (MkInstance cid (f [])). simpl. split; [|done].
      rewrite Tf. by apply list_lookup_middle.
  - intros mm Hreach. pose proof (reachable_Inv mm Hreach) as HI.
    split; [apply (inv_fresh mm HI)|].
    intros inst source target kwargs mm' r Hsel.
    unfold _select_endpoint in Hsel.
    destruct (instances mm !! AssociationLink.kind target) as [table|] eqn:Et.
    2:{ left. inversion Hsel. done. }
    right.
    destruct (getattrs (objs mm) inst (AssociationLink.ids source))
      as [vals|] eqn:Ev; [|by inversion Hsel].
    destruct (classes mm !! AssociationLink.kind target) as [cid|] eqn:Ec;
      [|by inversion Hsel].
    destruct (cache_get (cache_of mm cid) (join_kwargs target vals kwargs))
      as [r0|] eqn:Eg.
    + assert (r0 = r) as -> by congruence.
      destruct (cache_get_Some _ _ _ Eg) as (k & Hin & Hk).
      destruct (inv_fresh mm HI _ cid k r Ec Hin) as (many & l & Hq & Hr).
      by exists vals, k, many, l.
    + destruct (_query mm (AssociationLink.kind target)
                  (AssociationLink.is_many target)
                  (join_kwargs target vals kwargs)) as [found|] eqn:Eq;
        [|by inversion Hsel].
      assert (r = QuerySet_of found) as -> by congruence.
      exists vals, (join_kwargs target vals kwargs),
        (AssociationLink.is_many target), found.
      split; [done|]. split; [apply joinkey_eqb_refl|done].
Qed.

End NeverStale.

Section CachedShopExample.

#[local] Existing Instance ascii_lower.

(** The shop after the items of the order have been looked up once. *)
Definition mm_shop_cached : MetaModel :=
  fst (_select_endpoint mm_shop 0 order_end item_end []).

Lemma reachable_mm_shop_cached : reachable mm_shop_cached.
Proof.
  assert (Hn : forall k : string, k ∉ dict_keys []) by (intros k; apply not_elem_of_nil).
  refine (reach_step _ _ _ (step_select_endpoint mm_shop 0 order_end item_end [])).
  refine (reach_step _ _ _ (step_new construct_simple _ "Item" [VInt 1; VStr "c"] [] (Hn _))).
  refine (reach_step _ _ _ (step_new construct_simple _ "Item" [VInt 2; VStr "b"] [] (Hn _))).
  refine (reach_step _ _ _ (step_new construct_simple _ "Item" [VInt 1; VStr "a"] [] (Hn _))).
  refine (reach_step _ _ _ (step_new construct_simple _ "Order" [VInt 1] [] (Hn _))).
  refine (reach_step _ _ _ (step_define_association _ "R1" order_end item_end)).
  refine (reach_step _ _ _
            (step_define_class _ "Item" [("order_id", "integer"); ("sku", "string")] _ _)).
  - refine (reach_step _ _ (reach_init counting_ids)
              (step_define_class _ "Order" [("id", "integer")] _ _)).
    + vm_compute; reflexivity.
    + apply (bool_decide_unpack _). vm_compute. exact I.
  - vm_compute; reflexivity.
  - apply (bool_decide_unpack _). vm_compute. exact I.
Qed.

Lemma cache_never_stale_witness :
  (instances mm_shop_cached !! AssociationLink.kind item_end = None
   /\ [1; 3]%nat = [])
  \/ exists vals k many l,
       getattrs (objs mm_shop_cached) 0 (AssociationLink.ids order_end) = Ok vals
       /\ joinkey_eqb k (join_kwargs item_end vals []) = true
       /\ _query mm_shop_cached (AssociationLink.kind item_end) many k = Ok l
       /\ [1; 3]%nat = QuerySet_of l.
Proof.
  apply (proj2 (proj2 (proj2 cache_never_stale) mm_shop_cached
                  reachable_mm_shop_cached)
           0%nat order_end item_end [] mm_shop_cached [1; 3]%nat).
  vm_compute. reflexivity.
Defined.

End CachedShopExample.

(** * More of the module *)

(** ** The ordered set, continued *)

Section OrderedSetMore.

Context {K : Type} `{Countable K}.

(** [OrderedSet.__eq__] against another [OrderedSet]:
    [len(self) == len(other) and list(self) == list(other)].  [None] when
    one of the two iterations does not end. *)
Definition OrderedSet_eq (s1 s2 : OrderedSet.t (K := K)) : option bool :=
  if Nat.eqb (OrderedSet.len s1) (OrderedSet.len s2) then
    match OrderedSet.iter s1, OrderedSet.iter s2 with
    | Some l1, Some l2 => Some (bool_decide (l1 = l2))
    | _, _ => None
    end
  else Some false.

(** What [next(iter(self))] and [next(reversed(self))] come to: the key of
    the first cell the generator reaches, or [StopIteration] when it is the
    sentinel. *)
Inductive peeked : Type :=
| Element (k : K)
| NoneValue             (* the property returned [None] *)
| StopIteration.

Definition peek_cell (s : OrderedSet.t (K := K)) (a : nat) : peeked :=
  if Nat.eqb a (OrderedSet.end_ s) then StopIteration
  else
    match OrderedSet.h_key (OrderedSet.nodes s) a with
    | Some k => Element k
    | None => NoneValue
    end.

(** [QuerySet.first] and [QuerySet.last]. *)
Definition QuerySet_first (s : OrderedSet.t (K := K)) : peeked :=
  if Nat.eqb (OrderedSet.len s) 0 then NoneValue
  else peek_cell s (OrderedSet.next_of (OrderedSet.nodes s) (OrderedSet.end_ s)).

Definition QuerySet_last (s : OrderedSet.t (K := K)) : peeked :=
  if Nat.eqb (OrderedSet.len s) 0 then NoneValue
  else peek_cell s (OrderedSet.prev_of (OrderedSet.nodes s) (OrderedSet.end_ s)).

Lemma ior_list_split (it : list K) : forall acc,
  exists t, OrderedSet.ior_list acc it = acc ++ t /\ t `sublist_of` it.
Proof.
  induction it as [|k it IH]; intros acc.
  - exists []. simpl. by rewrite app_nil_r.
  - change (OrderedSet.ior_list acc (k :: it))
      with (OrderedSet.ior_list (OrderedSet.add_list acc k) it).
    unfold OrderedSet.add_list. case_decide as Hin.
    + destruct (IH acc) as (t & Ht & Hs). exists t. split; [done|].
      by apply sublist_cons.
    + destruct (IH (acc ++ [k])) as (t & Ht & Hs). exists (k :: t).
      split; [by rewrite Ht, <- app_assoc|]. by apply sublist_skip.
Qed.

Lemma ior_list_elem_of (it : list K) : forall acc k,
  k ∈ OrderedSet.ior_list acc it <-> k ∈ acc \/ k ∈ it.
Proof.
  induction it as [|k0 it IH]; intros acc k.
  - simpl. split; [by left|]. intros [?|Hn]; [done|by apply elem_of_nil in Hn].
  - change (OrderedSet.ior_list acc (k0 :: it))
      with (OrderedSet.ior_list (OrderedSet.add_list acc k0) it).
    rewrite IH. unfold OrderedSet.add_list. rewrite elem_of_cons.
    case_decide as Hin.
    + split; [intros [?|?]; auto|]. intros [?|[->|?]]; auto.
    + rewrite elem_of_app, list_elem_of_singleton.
      split; [intros [[?|?]|?]; auto|]. intros [?|[?|?]]; auto.
Qed.

Lemma repr_contains (s : OrderedSet.t (K := K)) (l : list K) (k : K) :
  OrderedSet.repr s l -> OrderedSet.contains k s = bool_decide (k ∈ l).
Proof.
  intros Hr. unfold OrderedSet.contains.
  apply bool_decide_ext. rewrite <- not_eq_None_Some.
  rewrite (OrderedSet.repr_map_None s l k Hr).
  split; [apply dec_stable|]. by intros ? ?.
Qed.

(** X1.  [OrderedSet(iterable)] iterates, forwards, as a duplicate-free
    sublist [l] of the iterable that holds exactly its elements (the
    iterable itself when that has no duplicates), backwards as the reverse
    of [l]; its length is that of [l] and it contains exactly the elements
    of the iterable. *)
Theorem of_list_iterates (it : list K) :
  exists l,
    OrderedSet.iter (OrderedSet.of_list it) = Some l
    /\ OrderedSet.reversed (OrderedSet.of_list it) = Some (rev l)
    /\ OrderedSet.len (OrderedSet.of_list it) = length l
    /\ NoDup l
    /\ l `sublist_of` it
    /\ (forall k, k ∈ l <-> k ∈ it)
    /\ (forall k, OrderedSet.contains k (OrderedSet.of_list it) = bool_decide (k ∈ it))
    /\ (NoDup it -> l = it).
Proof.
  pose proof (OrderedSet.repr_of_list it) as Hr.
  exists (OrderedSet.ior_list [] it).
  split; [by apply OrderedSet.repr_iter|].
  split; [by apply OrderedSet.repr_reversed|].
  split; [by apply OrderedSet.repr_len|].
  split; [apply OrderedSet.ior_list_NoDup; constructor|].
  assert (Hel : forall k, k ∈ OrderedSet.ior_list [] it <-> k ∈ it).
  { intros k. rewrite ior_list_elem_of. split; [|by right].
    intros [Hn|?]; [by apply elem_of_nil in Hn|done]. }
  split.
  { destruct (ior_list_split it []) as (t & Ht & Hs). by rewrite Ht. }
  split; [done|].
  split.
  { intros k. rewrite (repr_contains _ _ k Hr). apply bool_decide_ext, Hel. }
  apply OrderedSet.ior_list_nil_NoDup.
Qed.

(** X2.  [add] is idempotent on every set, well formed or not: adding a key
    a second time changes nothing; after [add(k)] the set contains [k], and
    whether it contains any other key is as before. *)
Theorem add_idempotent (s : OrderedSet.t (K := K)) (k : K) :
  OrderedSet.add k (OrderedSet.add k s) = OrderedSet.add k s
  /\ OrderedSet.contains k (OrderedSet.add k s) = true
  /\ (forall k', k' <> k ->
        OrderedSet.contains k' (OrderedSet.add k s) = OrderedSet.contains k' s).
Proof.
  assert (Hk : is_Some (OrderedSet.map (OrderedSet.add k s) !! k)).
  { unfold OrderedSet.add. destruct (OrderedSet.map s !! k) eqn:E; [by rewrite E|].
    simpl. rewrite lookup_insert_eq. eauto. }
  split; [|split].
  - destruct Hk as [a Ha]. unfold OrderedSet.add at 1. by rewrite Ha.
  - unfold OrderedSet.contains. by apply bool_decide_eq_true.
  - intros k' Hne. unfold OrderedSet.contains, OrderedSet.add.
    destruct (OrderedSet.map s !! k) eqn:E; [done|]. simpl.
    by rewrite lookup_insert_ne.
Qed.

(** X3.  On a well-formed set holding the keys [l], [add(k)] leaves a
    well-formed set that iterates as [l] when [k] is in [l] and as
    [l ++ [k]] otherwise, in both directions, with the matching length. *)
Theorem add_appends_new_key (s : OrderedSet.t (K := K)) (l : list K) (k : K) :
  OrderedSet.repr s l ->
  let l' := if decide (k ∈ l) then l else l ++ [k] in
  OrderedSet.repr (OrderedSet.add k s) l'
  /\ OrderedSet.iter (OrderedSet.add k s) = Some l'
  /\ OrderedSet.reversed (OrderedSet.add k s) = Some (rev l')
  /\ OrderedSet.len (OrderedSet.add k s) = length l'.
Proof.
  intros Hr l'. pose proof (OrderedSet.repr_add s l k Hr) as Hr'.
  split; [done|]. split; [by apply OrderedSet.repr_iter|].
  split; [by apply OrderedSet.repr_reversed|by apply OrderedSet.repr_len].
Qed.

End OrderedSetMore.

Lemma add_appends_new_key_witness :
  let s := OrderedSet.of_list [1; 2]%nat in
  OrderedSet.repr (OrderedSet.add 5%nat s) [1; 2; 5]%nat
  /\ OrderedSet.iter (OrderedSet.add 5%nat s) = Some [1; 2; 5]%nat
  /\ OrderedSet.reversed (OrderedSet.add 5%nat s) = Some (rev [1; 2; 5]%nat)
  /\ OrderedSet.len (OrderedSet.add 5%nat s) = length [1; 2; 5]%nat.
Proof.
  exact (add_appends_new_key (OrderedSet.of_list [1; 2]%nat) [1; 2]%nat 5%nat
           (OrderedSet.repr_of_list [1; 2]%nat)).
Defined.

Section OrderedSetEdges.

Context {K : Type} `{Countable K}.

(** X4.  [discard] on a well-formed set holding the keys [l]: an absent key
    is a no-op that returns normally; a present key always ends in the
    [TypeError] of [next[1] = prev], after the key has been taken out of
    [map], so that the length has dropped by one, the set no longer
    contains the key and contains every other key as before. *)
Theorem discard_well_formed (s : OrderedSet.t (K := K)) (l : list K) (k : K) :
  OrderedSet.repr s l ->
  (k ∉ l -> OrderedSet.discard k s = (s, Ok tt))
  /\ (k ∈ l ->
      snd (OrderedSet.discard k s) = Raise TypeError
      /\ S (OrderedSet.len (fst (OrderedSet.discard k s))) = length l
      /\ OrderedSet.contains k (fst (OrderedSet.discard k s)) = false
      /\ forall k', k' <> k ->
           OrderedSet.contains k' (fst (OrderedSet.discard k s))
           = OrderedSet.contains k' s).
Proof.
  intros Hr. split.
  - intros Hk. apply OrderedSet.discard_absent.
    by apply (OrderedSet.repr_map_None s l k Hr).
  - intros Hk.
    destruct (OrderedSet.map s !! k) as [a|] eqn:Ea.
    2:{ apply (OrderedSet.repr_map_None s l k Hr) in Ea. done. }
    unfold OrderedSet.discard. rewrite Ea. simpl.
    split; [done|]. split.
    + unfold OrderedSet.len. simpl.
      rewrite <- (OrderedSet.repr_len s l Hr). unfold OrderedSet.len.
      rewrite (map_size_delete_Some k (OrderedSet.map s) (mk_is_Some _ _ Ea)).
      assert (size (OrderedSet.map s) <> 0%nat); [|lia].
      intros Hz. apply map_size_empty_inv in Hz. rewrite Hz in Ea.
      by rewrite lookup_empty in Ea.
    + split.
      * unfold OrderedSet.contains. simpl. apply bool_decide_eq_false.
        rewrite lookup_delete_eq. by intros [? ?].
      * intros k' Hne. unfold OrderedSet.contains. simpl.
        by rewrite lookup_delete_ne.
Qed.

(** X5.  [pop] on a well-formed set never returns a key: on the empty set
    it raises the [KeyError] and leaves the set as it is, on a non-empty
    one it ends in the [TypeError] of the [discard] it calls, for either
    end. *)
Theorem pop_well_formed (s : OrderedSet.t (K := K)) (l : list K) (b : bool) :
  OrderedSet.repr s l ->
  (l = [] -> OrderedSet.pop b s = (s, Raise (KeyError "set is empty")))
  /\ (l <> [] -> snd (OrderedSet.pop b s) = Raise TypeError).
Proof.
  intros Hr. split.
  - intros ->. apply OrderedSet.pop_empty. by rewrite (OrderedSet.repr_len s [] Hr).
  - intros Hne. by apply (OrderedSet.pop_nonempty s l b Hr).
Qed.

(** X6.  Equality of two well-formed ordered sets is order-sensitive: it
    returns, and is true exactly when both hold the same keys in the same
    order. *)
Theorem OrderedSet_eq_order_sensitive (s1 s2 : OrderedSet.t (K := K))
  (l1 l2 : list K) :
  OrderedSet.repr s1 l1 -> OrderedSet.repr s2 l2 ->
  OrderedSet_eq s1 s2 = Some (bool_decide (l1 = l2)).
Proof.
  intros H1 H2. unfold OrderedSet_eq.
  rewrite (OrderedSet.repr_len s1 l1 H1), (OrderedSet.repr_len s2 l2 H2).
  rewrite (OrderedSet.repr_iter s1 l1 H1), (OrderedSet.repr_iter s2 l2 H2).
  destruct (Nat.eqb_spec (length l1) (length l2)) as [E|E]; [done|].
  f_equal. symmetry. apply bool_decide_eq_false. intros ->. done.
Qed.

Lemma repr_ends (s : OrderedSet.t (K := K)) (l : list K) :
  OrderedSet.repr s l -> l <> [] ->
  OrderedSet.next_of (OrderedSet.nodes s) (OrderedSet.end_ s) <> OrderedSet.end_ s
  /\ OrderedSet.prev_of (OrderedSet.nodes s) (OrderedSet.end_ s) <> OrderedSet.end_ s.
Proof.
  intros (cells & Hlen & Hndl & Hndc & (pe & ne & Hend & Hpe & Hne) & Hcells & Hmap) Hl.
  unfold OrderedSet.next_of, OrderedSet.prev_of. rewrite Hend. simpl.
  apply NoDup_cons in Hndc as [Henc _].
  destruct cells as [|c0 cells]; [destruct l; simpl in Hlen; [done|lia]|].
  split.
  - simpl in Hne. inversion Hne; subst ne. intros E. apply Henc. rewrite <- E. by left.
  - intros E. subst pe. apply Henc.
    simpl in Hpe. eapply list_elem_of_lookup_2. exact Hpe.
Qed.

Lemma repr_first_last (s : OrderedSet.t (K := K)) (l : list K) :
  OrderedSet.repr s l ->
  QuerySet_first s = from_option Element NoneValue (head l)
  /\ QuerySet_last s = from_option Element NoneValue (last l).
Proof.
  intros Hr. unfold QuerySet_first, QuerySet_last.
  rewrite (OrderedSet.repr_len s l Hr).
  destruct l as [|k l']; [done|]. simpl Nat.eqb. cbv iota.
  destruct (repr_ends s (k :: l') Hr) as [Hn Hp]; [done|].
  unfold peek_cell.
  destruct (Nat.eqb_spec (OrderedSet.next_of (OrderedSet.nodes s) (OrderedSet.end_ s))
              (OrderedSet.end_ s)) as [|_]; [done|].
  destruct (Nat.eqb_spec (OrderedSet.prev_of (OrderedSet.nodes s) (OrderedSet.end_ s))
              (OrderedSet.end_ s)) as [|_]; [done|].
  split.
  - rewrite (OrderedSet.repr_last_key s (k :: l') k l' false Hr eq_refl). done.
  - destruct (exists_last (l := k :: l')) as (l0 & x & E); [done|].
    rewrite (OrderedSet.repr_last_key s (k :: l') x l0 true Hr E).
    rewrite E, last_snoc. done.
Qed.

(** X7.  On a well-formed query set holding [l], the property [first] is
    the first key of [l] and [last] its last key; both are [None] on the
    empty set, and neither ever runs into [StopIteration]. *)
Theorem QuerySet_first_last (s : OrderedSet.t (K := K)) (l : list K) :
  OrderedSet.repr s l ->
  QuerySet_first s = from_option Element NoneValue (head l)
  /\ QuerySet_last s = from_option Element NoneValue (last l).
Proof. apply repr_first_last. Qed.

End OrderedSetEdges.

Lemma discard_well_formed_witness :
  (7%nat ∉ [1; 2; 3]%nat ->
   OrderedSet.discard 7%nat (OrderedSet.of_list [1; 2; 3]%nat)
   = (OrderedSet.of_list [1; 2; 3]%nat, Ok tt))
  /\ (7%nat ∈ [1; 2; 3]%nat ->
      snd (OrderedSet.discard 7%nat (OrderedSet.of_list [1; 2; 3]%nat))
        = Raise TypeError
      /\ S (OrderedSet.len
              (fst (OrderedSet.discard 7%nat (OrderedSet.of_list [1; 2; 3]%nat))))
         = length [1; 2; 3]%nat
      /\ OrderedSet.contains 7%nat
           (fst (OrderedSet.discard 7%nat (OrderedSet.of_list [1; 2; 3]%nat)))
         = false
      /\ forall k', k' <> 7%nat ->
           OrderedSet.contains k'
             (fst (OrderedSet.discard 7%nat (OrderedSet.of_list [1; 2; 3]%nat)))
           = OrderedSet.contains k' (OrderedSet.of_list [1; 2; 3]%nat)).
Proof.
  exact (discard_well_formed (OrderedSet.of_list [1; 2; 3]%nat) [1; 2; 3]%nat 7%nat
           (OrderedSet.repr_of_list [1; 2; 3]%nat)).
Defined.

Lemma pop_well_formed_witness :
  ([1; 2]%nat = [] ->
   OrderedSet.pop true (OrderedSet.of_list [1; 2]%nat)
   = (OrderedSet.of_list [1; 2]%nat, Raise (KeyError "set is empty")))
  /\ ([1; 2]%nat <> [] ->
      snd (OrderedSet.pop true (OrderedSet.of_list [1; 2]%nat)) = Raise TypeError).
Proof.
  exact (pop_well_formed (OrderedSet.of_list [1; 2]%nat) [1; 2]%nat true
           (OrderedSet.repr_of_list [1; 2]%nat)).
Defined.

Lemma OrderedSet_eq_order_sensitive_witness :
  OrderedSet_eq (OrderedSet.of_list [1; 2]%nat) (OrderedSet.of_list [2; 1]%nat)
  = Some (bool_decide ([1; 2]%nat = [2; 1]%nat)).
Proof.
  exact (OrderedSet_eq_order_sensitive
           (OrderedSet.of_list [1; 2]%nat) (OrderedSet.of_list [2; 1]%nat)
           [1; 2]%nat [2; 1]%nat
           (OrderedSet.repr_of_list [1; 2]%nat) (OrderedSet.repr_of_list [2; 1]%nat)).
Defined.

Lemma QuerySet_first_last_witness :
  QuerySet_first (OrderedSet.of_list [4; 5; 6]%nat)
    = from_option Element NoneValue (head [4; 5; 6]%nat)
  /\ QuerySet_last (OrderedSet.of_list [4; 5; 6]%nat)
     = from_option Element NoneValue (last [4; 5; 6]%nat).
Proof.
  exact (QuerySet_first_last (OrderedSet.of_list [4; 5; 6]%nat) [4; 5; 6]%nat
           (OrderedSet.repr_of_list [4; 5; 6]%nat)).
Defined.

(** ** The identity source and the type names *)

(** [n] calls of [next(id_generator)], the values in the order drawn. *)
Fixpoint draw (n : nat) (g : IdGenerator.t) : IdGenerator.t * list value :=
  match n with
  | O => (g, [])
  | S n' =>
      let (g1, v) := IdGenerator.next g in
      let (g2, vs) := draw n' g1 in
      (g2, v :: vs)
  end.

(** [ty.__name__]; a defined class is a subclass of [BaseObject], so the
    last branch of [type_name] never asks for the name of one. *)
Definition pytype_name (ty : pytype) : string :=
  match ty with
  | TNoneType => "NoneType"
  | TBool => "bool"
  | TInt => "int"
  | TFloat => "float"
  | TStr => "str"
  | TUuid => "UUID"
  | TBaseObject => "BaseObject"
  | TQuerySet => "QuerySet"
  | TCls _ => "BaseObject"
  end.

(** [type_name]. *)
Definition type_name (mm : MetaModel) (ty : pytype) : outcome string :=
  if issubclass ty TBool then Ok "boolean"
  else if issubclass ty TInt then Ok "integer"
  else if issubclass ty TFloat then Ok "real"
  else if issubclass ty TStr then Ok "string"
  else if issubclass ty TBaseObject then Ok "inst_ref"
  else if issubclass ty TNoneType then Ok "inst_ref"
  else if issubclass ty TQuerySet then Ok "inst_ref_set"
  else if issubclass ty (type_of (objs mm) (IdGenerator.peek (id_generator mm)))
  then Ok "unique_id"
  else Raise (ModelException ("Unknown type '" +:+ pytype_name ty +:+ "'")).

Lemma draw_in_step (rf : nat -> value) (n : nat) : forall c,
  draw n (IdGenerator.Make rf (S c) (rf c))
  = (IdGenerator.Make rf (S (c + n)) (rf (c + n)%nat), List.map rf (seq c n)).
Proof.
  induction n as [|n IH]; intros c.
  - simpl. by rewrite Nat.add_0_r.
  - simpl. rewrite (IH (S c)). simpl. by rewrite Nat.add_succ_r.
Qed.

(** X8.  The identity source reads one value ahead: [n] draws from a new
    generator return the first [n] values of [readfunc] in order, after
    which [readfunc] has been called [n + 1] times and [peek] shows its
    next value; the drawn identities are pairwise distinct as soon as
    [readfunc] never repeats a value. *)
Theorem draw_in_order (rf : nat -> value) (n : nat) :
  (forall a b, rf a = rf b -> a = b) ->
  draw n (IdGenerator.init rf)
  = (IdGenerator.Make rf (S n) (rf n), List.map rf (seq 0 n))
  /\ IdGenerator.peek (fst (draw n (IdGenerator.init rf))) = rf n
  /\ NoDup (snd (draw n (IdGenerator.init rf))).
Proof.
  intros Hinj. unfold IdGenerator.init.
  rewrite (draw_in_step rf n 0). simpl. repeat split.
  apply NoDup_fmap_2; [|apply NoDup_seq].
  intros a b. apply Hinj.
Qed.

Lemma draw_in_order_witness :
  draw 3 counting_ids
  = (IdGenerator.Make (fun n => VUuid (Z.of_nat n)) 4 (VUuid 3),
     List.map (fun n => VUuid (Z.of_nat n)) (seq 0 3))
  /\ IdGenerator.peek (fst (draw 3 counting_ids)) = VUuid 3
  /\ NoDup (snd (draw 3 counting_ids)).
Proof.
  apply (draw_in_order (fun n => VUuid (Z.of_nat n)) 3).
  intros a b E. injection E. lia.
Defined.

(** X9.  [type_name] undoes [named_type]: for each of the seven type
    names the python type that [named_type] gives is named back by
    [type_name], provided, for [unique_id], that the identities of the
    generator are not booleans, integers, reals, strings, instances or
    [None], which the earlier branches of [type_name] would claim. *)
Theorem type_name_named_type (mm : MetaModel) (name : string) (ty : pytype) :
  named_type mm name = Ok ty ->
  (name = "unique_id" ->
   type_of (objs mm) (IdGenerator.peek (id_generator mm)) = TUuid) ->
  type_name mm ty = Ok name.
Proof.
  unfold named_type. intros Hn Hu.
  repeat match type of Hn with
  | (if String.eqb ?a ?b then _ else _) = _ =>
      destruct (String.eqb_spec a b) as [->|?];
        [injection Hn as <-; try reflexivity|]
  end; [|done].
  unfold type_name. rewrite Hu by done. reflexivity.
Qed.

Lemma type_name_named_type_witness :
  named_type mm_person "unique_id" = Ok TUuid
  /\ type_name mm_person TUuid = Ok "unique_id".
Proof.
  split; [reflexivity|].
  apply (type_name_named_type mm_person "unique_id" TUuid); reflexivity.
Defined.

(** X10.  [type_name] answers for every python type of the model except
    the type of identifiers under a generator whose values are of another
    type; when it answers, [named_type] knows the name and gives a type
    that the given one is a subclass of, except for [NoneType], which is
    named [inst_ref] without being a [BaseObject]. *)
Theorem named_type_type_name (mm : MetaModel) (ty : pytype) :
  match type_name mm ty with
  | Ok name =>
      exists T, named_type mm name = Ok T
                /\ (issubclass ty T = true \/ ty = TNoneType)
  | Raise _ =>
      ty = TUuid
      /\ type_of (objs mm) (IdGenerator.peek (id_generator mm)) <> TUuid
  end.
Proof.
  unfold type_name.
  destruct ty as [| | | | | | | |c]; simpl;
    try (eexists; split; [reflexivity|]; auto; fail).
  - destruct (type_of (objs mm) (IdGenerator.peek (id_generator mm))) eqn:E;
      simpl; try (split; [done|congruence]).
    exists TUuid. unfold named_type. simpl. rewrite E. auto.
Qed.

(** ** The static predicates *)

Module Static.

(** [empty], [not_empty], [cardinality], [is_set] and [is_instance], on
    what a navigation or a selection can hand them. *)
Definition empty (arg : NavChain.start) : bool :=
  match arg with
  | NavChain.HNone => true
  | NavChain.HSet qs => Nat.eqb (length qs) 0
  | _ => false
  end.

Definition not_empty (arg : NavChain.start) : bool := negb (empty arg).

Definition cardinality (arg : NavChain.start) : nat :=
  match arg with
  | NavChain.HNone => 0
  | NavChain.HSet qs => length qs
  | _ => 1
  end.

Definition is_set (arg : NavChain.start) : bool :=
  match arg with
  | NavChain.HSet _ => true
  | _ => false
  end.

Definition is_instance (arg : NavChain.start) : bool :=
  match arg with
  | NavChain.HInst _ => true
  | _ => false
  end.

(** [inst == query_set.first]; the argument is a [QuerySet], so the
    assertion holds.  [None] when the property runs into
    [StopIteration]. *)
Definition eq_peeked (inst : value) (p : peeked (K := nat)) : option bool :=
  match p with
  | Element k => Some (py_eq inst (VInst k))
  | NoneValue => Some (py_eq inst VNone)
  | StopIteration => None
  end.

Definition first (inst : value) (query_set : OrderedSet.t (K := nat))
  : option bool :=
  eq_peeked inst (QuerySet_first query_set).

Definition not_first (inst : value) (query_set : OrderedSet.t (K := nat))
  : option bool :=
  negb <$> first inst query_set.

Definition last (inst : value) (query_set : OrderedSet.t (K := nat))
  : option bool :=
  eq_peeked inst (QuerySet_last query_set).

Definition not_last (inst : value) (query_set : OrderedSet.t (K := nat))
  : option bool :=
  negb <$> last inst query_set.

End Static.

(** What a chain evaluates to, as an argument of the predicates. *)
Definition arg_of_result (r : NavChain.result) : NavChain.start :=
  match r with
  | NavChain.One None => NavChain.HNone
  | NavChain.One (Some i) => NavChain.HInst i
  | NavChain.Many qs => NavChain.HSet qs
  end.

Lemma QuerySet_of_nil_inv (l : list nat) : QuerySet_of l = [] -> l = [].
Proof.
  destruct l as [|k it]; [done|]. unfold QuerySet_of.
  change (OrderedSet.ior_list [] (k :: it))
    with (OrderedSet.ior_list (OrderedSet.add_list [] k) it).
  destruct (ior_list_split it (OrderedSet.add_list [] k)) as (t & -> & _).
  unfold OrderedSet.add_list. case_decide as Hin; [by apply elem_of_nil in Hin|].
  done.
Qed.

(** X11.  [empty] holds exactly of the arguments of [cardinality] 0, and
    [not_empty] of the others.  On what a navigation chain evaluates to,
    whether started with [navigate_one], [navigate_any] or
    [navigate_many], [empty] is true exactly when no instance of the
    handle passes the where clause. *)
Theorem empty_iff_nothing_selected :
  (forall arg, Static.empty arg = Nat.eqb (Static.cardinality arg) 0
               /\ Static.not_empty arg = negb (Nat.eqb (Static.cardinality arg) 0))
  /\ (forall nc w,
        Static.empty (arg_of_result (NavChain.__call__ nc w))
        = bool_decide (NavChain.filtered w (NavChain.handle nc) = [])).
Proof.
  split.
  - intros [| | |]; done.
  - intros nc w. unfold NavChain.__call__.
    destruct (NavChain.is_many nc); simpl.
    + destruct (QuerySet_of (NavChain.filtered w (NavChain.handle nc))) eqn:E.
      * apply QuerySet_of_nil_inv in E. by rewrite E.
      * symmetry. apply bool_decide_eq_false. intros E'. by rewrite E' in E.
    + by destruct (NavChain.filtered w (NavChain.handle nc)).
Qed.

Lemma eq_peeked_inst (i : nat) (o : option nat) :
  Static.eq_peeked (VInst i) (from_option Element NoneValue o)
  = Some (bool_decide (o = Some i)).
Proof.
  destruct o as [k|]; simpl; [|done].
  unfold py_eq. simpl. f_equal.
  destruct (Nat.eqb_spec i k) as [->|Hne].
  - by rewrite bool_decide_eq_true_2.
  - rewrite bool_decide_eq_false_2; [done|]. intros [=]. done.
Qed.

(** X12.  On a well-formed query set holding [l], [first] is true of an
    instance exactly when it is the first element and [last] exactly when
    it is the last one; [not_first] and [not_last] are their negations;
    an instance that is both first and last is the only element; and of
    [None] both are true exactly on the empty set. *)
Theorem first_last_of_instance (s : OrderedSet.t (K := nat)) (l : list nat)
  (i : nat) :
  OrderedSet.repr s l ->
  Static.first (VInst i) s = Some (bool_decide (head l = Some i))
  /\ Static.last (VInst i) s = Some (bool_decide (last l = Some i))
  /\ Static.not_first (VInst i) s = Some (negb (bool_decide (head l = Some i)))
  /\ Static.not_last (VInst i) s = Some (negb (bool_decide (last l = Some i)))
  /\ (Static.first (VInst i) s = Some true -> Static.last (VInst i) s = Some true ->
      l = [i])
  /\ Static.first VNone s = Some (bool_decide (l = []))
  /\ Static.last VNone s = Some (bool_decide (l = [])).
Proof.
  intros Hr. destruct (repr_first_last s l Hr) as [Hf Hl].
  assert (NoDup l) as Hnd by (destruct Hr as (? & ? & ? & ?); done).
  unfold Static.not_first, Static.not_last, Static.first, Static.last.
  rewrite Hf, Hl, !eq_peeked_inst. simpl.
  repeat split.
  - intros [= E1] [= E2].
    apply bool_decide_eq_true in E1. apply bool_decide_eq_true in E2.
    apply head_Some in E1 as [l' ->].
    destruct l' as [|x l']; [done|].
    rewrite last_cons_cons in E2. apply last_Some_elem_of in E2.
    apply NoDup_cons in Hnd as [Hni _]. done.
  - destruct l; done.
  - destruct l as [|k l']; [done|]. rewrite last_cons.
    by destruct (last l').
Qed.

Lemma first_last_of_instance_witness :
  Static.first (VInst 4) (OrderedSet.of_list [4; 5; 6]%nat)
    = Some (bool_decide (head [4; 5; 6]%nat = Some 4%nat))
  /\ Static.last (VInst 4) (OrderedSet.of_list [4; 5; 6]%nat)
     = Some (bool_decide (last [4; 5; 6]%nat = Some 4%nat))
  /\ Static.not_first (VInst 4) (OrderedSet.of_list [4; 5; 6]%nat)
     = Some (negb (bool_decide (head [4; 5; 6]%nat = Some 4%nat)))
  /\ Static.not_last (VInst 4) (OrderedSet.of_list [4; 5; 6]%nat)
     = Some (negb (bool_decide (last [4; 5; 6]%nat = Some 4%nat)))
  /\ (Static.first (VInst 4) (OrderedSet.of_list [4; 5; 6]%nat) = Some true ->
      Static.last (VInst 4) (OrderedSet.of_list [4; 5; 6]%nat) = Some true ->
      [4; 5; 6]%nat = [4%nat])
  /\ Static.first VNone (OrderedSet.of_list [4; 5; 6]%nat)
     = Some (bool_decide ([4; 5; 6]%nat = []))
  /\ Static.last VNone (OrderedSet.of_list [4; 5; 6]%nat)
     = Some (bool_decide ([4; 5; 6]%nat = [])).
Proof.
  exact (first_last_of_instance (OrderedSet.of_list [4; 5; 6]%nat) [4; 5; 6]%nat 4%nat
           (OrderedSet.repr_of_list [4; 5; 6]%nat)).
Defined.

(** ** Attribute access *)

Section AnySpelling.

Context {str_lower : StrLower}.

(** X13.  Reading an attribute whose name is not of the form [__x__]
    succeeds exactly when some slot of the instance is spelled like the
    name up to case, and then returns the value of such a slot; otherwise
    it raises [AttributeError], and nothing else. *)
Theorem getattr_any_spelling (d : pydict) (name : string) :
  is_dunder name = false ->
  (forall v, BaseObject.getattr_dict d name = Ok v ->
     exists key, (key, v) ∈ d /\ lower key = lower name)
  /\ (forall e, BaseObject.getattr_dict d name = Raise e ->
        e = AttributeError
        /\ forall key, key ∈ dict_keys d -> lower key <> lower name)
  /\ (forall key, key ∈ dict_keys d -> lower key = lower name ->
        exists v, BaseObject.getattr_dict d name = Ok v).
Proof.
  intros Hd. unfold BaseObject.getattr_dict. rewrite Hd.
  destruct (dict_get d name) as [x|] eqn:Eg.
  - split; [|split].
    + intros v [= <-]. exists name. split; [by apply dict_get_Some_in|done].
    + intros e [=].
    + intros key _ _. eauto.
  - unfold BaseObject.__getattr__.
    destruct (find (fun kv => String.eqb (lower (fst kv)) (lower name)) d)
      as [[k x]|] eqn:Ef.
    + apply find_some in Ef as [Hin Heq]. simpl in Heq.
      apply String.eqb_eq in Heq.
      split; [|split].
      * intros v [= <-]. exists k. split; [by apply list_elem_of_In|done].
      * intros e [=].
      * intros key _ _. eauto.
    + split; [|split].
      * intros v [=].
      * intros e [= <-]. split; [done|]. intros key Hk Hl.
        apply list_elem_of_In, in_map_iff in Hk as ([k x] & <- & Hin).
        pose proof (find_none _ _ Ef _ Hin) as Hn. simpl in Hn, Hl.
        rewrite Hl, String.eqb_refl in Hn. done.
      * intros key Hk Hl. exfalso.
        apply list_elem_of_In, in_map_iff in Hk as ([k x] & <- & Hin).
        pose proof (find_none _ _ Ef _ Hin) as Hn. simpl in Hn, Hl.
        rewrite Hl, String.eqb_refl in Hn. done.
Qed.

End AnySpelling.

Section AnySpellingExample.

#[local] Existing Instance ascii_lower.

Lemma getattr_any_spelling_witness :
  (forall v, BaseObject.getattr_dict [("Name", VStr "Al")] "NAME" = Ok v ->
     exists key, (key, v) ∈ [("Name", VStr "Al")] /\ lower key = lower "NAME")
  /\ (forall e, BaseObject.getattr_dict [("Name", VStr "Al")] "NAME" = Raise e ->
        e = AttributeError
        /\ forall key, key ∈ dict_keys [("Name", VStr "Al")] ->
             lower key <> lower "NAME")
  /\ (forall key, key ∈ dict_keys [("Name", VStr "Al")] ->
        lower key = lower "NAME" ->
        exists v, BaseObject.getattr_dict [("Name", VStr "Al")] "NAME" = Ok v).
Proof.
  apply (getattr_any_spelling [("Name", VStr "Al")] "NAME"). reflexivity.
Defined.

End AnySpellingExample.

Section Frames.

Context {str_lower : StrLower}.

Lemma self_c_clear_state (mm : MetaModel) (i : nat) :
  fst (BaseObject.self_c_clear mm i) = mm
  \/ exists c, fst (BaseObject.self_c_clear mm i) = BaseObject.clear_cache mm c.
Proof.
  unfold BaseObject.self_c_clear.
  destruct (objs mm !! i) as [o|]; [|by left].
  destruct (dict_get (dict_ o) "__c__") as [[| | | | | |j]|]; try by left.
  right. by exists (cls o).
Qed.

Lemma clear_cache_q (mm : MetaModel) (c cid : nat) (K : Class) :
  class_heap mm !! c = Some K ->
  exists K', class_heap (BaseObject.clear_cache mm cid) !! c = Some K'
             /\ __q__ K' = __q__ K.
Proof.
  intros HK. unfold BaseObject.clear_cache. simpl.
  destruct (decide (cid = c)) as [->|Hne].
  - rewrite list_lookup_alter_eq, HK. simpl. eauto.
  - rewrite list_lookup_alter_ne by done. eauto.
Qed.

(** X14.  An attribute assignment, whatever the name and the value and
    whether it succeeds or not, never adds, removes or reorders a slot and
    never changes the class of the instance; it leaves every other
    instance, the class bindings, the parameter lists, the instance
    tables, the identity source and the association tables [__q__] of
    every class as they were. *)
Theorem setattr_frame (mm : MetaModel) (i : nat) (name : string) (v : value) :
  classes (fst (BaseObject.__setattr__ mm i name v)) = classes mm
  /\ instances (fst (BaseObject.__setattr__ mm i name v)) = instances mm
  /\ param_names (fst (BaseObject.__setattr__ mm i name v)) = param_names mm
  /\ param_types (fst (BaseObject.__setattr__ mm i name v)) = param_types mm
  /\ id_generator (fst (BaseObject.__setattr__ mm i name v)) = id_generator mm
  /\ (forall j, j <> i ->
        objs (fst (BaseObject.__setattr__ mm i name v)) !! j = objs mm !! j)
  /\ (forall o, objs mm !! i = Some o ->
        exists o', objs (fst (BaseObject.__setattr__ mm i name v)) !! i = Some o'
                   /\ cls o' = cls o
                   /\ dict_keys (dict_ o') = dict_keys (dict_ o))
  /\ (forall c K, class_heap mm !! c = Some K ->
        exists K',
          class_heap (fst (BaseObject.__setattr__ mm i name v)) !! c = Some K'
          /\ __q__ K' = __q__ K).
Proof.
  unfold BaseObject.__setattr__.
  destruct (objs mm !! i) as [o|] eqn:Eo; [|simpl; repeat split; eauto; done].
  destruct (BaseObject.find_key (lower name) (dict_ o)) as [attr|] eqn:Ef;
    [|simpl; repeat split; eauto; intros o0 [= <-]; eauto].
  set (mm1 := with_objs mm
                (<[i := MkInstance (cls o) (dict_set (dict_ o) attr v)]> (objs mm))).
  assert (Hobj : forall j, j <> i -> objs mm1 !! j = objs mm !! j).
  { intros j Hj. simpl. by rewrite list_lookup_insert_ne. }
  assert (Hi : exists o', objs mm1 !! i = Some o' /\ cls o' = cls o
                          /\ dict_keys (dict_ o') = dict_keys (dict_ o)).
  { eexists. simpl. split.
    - apply list_lookup_insert_eq. by eapply lookup_lt_Some.
    - simpl. split; [done|]. apply dict_keys_set_in. by eapply find_key_in. }
  destruct (self_c_clear_state mm1 i) as [->|[c ->]].
  - repeat split; try done.
    + intros o0 [= <-]. done.
    + intros c0 K HK. exists K. done.
  - repeat split; try done.
    + intros o0 [= <-]. done.
    + intros c0 K HK. by apply clear_cache_q.
Qed.

(** ** Creating instances *)

(** X15.  [new], whether it returns or raises, never changes the class
    bindings, the parameter lists, an instance that existed before, the
    table of another class or the association tables [__q__].  When it
    returns an instance, that instance is a new object and is appended to
    the table of its class; in every other case no table changes at
    all. *)
Theorem new_frame (construct : pytype -> value -> outcome value)
  (mm : MetaModel) (kind : string) (args : list value) (kwargs : pydict) :
  classes (fst (new construct mm kind args kwargs)) = classes mm
  /\ param_names (fst (new construct mm kind args kwargs)) = param_names mm
  /\ param_types (fst (new construct mm kind args kwargs)) = param_types mm
  /\ (forall j o, objs mm !! j = Some o ->
        objs (fst (new construct mm kind args kwargs)) !! j = Some o)
  /\ (forall k, k <> kind ->
        instances (fst (new construct mm kind args kwargs)) !! k
        = instances mm !! k)
  /\ (forall c K, class_heap mm !! c = Some K ->
        exists K',
          class_heap (fst (new construct mm kind args kwargs)) !! c = Some K'
          /\ __q__ K' = __q__ K)
  /\ match snd (new construct mm kind args kwargs) with
     | Ok (Some i) =>
         i = length (objs mm)
         /\ instances (fst (new construct mm kind args kwargs)) !! kind
            = Some (default [] (instances mm !! kind) ++ [i])
         /\ is_Some (objs (fst (new construct mm kind args kwargs)) !! i)
     | _ => instances (fst (new construct mm kind args kwargs)) = instances mm
     end.
Proof.
  destruct (new_cases construct mm kind args kwargs)
    as [[-> Hno]|(cid & mmf & Hc & Ht & Hcase)].
  - repeat split; try done; [eauto|].
    destruct (snd (new construct mm kind args kwargs)) as [[i|]|e]; try done.
    by destruct (Hno i).
  - destruct Ht as (Tc & Th & Ti & Tn & Tt & _ & f & Tf & _).
    unfold BaseObject.__init__ in *. simpl in *.
    rewrite upd_dict_new in Tf. simpl in Tf.
    assert (Hq : forall c K, class_heap mm !! c = Some K ->
              exists K', class_heap mmf !! c = Some K' /\ __q__ K' = __q__ K).
    { intros c K HK. rewrite Th.
      apply (clear_cache_q
               (with_objs mm (objs mm ++ [MkInstance cid []])) c cid K HK). }
    assert (Ho : forall j o, objs mm !! j = Some o -> objs mmf !! j = Some o).
    { intros j o Hj. rewrite Tf. by apply lookup_app_l_Some. }
    destruct Hcase as [[-> Hno]|[-> ->]].
    + do 4 (split; [done|]).
      split; [intros k _; by rewrite Ti|]. split; [done|].
      destruct (snd (new construct mm kind args kwargs)) as [[i|]|e]; try done.
      by destruct (Hno i).
    + simpl. do 4 (split; [done|]).
      split; [intros k Hk; by rewrite lookup_insert_ne|]. split; [done|].
      split; [done|]. split; [by rewrite lookup_insert_eq|].
      rewrite Tf. rewrite list_lookup_middle by done. eauto.
Qed.

Lemma dict_keys_set_prefix (d : pydict) (k : string) (v : value) :
  exists t, dict_keys (dict_set d k v) = dict_keys d ++ t
            /\ forall x, x ∈ t -> x = k /\ x ∉ dict_keys d.
Proof.
  destruct (decide (k ∈ dict_keys d)) as [Hin|Hn].
  - exists []. rewrite dict_keys_set_in by done. rewrite app_nil_r.
    split; [done|]. intros x Hx. by apply elem_of_nil in Hx.
  - exists [k]. rewrite dict_keys_set_notin by done. split; [done|].
    intros x Hx. apply list_elem_of_singleton in Hx as ->. done.
Qed.

Lemma dict_keys_update_prefix (other : list (string * value)) : forall d : pydict,
  exists t, dict_keys (dict_update d other) = dict_keys d ++ t
            /\ forall x, x ∈ t -> x ∈ dict_keys other /\ x ∉ dict_keys d.
Proof.
  induction other as [|[k v] other IH]; intros d.
  - exists []. simpl. rewrite app_nil_r. split; [done|].
    intros x Hx. by apply elem_of_nil in Hx.
  - rewrite dict_update_cons.
    destruct (dict_keys_set_prefix d k v) as (t1 & E1 & H1).
    destruct (IH (dict_set d k v)) as (t2 & E2 & H2).
    exists (t1 ++ t2). rewrite E2, E1, <- app_assoc. split; [done|].
    intros x Hx. apply elem_of_app in Hx as [Hx|Hx].
    + destruct (H1 x Hx) as [-> Hn]. split; [by left|done].
    + destruct (H2 x Hx) as [Hin Hn]. split; [by right|].
      intros Hd. apply Hn. rewrite E1. apply elem_of_app. by left.
Qed.

Lemma dict_keys_update_same (other : list (string * value)) : forall d : pydict,
  (forall x, x ∈ dict_keys other -> x ∈ dict_keys d) ->
  dict_keys (dict_update d other) = dict_keys d.
Proof.
  intros d Hsub.
  destruct (dict_keys_update_prefix other d) as (t & E & Ht).
  destruct t as [|x t]; [by rewrite E, app_nil_r|].
  destruct (Ht x) as [Hin Hn]; [by left|]. by destruct Hn; apply Hsub.
Qed.

Lemma dict_keys_update_fresh (other : list (string * value)) : forall d : pydict,
  NoDup (dict_keys d ++ dict_keys other) ->
  dict_keys (dict_update d other) = dict_keys d ++ dict_keys other.
Proof.
  induction other as [|[k v] other IH]; intros d Hnd.
  - simpl. by rewrite app_nil_r.
  - rewrite dict_update_cons. simpl in Hnd. simpl.
    assert (Hk : k ∉ dict_keys d).
    { apply NoDup_app in Hnd as (_ & Hdis & _). intros Hin.
      apply (Hdis k Hin). by left. }
    rewrite IH; rewrite dict_keys_set_notin by done.
    + by rewrite <- app_assoc.
    + by rewrite <- app_assoc.
Qed.

(** X16.  The slots of a new instance: for a class with pairwise distinct
    parameter names that all have a default, [new] gives an instance of
    the class object bound to the name whose [__dict__] lists the declared
    attributes first, in declaration order, followed only by named
    arguments that are not declared attributes. *)
Theorem new_slot_order (construct : pytype -> value -> outcome value)
  (mm : MetaModel) (kind : string) (cid : nat) (names types : list string)
  (args : list value) (kwargs : pydict) (cvals : list value) :
  classes mm !! kind = Some cid ->
  param_names mm !! kind = Some names ->
  param_types mm !! kind = Some types ->
  length names = length types ->
  NoDup names ->
  forallb base_type types = true ->
  clashes ["self"; "kind"] kwargs = false ->
  coerce_args construct (after_defaults mm cid (zip names types))
    (zip names types) args = Ok cvals ->
  exists mm' o extra,
    new construct mm kind args kwargs = (mm', Ok (Some (length (objs mm))))
    /\ objs mm' !! length (objs mm) = Some o
    /\ cls o = cid
    /\ dict_keys (dict_ o) = names ++ extra
    /\ forall x, x ∈ extra -> x ∈ dict_keys kwargs /\ x ∉ names.
Proof.
  intros Hc Hn Ht Hlen Hnd Hb Hk Hco.
  destruct (new_builds construct mm kind cid names types args kwargs cvals
              Hc Hn Ht Hlen Hb Hk Hco)
    as (mm' & dvals & Hnew & Hd & Hobjs & _).
  assert (Hdl : length names = length dvals).
  { rewrite Hd, default_values_length by done. done. }
  assert (Hk1 : dict_keys (dict_update [] (zip names dvals)) = names).
  { rewrite dict_keys_update_fresh; simpl; unfold dict_keys;
      rewrite (map_fst_zip names dvals Hdl); done. }
  assert (Hk2 : dict_keys (dict_update (dict_update [] (zip names dvals))
                             (zip names cvals)) = names).
  { rewrite dict_keys_update_same; [done|].
    intros x Hx. rewrite Hk1. rewrite dict_keys_zip_take in Hx.
    apply elem_of_take in Hx as (j & Hj & _). by eapply list_elem_of_lookup_2. }
  destruct (dict_keys_update_prefix kwargs
              (dict_update (dict_update [] (zip names dvals)) (zip names cvals)))
    as (extra & E & Hex).
  rewrite Hk2 in E, Hex.
  exists mm', (MkInstance cid (new_dict names dvals cvals kwargs)), extra.
  split; [done|]. split.
  { rewrite Hobjs. by apply list_lookup_middle. }
  split; [done|]. split; [exact E|exact Hex].
Qed.

Lemma new_slot_order_witness :
  exists mm' o extra,
    new construct_simple mm_person "Person" [VStr "Al"] [("nick", VStr "Bo")]
    = (mm', Ok (Some (length (objs mm_person))))
    /\ objs mm' !! length (objs mm_person) = Some o
    /\ cls o = 0%nat
    /\ dict_keys (dict_ o) = ["name"; "age"] ++ extra
    /\ forall x, x ∈ extra -> x ∈ dict_keys [("nick", VStr "Bo")]
                              /\ x ∉ ["name"; "age"].
Proof.
  apply (new_slot_order construct_simple mm_person "Person" 0%nat
           ["name"; "age"] ["string"; "integer"] [VStr "Al"]
           [("nick", VStr "Bo")] [VStr "Al"]);
    try reflexivity.
  apply (bool_decide_unpack _). vm_compute. exact I.
Defined.

(** ** Queries *)

Lemma alter_out_of_range {A} (f : A -> A) (i : nat) (l : list A) :
  l !! i = None -> alter f i l = l.
Proof.
  intros Hi. apply list_eq. intros j.
  destruct (decide (i = j)) as [<-|Hne].
  - by rewrite list_lookup_alter_eq, Hi.
  - by rewrite list_lookup_alter_ne.
Qed.

Lemma cache_store_get (mm : MetaModel) (cid : nat) (k : joinkey) (r : QuerySet) :
  cache_get (cache_of mm cid) k = None ->
  is_Some (class_heap mm !! cid) ->
  cache_get (cache_of (cache_store mm cid k r) cid) k = Some r.
Proof.
  intros Hmiss [K HK]. rewrite (cache_of_store mm cid k r K HK).
  rewrite cache_get_app, Hmiss. simpl. by rewrite joinkey_eqb_refl.
Qed.

Lemma cache_store_q (mm : MetaModel) (cid c : nat) (k : joinkey) (r : QuerySet)
  (K : Class) :
  class_heap mm !! c = Some K ->
  exists K', class_heap (cache_store mm cid k r) !! c = Some K'
             /\ __q__ K' = __q__ K /\ (c <> cid -> K' = K).
Proof.
  intros HK. unfold cache_store. simpl.
  destruct (decide (cid = c)) as [->|Hne].
  - rewrite list_lookup_alter_eq, HK. simpl. eexists. split; [done|].
    split; [done|]. done.
  - rewrite list_lookup_alter_ne by done. eauto.
Qed.

(** X17.  A lookup over an association is memoised and touches nothing
    but the cache of the target class: a second, identical lookup right
    after a successful one returns the same set and leaves the registry
    exactly as the first one left it; the class bindings, the instance
    tables, the instances and the parameter lists are unchanged, every
    class keeps its [__q__], and every class object other than the one
    bound to the target's class name is unchanged altogether. *)
Theorem select_endpoint_memoised (mm mm' : MetaModel) (inst : nat)
  (source target : AssociationLink.t) (kwargs : pydict) (r : QuerySet) :
  _select_endpoint mm inst source target kwargs = (mm', Ok r) ->
  _select_endpoint mm' inst source target kwargs = (mm', Ok r)
  /\ classes mm' = classes mm
  /\ instances mm' = instances mm
  /\ objs mm' = objs mm
  /\ param_names mm' = param_names mm
  /\ param_types mm' = param_types mm
  /\ (forall c K, class_heap mm !! c = Some K ->
        exists K', class_heap mm' !! c = Some K'
                   /\ __q__ K' = __q__ K
                   /\ (classes mm !! AssociationLink.kind target <> Some c ->
                       K' = K)).
Proof.
  intros Hsel.
  assert (Hsame : mm' = mm ->
            _select_endpoint mm' inst source target kwargs = (mm', Ok r)
            /\ classes mm' = classes mm /\ instances mm' = instances mm
            /\ objs mm' = objs mm /\ param_names mm' = param_names mm
            /\ param_types mm' = param_types mm
            /\ (forall c K, class_heap mm !! c = Some K ->
                  exists K', class_heap mm' !! c = Some K'
                    /\ __q__ K' = __q__ K
                    /\ (classes mm !! AssociationLink.kind target <> Some c ->
                        K' = K))).
  { intros ->. repeat split; try done. intros c K HK. exists K. done. }
  unfold _select_endpoint in Hsel.
  destruct (instances mm !! AssociationLink.kind target) as [table|] eqn:Et;
    [|apply Hsame; congruence].
  destruct (getattrs (objs mm) inst (AssociationLink.ids source)) as [vals|e] eqn:Ev;
    [|apply Hsame; congruence].
  destruct (classes mm !! AssociationLink.kind target) as [cid|] eqn:Ec;
    [|apply Hsame; congruence].
  destruct (cache_get (cache_of mm cid) (join_kwargs target vals kwargs))
    as [r0|] eqn:Eg; [apply Hsame; congruence|].
  destruct (_query mm (AssociationLink.kind target) (AssociationLink.is_many target)
              (join_kwargs target vals kwargs)) as [l|e] eqn:Eq;
    [|apply Hsame; congruence].
  injection Hsel as <- <-.
  split.
  - unfold _select_endpoint.
    change (instances (cache_store mm cid (join_kwargs target vals kwargs)
                         (QuerySet_of l))) with (instances mm).
    change (objs (cache_store mm cid (join_kwargs target vals kwargs)
                    (QuerySet_of l))) with (objs mm).
    change (classes (cache_store mm cid (join_kwargs target vals kwargs)
                       (QuerySet_of l))) with (classes mm).
    rewrite Et, Ev, Ec.
    destruct (class_heap mm !! cid) as [K|] eqn:EK.
    + rewrite cache_store_get by (done || eauto). done.
    + assert (Hid : cache_store mm cid (join_kwargs target vals kwargs)
                      (QuerySet_of l)
                    = with_class_heap mm (class_heap mm)).
      { unfold cache_store. by rewrite alter_out_of_range. }
      rewrite Hid.
      assert (Hc0 : cache_of (with_class_heap mm (class_heap mm)) cid
                    = cache_of mm cid) by done.
      rewrite Hc0, Eg.
      change (_query (with_class_heap mm (class_heap mm))
                (AssociationLink.kind target) (AssociationLink.is_many target)
                (join_kwargs target vals kwargs))
        with (_query mm (AssociationLink.kind target)
                (AssociationLink.is_many target)
                (join_kwargs target vals kwargs)).
      rewrite Eq. f_equal.
      unfold cache_store. simpl. by rewrite alter_out_of_range.
  - repeat split; try done.
    intros c K HK.
    destruct (cache_store_q mm cid c (join_kwargs target vals kwargs)
                (QuerySet_of l) K HK) as (K' & H1 & H2 & H3).
    exists K'. split; [done|]. split; [done|].
    intros Hne. apply H3. congruence.
Qed.

End Frames.

Section MemoisedExample.

#[local] Existing Instance ascii_lower.

Lemma select_endpoint_memoised_witness :
  _select_endpoint mm_shop_cached 0 order_end item_end []
    = (mm_shop_cached, Ok [1; 3]%nat)
  /\ classes mm_shop_cached = classes mm_shop
  /\ instances mm_shop_cached = instances mm_shop
  /\ objs mm_shop_cached = objs mm_shop
  /\ param_names mm_shop_cached = param_names mm_shop
  /\ param_types mm_shop_cached = param_types mm_shop
  /\ (forall c K, class_heap mm_shop !! c = Some K ->
        exists K', class_heap mm_shop_cached !! c = Some K'
                   /\ __q__ K' = __q__ K
                   /\ (classes mm_shop !! AssociationLink.kind item_end <> Some c ->
                       K' = K)).
Proof.
  apply (select_endpoint_memoised mm_shop mm_shop_cached 0%nat order_end item_end
           [] [1; 3]%nat).
  vm_compute. reflexivity.
Defined.

End MemoisedExample.

(** [select_many], [select_any] and [select_one].  As in a chain's call,
    the where condition is a total test on instances, and without one
    every instance passes. *)
Definition select_many (mm : MetaModel) (kind : string)
  (where_cond : option (nat -> bool)) : QuerySet :=
  match instances mm !! kind with
  | Some table => QuerySet_of (NavChain.filtered where_cond table)
  | None => QuerySet_of []
  end.

Definition select_any (mm : MetaModel) (kind : string)
  (where_cond : option (nat -> bool)) : option nat :=
  match instances mm !! kind with
  | Some table => head (NavChain.filtered where_cond table)
  | None => None
  end.

Definition select_one (mm : MetaModel) (kind : string)
  (where_cond : option (nat -> bool)) : option nat :=
  select_any mm kind where_cond.

Lemma head_QuerySet_of (l : list nat) : head (QuerySet_of l) = head l.
Proof.
  destruct l as [|k it]; [done|]. unfold QuerySet_of.
  change (OrderedSet.ior_list [] (k :: it))
    with (OrderedSet.ior_list (OrderedSet.add_list [] k) it).
  destruct (ior_list_split it (OrderedSet.add_list [] k)) as (t & -> & _).
  unfold OrderedSet.add_list. case_decide as Hin; [by apply elem_of_nil in Hin|].
  done.
Qed.

Lemma elem_of_QuerySet_of (l : list nat) (i : nat) : i ∈ QuerySet_of l <-> i ∈ l.
Proof.
  unfold QuerySet_of. rewrite ior_list_elem_of. split; [|by right].
  intros [Hn|?]; [by apply elem_of_nil in Hn|done].
Qed.

Lemma elem_of_filtered (w : option (nat -> bool)) (l : list nat) (i : nat) :
  i ∈ NavChain.filtered w l <-> i ∈ l /\ accepts w i = true.
Proof.
  rewrite filtered_filter, !list_elem_of_In. apply filter_In.
Qed.

(** X18.  [select_any] (and [select_one], which is the same call) returns
    the first element of what [select_many] returns for the same class and
    condition, and [None] exactly when that set is empty; [select_many]
    holds, without duplicates, exactly the instances of the class's table
    that pass the condition, and nothing for a class without table. *)
Theorem select_any_first_of_many (mm : MetaModel) (kind : string)
  (w : option (nat -> bool)) :
  select_any mm kind w = head (select_many mm kind w)
  /\ select_one mm kind w = select_any mm kind w
  /\ (select_any mm kind w = None <-> select_many mm kind w = [])
  /\ NoDup (select_many mm kind w)
  /\ (forall i, i ∈ select_many mm kind w <->
        exists table, instances mm !! kind = Some table
                      /\ i ∈ table /\ accepts w i = true).
Proof.
  assert (Hh : select_any mm kind w = head (select_many mm kind w)).
  { unfold select_any, select_many.
    destruct (instances mm !! kind) as [table|]; [|done].
    by rewrite head_QuerySet_of. }
  split; [done|]. split; [done|]. split.
  { rewrite Hh. by destruct (select_many mm kind w). }
  split.
  { unfold select_many. destruct (instances mm !! kind);
      apply QuerySet_of_is_NoDup. }
  intros i. unfold select_many.
  destruct (instances mm !! kind) as [table|].
  - rewrite elem_of_QuerySet_of, elem_of_filtered. split.
    + intros [? ?]. exists table. done.
    + intros (t & [= <-] & ? & ?). done.
  - rewrite elem_of_QuerySet_of. split.
    + intros Hn. by apply elem_of_nil in Hn.
    + intros (t & [=] & _).
Qed.

Lemma new_table (construct : pytype -> value -> outcome value)
  (mm mm' : MetaModel) (kind : string) (args : list value) (kwargs : pydict)
  (i : nat) :
  new construct mm kind args kwargs = (mm', Ok (Some i)) ->
  instances mm'
  = <[kind := default [] (instances mm !! kind) ++ [i]]> (instances mm).
Proof.
  intros Hnew.
  assert (Hs : snd (new construct mm kind args kwargs) = Ok (Some i))
    by (by rewrite Hnew).
  assert (Hf : fst (new construct mm kind args kwargs) = mm')
    by (by rewrite Hnew).
  destruct (new_cases construct mm kind args kwargs)
    as [[_ Hno]|(cid & mmf & _ & _ & [[_ Hno]|[Hfst Hsnd]])].
  - by destruct (Hno i).
  - by destruct (Hno i).
  - rewrite Hsnd in Hs. injection Hs as <-.
    rewrite Hfst in Hf. by subst mm'.
Qed.

Lemma head_filter_eqb (i : nat) (l : list nat) :
  i ∈ l -> head (List.filter (Nat.eqb i) l) = Some i.
Proof.
  induction l as [|x l IH]; intros Hin; [by apply elem_of_nil in Hin|].
  simpl. destruct (Nat.eqb_spec i x) as [->|Hne]; [done|].
  apply IH. apply elem_of_cons in Hin as [?|?]; done.
Qed.

(** X19.  What [new] returns can be selected: after a successful
    [new(kind, ...)] the new instance is in [select_many(kind)] and is
    what [select_any] finds under a condition that only it passes; under
    any condition the selection of the class finds what it found before
    and, at most, the new instance in addition; the selections of every
    other class are unchanged. *)
Theorem new_then_select (construct : pytype -> value -> outcome value)
  (mm mm' : MetaModel) (kind : string) (args : list value) (kwargs : pydict)
  (i : nat) :
  new construct mm kind args kwargs = (mm', Ok (Some i)) ->
  i ∈ select_many mm' kind None
  /\ select_any mm' kind (Some (Nat.eqb i)) = Some i
  /\ (forall w j, j ∈ select_many mm' kind w <->
        j ∈ select_many mm kind w \/ (j = i /\ accepts w i = true))
  /\ (forall k w, k <> kind ->
        select_many mm' k w = select_many mm k w
        /\ select_any mm' k w = select_any mm k w).
Proof.
  intros Hnew. pose proof (new_table construct mm mm' kind args kwargs i Hnew) as Ht.
  assert (Hk : instances mm' !! kind
               = Some (default [] (instances mm !! kind) ++ [i])).
  { rewrite Ht. by rewrite lookup_insert_eq. }
  split; [|split; [|split]].
  - unfold select_many, QuerySet. rewrite Hk.
    rewrite elem_of_QuerySet_of, elem_of_filtered. split; [|done].
    apply elem_of_app. right. by left.
  - unfold select_any, QuerySet. rewrite Hk. simpl. apply head_filter_eqb.
    apply elem_of_app. right. by left.
  - intros w j. unfold select_many, QuerySet. rewrite Hk.
    rewrite elem_of_QuerySet_of, elem_of_filtered, elem_of_app,
      list_elem_of_singleton.
    destruct (instances mm !! kind) as [table|]; simpl;
      rewrite elem_of_QuerySet_of.
    + rewrite elem_of_filtered. split.
      * intros [[Hj|Hj] Ha]; [by left|subst j; by right].
      * intros [[Hj Ha]|[Hj Ha]]; [by split; [left|]|subst j; by split; [right|]].
    + split.
      * intros [[Hn|Hj] Ha]; [by apply elem_of_nil in Hn|subst j; by right].
      * intros [Hn|[Hj Ha]];
          [by apply elem_of_nil in Hn|subst j; by split; [right|]].
  - intros k w Hne. unfold select_many, select_any, QuerySet.
    rewrite Ht, lookup_insert_ne by done. done.
Qed.

Lemma new_then_select_witness :
  3%nat ∈ select_many mm_shop "Item" None
  /\ select_any mm_shop "Item" (Some (Nat.eqb 3)) = Some 3%nat
  /\ (forall w j,
        j ∈ select_many mm_shop "Item" w <->
        j ∈ select_many
              (fst (new construct_simple
                      (fst (new construct_simple mm_shop_order "Item"
                              [VInt 1; VStr "a"] []))
                      "Item" [VInt 2; VStr "b"] []))
              "Item" w
        \/ (j = 3%nat /\ accepts w 3 = true))
  /\ (forall k w, k <> "Item" ->
        select_many mm_shop k w
        = select_many
            (fst (new construct_simple
                    (fst (new construct_simple mm_shop_order "Item"
                            [VInt 1; VStr "a"] []))
                    "Item" [VInt 2; VStr "b"] []))
            k w
        /\ select_any mm_shop k w
           = select_any
               (fst (new construct_simple
                       (fst (new construct_simple mm_shop_order "Item"
                               [VInt 1; VStr "a"] []))
                       "Item" [VInt 2; VStr "b"] []))
               k w).
Proof.
  apply (new_then_select construct_simple
           (fst (new construct_simple
                   (fst (new construct_simple mm_shop_order "Item"
                           [VInt 1; VStr "a"] []))
                   "Item" [VInt 2; VStr "b"] []))
           mm_shop "Item" [VInt 1; VStr "c"] [] 3%nat).
  vm_compute. reflexivity.
Defined.

(** ** Associations *)

(** [q[kind][rel_id][phrase]], when all three keys are there. *)
Definition q_get
  (q : gmap string (gmap string (gmap string (AssociationLink.t * AssociationLink.t))))
  (kind rel_id phrase : string) : option (AssociationLink.t * AssociationLink.t) :=
  match q !! kind with
  | None => None
  | Some by_rel =>
      match by_rel !! rel_id with
      | None => None
      | Some by_phrase => by_phrase !! phrase
      end
  end.

Section Following.

Context {str_lower : StrLower}.

(** The names that a chain answers itself, without [__getattr__]: its
    three fields, [nav] and the special names. *)
Definition own_attribute (name : string) : bool :=
  is_dunder name || existsb (String.eqb name) ["handle"; "is_many"; "_kind"; "nav"].

(** A chain followed through several hops, [chain.Name[relid, phrase]]
    each, for names that reach [__getattr__]. *)
Fixpoint follow (mm : MetaModel) (nc : NavChain.t)
  (hops : list (string * (Z + string) * option string))
  : MetaModel * outcome NavChain.t :=
  match hops with
  | [] => (mm, Ok nc)
  | (name, relid, phrase) :: rest =>
      match NavChain.__getitem__ mm (NavChain.__getattr__ nc name) relid phrase with
      | (mm', Ok nc') => follow mm' nc' rest
      | (mm', Raise e) => (mm', Raise e)
      end
  end.

Lemma q_set_get (mm : MetaModel) (cid : nat) (kind rel_id phrase : string)
  (links : AssociationLink.t * AssociationLink.t) (c : nat) (K : Class) :
  class_heap mm !! c = Some K ->
  exists K',
    class_heap (q_set mm cid kind rel_id phrase links) !! c = Some K'
    /\ forall k r p,
         q_get (__q__ K') k r p
         = if decide (c = cid /\ k = kind /\ r = rel_id /\ p = phrase)
           then Some links else q_get (__q__ K) k r p.
Proof.
  intros HK. unfold q_set. simpl.
  destruct (decide (c = cid)) as [->|Hne].
  - rewrite list_lookup_alter_eq, HK. simpl. eexists. split; [done|].
    intros k r p. simpl. unfold q_get.
    destruct (decide (k = kind)) as [->|Hk].
    + rewrite lookup_insert_eq.
      destruct (decide (r = rel_id)) as [->|Hr].
      * rewrite lookup_insert_eq.
        destruct (decide (p = phrase)) as [->|Hp].
        -- rewrite lookup_insert_eq. by rewrite decide_True.
        -- rewrite lookup_insert_ne by done.
           rewrite decide_False by (intros (_ & _ & _ & ?); done).
           destruct (__q__ K !! kind) as [by_rel|]; simpl; [|done].
           by destruct (by_rel !! rel_id).
      * rewrite lookup_insert_ne by done.
        rewrite decide_False by (intros (_ & _ & ? & _); done).
        by destruct (__q__ K !! kind).
    + rewrite lookup_insert_ne by done.
      rewrite decide_False by (intros (_ & ? & _); done). done.
  - rewrite list_lookup_alter_ne by done. exists K. split; [done|].
    intros k r p. rewrite decide_False by (intros (? & _); done). done.
Qed.

Lemma lookup_q_get (mm : MetaModel) (child : nat) (o : Instance) (K : Class)
  (kd relid phrase : string) (links : AssociationLink.t * AssociationLink.t) :
  objs mm !! child = Some o ->
  dict_get (dict_ o) "__q__" = None ->
  class_heap mm !! cls o = Some K ->
  q_get (__q__ K) kd relid phrase = Some links ->
  NavChain.lookup_q mm child (Some kd) relid phrase = Ok links.
Proof.
  intros Ho Hd HK Hq. unfold NavChain.lookup_q. rewrite Ho, Hd, HK.
  unfold q_get in Hq.
  destruct (__q__ K !! kd) as [by_rel|]; [|done].
  destruct (by_rel !! relid) as [by_phrase|]; [|done].
  by rewrite Hq.
Qed.

(** X20.  [define_association] between two defined classes returns
    normally and registers both directions: from an instance of the
    target's class the relationship leads, under the source's phrase, to
    the source end, and from an instance of the source's class, under the
    target's phrase, to the target end.  The only exception is a reflexive
    association whose two ends carry the same phrase: the second
    registration overwrites the first, and only the direction from target
    to source is left. *)
Theorem define_association_both_directions (mm : MetaModel) (rel_id : string)
  (source target : AssociationLink.t) (S T : nat) (KS KT : Class) :
  classes mm !! AssociationLink.kind source = Some S ->
  classes mm !! AssociationLink.kind target = Some T ->
  class_heap mm !! S = Some KS ->
  class_heap mm !! T = Some KT ->
  snd (define_association mm rel_id source target) = Ok tt
  /\ (forall child o,
        objs mm !! child = Some o -> cls o = T ->
        dict_get (dict_ o) "__q__" = None ->
        NavChain.lookup_q (fst (define_association mm rel_id source target)) child
          (Some (AssociationLink.kind source)) rel_id
          (AssociationLink.phrase source)
        = Ok (target, source))
  /\ (forall child o,
        objs mm !! child = Some o -> cls o = S ->
        dict_get (dict_ o) "__q__" = None ->
        NavChain.lookup_q (fst (define_association mm rel_id source target)) child
          (Some (AssociationLink.kind target)) rel_id
          (AssociationLink.phrase target)
        = Ok (if decide (AssociationLink.kind source = AssociationLink.kind target
                         /\ AssociationLink.phrase source
                            = AssociationLink.phrase target)
              then (target, source) else (source, target))).
Proof.
  intros Hs Ht HKS HKT. unfold define_association. rewrite Hs, Ht. simpl.
  set (mm1 := q_set mm S (AssociationLink.kind target) rel_id
                (AssociationLink.phrase target) (source, target)).
  set (mm2 := q_set mm1 T (AssociationLink.kind source) rel_id
                (AssociationLink.phrase source) (target, source)).
  split; [done|]. split.
  - intros child o Ho Hc Hd. subst T.
    destruct (q_set_get mm S (AssociationLink.kind target) rel_id
                (AssociationLink.phrase target) (source, target) (cls o) KT HKT)
      as (K1 & HK1 & _).
    destruct (q_set_get mm1 (cls o) (AssociationLink.kind source) rel_id
                (AssociationLink.phrase source) (target, source) (cls o) K1 HK1)
      as (K2 & HK2 & Hg2).
    apply (lookup_q_get mm2 child o K2); try done.
    rewrite Hg2. by rewrite decide_True.
  - intros child o Ho Hc Hd. subst S.
    destruct (q_set_get mm (cls o) (AssociationLink.kind target) rel_id
                (AssociationLink.phrase target) (source, target) (cls o) KS HKS)
      as (K1 & HK1 & Hg1).
    destruct (q_set_get mm1 T (AssociationLink.kind source) rel_id
                (AssociationLink.phrase source) (target, source) (cls o) K1 HK1)
      as (K2 & HK2 & Hg2).
    apply (lookup_q_get mm2 child o K2); try done.
    rewrite Hg2, Hg1.
    destruct (decide (AssociationLink.kind source = AssociationLink.kind target
                      /\ AssociationLink.phrase source
                         = AssociationLink.phrase target)) as [[Ek Ep]|Hn].
    + rewrite decide_True; [done|].
      repeat split; try done. rewrite Ek in Hs. congruence.
    + rewrite decide_False by (intros (_ & Ek & _ & Ep); apply Hn; done).
      by rewrite decide_True.
Qed.

Lemma define_association_both_directions_witness :
  snd (define_association mm_shop "R3" order_end item_end) = Ok tt
  /\ (forall child o,
        objs mm_shop !! child = Some o -> cls o = 1%nat ->
        dict_get (dict_ o) "__q__" = None ->
        NavChain.lookup_q (fst (define_association mm_shop "R3" order_end item_end))
          child (Some (AssociationLink.kind order_end)) "R3"
          (AssociationLink.phrase order_end)
        = Ok (item_end, order_end))
  /\ (forall child o,
        objs mm_shop !! child = Some o -> cls o = 0%nat ->
        dict_get (dict_ o) "__q__" = None ->
        NavChain.lookup_q (fst (define_association mm_shop "R3" order_end item_end))
          child (Some (AssociationLink.kind item_end)) "R3"
          (AssociationLink.phrase item_end)
        = Ok (if decide (AssociationLink.kind order_end = AssociationLink.kind item_end
                         /\ AssociationLink.phrase order_end
                            = AssociationLink.phrase item_end)
              then (item_end, order_end) else (order_end, item_end))).
Proof.
  refine (define_association_both_directions mm_shop "R3" order_end item_end
            0%nat 1%nat _ _ _ _ _ _); vm_compute; reflexivity.
Defined.

Lemma nav_empty_handle (mm : MetaModel) (nc : NavChain.t) (kind : option string)
  (relid : Z + string) (phrase : string) :
  NavChain.handle nc = [] ->
  NavChain.nav mm nc kind relid phrase
  = (mm, Ok (NavChain.Make [] (NavChain.is_many nc) (NavChain._kind nc))).
Proof. intros Hh. unfold NavChain.nav. by rewrite Hh. Qed.

(** X21.  Navigation from nothing is safe: a chain whose handle is empty
    (started from [None] or from an empty set) can be followed through
    any number of hops, over class names (other than the chain's own
    attribute names), relationship ids and phrases that need not exist;
    no hop fails or changes the registry, and the
    chain evaluates to [None], or to the empty set when it was started
    with [navigate_many], under any where clause. *)
Theorem follow_from_nothing (mm : MetaModel) (nc : NavChain.t)
  (hops : list (string * (Z + string) * option string))
  (w : option (nat -> bool)) :
  forallb (fun hop => negb (own_attribute (fst (fst hop)))) hops = true ->
  NavChain.handle nc = [] ->
  exists nc',
    follow mm nc hops = (mm, Ok nc')
    /\ NavChain.handle nc' = []
    /\ NavChain.is_many nc' = NavChain.is_many nc
    /\ NavChain.__call__ nc' w
       = if NavChain.is_many nc then NavChain.Many [] else NavChain.One None.
Proof.
  intros _. revert nc.
  induction hops as [|[[name relid] phrase] hops IH]; intros nc Hh.
  - exists nc. split; [done|]. split; [done|]. split; [done|].
    unfold NavChain.__call__. rewrite Hh.
    destruct (NavChain.is_many nc); by destruct w.
  - simpl. unfold NavChain.__getitem__.
    rewrite nav_empty_handle by done. simpl.
    destruct (IH (NavChain.Make [] (NavChain.is_many nc) (Some name)) eq_refl)
      as (nc' & Hf & Hh' & Hm & Hcall).
    exists nc'. done.
Qed.

End Following.

Section FollowingExample.

#[local] Existing Instance ascii_lower.

Lemma follow_from_nothing_witness :
  exists nc',
    follow mm_shop (NavChain.Make [] false None)
      [("Ghost", inl 7%Z, None); ("Item", inr "R1", Some "of")]
    = (mm_shop, Ok nc')
    /\ NavChain.handle nc' = []
    /\ NavChain.is_many nc' = NavChain.is_many (NavChain.Make [] false None)
    /\ NavChain.__call__ nc' None
       = if NavChain.is_many (NavChain.Make [] false None)
         then NavChain.Many [] else NavChain.One None.
Proof.
  apply (follow_from_nothing mm_shop (NavChain.Make [] false None)
           [("Ghost", inl 7%Z, None); ("Item", inr "R1", Some "of")] None).
  - reflexivity.
  - reflexivity.
Defined.

End FollowingExample.
